(** * PyCI [routines.py]: determinant selection and solver drivers

    A shallow embedding of [pyci/routines.py] and the properties of its
    selectors ([add_seniorities], [add_gkci] with the two odometer loops) and
    of its solver drivers ([solve], [solve_cepa0]).

    Conventions of the embedding.
    - Python exceptions are the constructors of [exn]; fallible code lives in
      the error monad [result].
    - Orbital indices and electron counts are natural numbers: the source
      builds them with [np.arange] and only ever increments them, and they
      never exceed [max(nbasis, nocc) + nocc], far from the 64-bit limit of
      [pyci.c_int].  The cursor [j_electron], which does become negative, is
      an integer.
    - The costs ([nodes], [t], [p]) are numbers of a type [F] that carries
      the operations the selectors apply to them ([Py.Arith]): every
      statement about the selectors holds for each such arithmetic.  The
      program runs with that of NumPy's float64 ([Py.Arith_float], IEEE 754
      binary64, where sums and products round); the exact rationals
      ([Py.Arith_Q]) are another instance.  The solver drivers, which only
      move numbers around, are embedded over an abstract number type too.
    - [while True] loops are iterated by a fuel-indexed runner; the outcome
      [Diverging] marks fuel exhaustion.  Safety properties are proved for
      every amount of fuel, and [odometer_halts] shows that some amount
      always brings the run to its end. *)

From Stdlib Require Import PrimFloat.
From Stdlib Require FloatOps SpecFloat.
From Stdlib Require Import String.
From Stdlib Require Import List ZArith QArith Lia Bool Sorted Arith.
Import ListNotations.

Local Open Scope string_scope.
Local Open Scope list_scope.
Local Open Scope nat_scope.

(* A decimal literal such as [0.1%float] denotes the nearest binary64 number,
   as it does in Python. *)
Set Warnings "-inexact-float".

(** ** Python exceptions and the error monad *)

Inductive exn : Type :=
| TypeError (msg : string)
| ValueError (msg : string)
| IndexError
| AttributeError
| NotImplementedError.

Inductive result (A : Type) : Type :=
| Ok (a : A)
| Err (e : exn).

Arguments Ok {A} a.
Arguments Err {A} e.

Definition bind {A B : Type} (r : result A) (k : A -> result B) : result B :=
  match r with
  | Ok a => k a
  | Err e => Err e
  end.

Notation "x <- r ;; k" := (bind r (fun x => k))
  (at level 61, r at next level, right associativity).

(** The error taxonomy of the specification: [TypeError] and [ValueError] are
    the two Python exceptions it calls InvalidArgument. *)
Definition InvalidArgument (e : exn) : Prop :=
  match e with
  | TypeError _ | ValueError _ => True
  | _ => False
  end.

(** How a call ends: it returns, it raises, or the fuel of the runner is
    exhausted before the loop has stopped. *)
Inductive outcome : Type :=
| Returned
| Raised (e : exn)
| Diverging.

(** ** Python and NumPy primitives *)

Module Py.

(** [l[i]] for a Python integer [i]: negative indices count from the end. *)
Definition get {A : Type} (l : list A) (i : Z) : result A :=
  let n := Z.of_nat (length l) in
  let k := if (i <? 0)%Z then (i + n)%Z else i in
  if ((0 <=? k) && (k <? n))%Z
  then match nth_error l (Z.to_nat k) with
       | Some a => Ok a
       | None => Err IndexError
       end
  else Err IndexError.

(** [l[k] = v] for an index [k] inside the array (the only use in the source);
    outside it the list is returned as it is. *)
Fixpoint set_at {A : Type} (l : list A) (k : nat) (v : A) : list A :=
  match l, k with
  | [], _ => []
  | _ :: r, O => v :: r
  | a :: r, S k' => a :: set_at r k' v
  end.

(** [np.arange(n)]. *)
Definition arange (n : nat) : list nat := seq 0 n.

(** [nodes[occs]]: indexing by an array of non-negative indices. *)
Fixpoint take {A : Type} (nodes : list A) (occs : list nat)
  : result (list A) :=
  match occs with
  | [] => Ok []
  | i :: r =>
      match nth_error nodes i with
      | Some q => qs <- take nodes r ;; Ok (q :: qs)
      | None => Err IndexError
      end
  end.

(** The arithmetic of the node costs and of the parameters [t] and [p]: the
    operations the selectors apply to these numbers.  [of_int] is the
    conversion of a Python integer ([float(n)]), [add], [sub], [mul] and
    [less] are [+], [-], [*] and [<], [np_sum] is [np.sum] and
    [np_max_of x r] is [np.max] of the non-empty array [x :: r].  Nothing is
    assumed of these operations: in double precision sums and products
    round, and [np.sum] adds in an order of its own. *)
Class Arith (F : Type) : Type := {
  of_int : Z -> F;
  add : F -> F -> F;
  sub : F -> F -> F;
  mul : F -> F -> F;
  less : F -> F -> bool;
  np_sum : list F -> F;
  np_max_of : F -> list F -> F
}.

(** [np.max]: an empty array has no maximum. *)
Definition np_max {F : Type} `{Arith F} (l : list F) : result F :=
  match l with
  | [] => Err (ValueError "zero-size array to reduction operation maximum which has no identity")
  | x :: r => Ok (np_max_of x r)
  end.

(** Exact rational arithmetic. *)
Definition Qltb (a b : Q) : bool := negb (Qle_bool b a).

#[global] Instance Arith_Q : Arith Q := {|
  of_int := inject_Z;
  add := Qplus;
  sub := Qminus;
  mul := Qmult;
  less := Qltb;
  np_sum := fun l => fold_left Qplus l 0%Q;
  np_max_of := fun x r => fold_left (fun m y => if Qltb m y then y else m) r x
|}.

(** The arithmetic of the program: IEEE 754 binary64, the [float] of Python
    and the [float64] of NumPy, with rounding to nearest, ties to even. *)

(** [float(n)]: the integer, correctly rounded. *)
Definition float_of_int (n : Z) : PrimFloat.float :=
  FloatOps.SF2Prim
    (SpecFloat.binary_normalize FloatOps.prec FloatOps.emax n 0 false).

(** [np.sum] of a [float64] array of fewer than eight entries: NumPy adds
    these from left to right, starting from zero.  (It adds a longer array
    in blocks, in another order; the worked instances, which alone use this
    definition, have fewer than eight electrons.) *)
Definition float_sum (l : list PrimFloat.float) : PrimFloat.float :=
  fold_left PrimFloat.add l PrimFloat.zero.

(** [np.max] of the non-empty [float64] array [x :: r]; a NaN propagates. *)
Definition float_max (x : PrimFloat.float) (r : list PrimFloat.float)
  : PrimFloat.float :=
  fold_left (fun m y => if PrimFloat.is_nan m then m
                        else if PrimFloat.is_nan y then y
                        else if PrimFloat.ltb m y then y else m) r x.

#[global] Instance Arith_float : Arith PrimFloat.float := {|
  of_int := float_of_int;
  add := PrimFloat.add;
  sub := PrimFloat.sub;
  mul := PrimFloat.mul;
  less := PrimFloat.ltb;
  np_sum := float_sum;
  np_max_of := float_max
|}.

(** [itertools.combinations(l, r)], in the order of the iterator. *)
Fixpoint combinations {A : Type} (l : list A) (r : nat) : list (list A) :=
  match r with
  | O => [[]]
  | S r' =>
      match l with
      | [] => []
      | a :: l' => map (cons a) (combinations l' r') ++ combinations l' (S r')
      end
  end.

(** [np.setdiff1d(a, b, assume_unique=True)] for a sorted [a]. *)
Definition setdiff1d (a b : list nat) : list nat :=
  filter (fun x => negb (existsb (Nat.eqb x) b)) a.

End Py.

(** ** The wave function container *)

Inductive wfn_kind : Type := doci_wfn | fullci_wfn | genci_wfn | other_wfn.

(** A stored determinant: the spin-up and the spin-down occupations (the
    latter empty for a one-spin wave function). *)
Definition det : Type := (list nat * list nat)%type.

Record wavefunction : Type := mk_wfn {
  kind : wfn_kind;
  nbasis : nat;
  nocc_up : nat;
  nocc_dn : nat;
  dets : list det
}.

Definition nocc (w : wavefunction) : nat := nocc_up w + nocc_dn w.

Definition is_one_spin (w : wavefunction) : bool :=
  match kind w with doci_wfn | genci_wfn => true | _ => false end.

Definition same_occs (a b : list nat) : bool :=
  forallb (fun x => existsb (Nat.eqb x) b) a &&
  forallb (fun x => existsb (Nat.eqb x) a) b.

Definition same_det (d e : det) : bool :=
  same_occs (fst d) (fst e) && same_occs (snd d) (snd e).

(** Modelled from the spec: the container's insertion, which is compiled code
    outside [routines.py].  The wave function is an ordered, duplicate-free
    container: a determinant already present (the same orbitals occupied in
    each channel) is not stored again, a new one is appended. *)
Definition insert_det (w : wavefunction) (d : det) : wavefunction :=
  if existsb (same_det d) (dets w) then w
  else mk_wfn (kind w) (nbasis w) (nocc_up w) (nocc_dn w) (dets w ++ [d]).

(** Modelled from the spec: [wfn.add_occs] of a one-spin wave function reads
    one occupation vector. *)
Definition add_occs_one (w : wavefunction) (occs : list nat) : wavefunction :=
  insert_det w (occs, []).

(** Modelled from the spec: [wfn.add_occs] of a two-spin wave function reads
    its buffer as [nocc_up] spin-up indices followed by [nocc_dn] spin-down
    indices. *)
Definition add_occs_two (w : wavefunction) (flat : list nat) : wavefunction :=
  insert_det w (firstn (nocc_up w) flat,
                firstn (nocc_dn w) (skipn (nocc_up w) flat)).

(** ** The odometer selector ([add_gkci]) *)

Module Odometer.

Section Arithmetic.

(** The number type of the costs, with the program's operations. *)
Context {F : Type} {arith : Py.Arith F}.

(** What one pass through a loop body decides. *)
Inductive ctl : Type :=
| Continue
| Break
| Raise (e : exn).

(** The variables of the loops.  [wfn] is the wave function being filled;
    [accepted] is a ghost log of the arguments of the [add_occs] calls made so
    far, oldest first. *)
Record state : Type := mk_state {
  wfn : wavefunction;
  new_occs : list nat;
  old_occs : list nat;
  j_electron : Z;
  accepted : list (list nat)
}.

(** [while True: body], with [break] and exceptions. *)
Fixpoint loop (body : state -> state * ctl) (fuel : nat) (st : state)
  : state * outcome :=
  match fuel with
  | O => (st, Diverging)
  | S fuel' =>
      match body st with
      | (st', Continue) => loop body fuel' st'
      | (st', Break) => (st', Returned)
      | (st', Raise e) => (st', Raised e)
      end
  end.

(** [np.sum(nodes_s) + t * np.max(nodes_s)] with [nodes_s = nodes[occs]]. *)
Definition cost (nodes : list F) (t : F) (occs : list nat) : result F :=
  nodes_s <- Py.take nodes occs ;;
  m <- Py.np_max nodes_s ;;
  Ok (Py.add (Py.np_sum nodes_s) (Py.mul t m)).

(** [np.sum(nodes_s[:-1]) * p + (t + 1) * nodes[-1] * p] with
    [nodes_s = nodes[occs]]: the cost of the most important neglected
    determinant. *)
Definition neglected_cost (nodes : list F) (t p : F) (occs : list nat)
  : result F :=
  nodes_s <- Py.take nodes occs ;;
  last <- Py.get nodes (-1) ;;
  Ok (Py.add (Py.mul (Py.np_sum (removelast nodes_s)) p)
             (Py.mul (Py.mul (Py.add t (Py.of_int 1)) last) p)).

(** [new_occs[:] = old_occs; j_electron -= 1]. *)
Definition reject (st : state) : state :=
  mk_state (wfn st) (old_occs st) (old_occs st) (j_electron st - 1)
           (accepted st).

(** [for k in range(j + 1, stop): occs[k] = occs[j] + k - j]. *)
Definition reset_later (occs : list nat) (j stop : nat) : list nat :=
  fold_left (fun o k => Py.set_at o k (nth j o 0 + k - j))
            (seq (j + 1) (stop - (j + 1))) occs.

(** [occs[j] += 1]. *)
Definition increment (occs : list nat) (j : nat) : list nat :=
  Py.set_at occs j (nth j occs 0 + 1).

(** *** One spin channel *)

(** The bounds check of [_odometer_one_spin]:
    [new_occs[wfn.nocc_up - 1] >= wfn.nbasis]. *)
Definition one_spin_out_of_range (st : state) : result bool :=
  let w := wfn st in
  last <- Py.get (new_occs st) (Z.of_nat (nocc_up w) - 1) ;;
  Ok (nbasis w <=? last).

(** The acceptance test of [_odometer_one_spin]: the [if]/[else] at the top of
    the loop body. *)
Definition one_spin_test (nodes : list F) (t qs_neg : F) (st : state)
  : result state :=
  let w := wfn st in
  out <- one_spin_out_of_range st ;;
  if out then Ok (reject st)
  else
    qs <- cost nodes t (new_occs st) ;;
    if Py.less qs qs_neg then
      Ok (mk_state (add_occs_one w (new_occs st)) (new_occs st) (old_occs st)
                   (Z.of_nat (nocc_up w) - 1)
                   (accepted st ++ [new_occs st]))
    else Ok (reject st).

(** The tail of the loop body: record the last accepted determinant and excite
    electron [j_electron]. *)
Definition one_spin_excite (st : state) : state :=
  let w := wfn st in
  let j := Z.to_nat (j_electron st) in
  let new1 := increment (new_occs st) j in
  let new2 := if (j_electron st =? Z.of_nat (nocc_up w) - 1)%Z then new1
              else reset_later new1 j (nocc_up w) in
  mk_state w new2 (new_occs st) (j_electron st) (accepted st).

Definition one_spin_body (nodes : list F) (t qs_neg : F) (st : state)
  : state * ctl :=
  match one_spin_test nodes t qs_neg st with
  | Err e => (st, Raise e)
  | Ok st1 =>
      if (j_electron st1 <? 0)%Z then (st1, Break)
      else (one_spin_excite st1, Continue)
  end.

Definition one_spin_init (w : wavefunction) : state :=
  let aufbau_occs := Py.arange (nocc_up w) in
  mk_state w aufbau_occs aufbau_occs (Z.of_nat (nocc_up w) - 1) [].

Definition _odometer_one_spin (fuel : nat) (w : wavefunction) (nodes : list F)
  (t p : F) : state * outcome :=
  let st := one_spin_init w in
  match neglected_cost nodes t p (new_occs st) with
  | Err e => (st, Raised e)
  | Ok qs_neg => loop (one_spin_body nodes t qs_neg) fuel st
  end.

(** *** Two spin channels *)

Definition up_channel (w : wavefunction) (occs : list nat) : list nat :=
  firstn (nocc_up w) occs.

Definition dn_channel (w : wavefunction) (occs : list nat) : list nat :=
  skipn (nocc_up w) occs.

(** The bounds check of [_odometer_two_spin]:
    [max(new_occs[wfn.nocc_up - 1], new_occs[wfn.nocc - 1]) >= wfn.nbasis]. *)
Definition two_spin_out_of_range (st : state) : result bool :=
  let w := wfn st in
  last_up <- Py.get (new_occs st) (Z.of_nat (nocc_up w) - 1) ;;
  last_dn <- Py.get (new_occs st) (Z.of_nat (nocc w) - 1) ;;
  Ok (nbasis w <=? Nat.max last_up last_dn).

(** The acceptance test of [_odometer_two_spin].  [new_occs.reshape(2, -1)]
    raises when the number of electrons is odd. *)
Definition two_spin_test (nodes : list F) (t q_up_neg q_dn_neg : F)
  (st : state) : result state :=
  let w := wfn st in
  out <- two_spin_out_of_range st ;;
  if out then Ok (reject st)
  else
    q_up <- cost nodes t (up_channel w (new_occs st)) ;;
    q_dn <- cost nodes t (dn_channel w (new_occs st)) ;;
    if Py.less q_up q_up_neg && Py.less q_dn q_dn_neg then
      if Nat.even (length (new_occs st)) then
        Ok (mk_state (add_occs_two w (new_occs st)) (new_occs st)
                     (old_occs st) (Z.of_nat (nocc w) - 1)
                     (accepted st ++ [new_occs st]))
      else Err (ValueError "cannot reshape array into shape (2,newaxis)")
    else Ok (reject st).

Definition two_spin_excite (st : state) : state :=
  let w := wfn st in
  let j := Z.to_nat (j_electron st) in
  let new1 := increment (new_occs st) j in
  let new2 :=
    if (j_electron st <? Z.of_nat (nocc_up w))%Z then
      reset_later new1 j (nocc_up w)
    else if (j_electron st <? Z.of_nat (nocc w) - 1)%Z then
      reset_later new1 j (nocc w)
    else new1 in
  mk_state w new2 (new_occs st) (j_electron st) (accepted st).

Definition two_spin_body (nodes : list F) (t q_up_neg q_dn_neg : F)
  (st : state) : state * ctl :=
  match two_spin_test nodes t q_up_neg q_dn_neg st with
  | Err e => (st, Raise e)
  | Ok st1 =>
      if (j_electron st1 <? 0)%Z then (st1, Break)
      else (two_spin_excite st1, Continue)
  end.

Definition two_spin_aufbau (w : wavefunction) : list nat :=
  let a := Py.arange (nocc w) in
  firstn (nocc_up w) a ++ map (fun x => x - nocc_up w) (skipn (nocc_up w) a).

Definition two_spin_init (w : wavefunction) : state :=
  let aufbau_occs := two_spin_aufbau w in
  mk_state w aufbau_occs aufbau_occs (Z.of_nat (nocc w) - 1) [].

Definition _odometer_two_spin (fuel : nat) (w : wavefunction) (nodes : list F)
  (t p : F) : state * outcome :=
  let st := two_spin_init w in
  match neglected_cost nodes t p (up_channel w (new_occs st)) with
  | Err e => (st, Raised e)
  | Ok q_up_neg =>
      match neglected_cost nodes t p (dn_channel w (new_occs st)) with
      | Err e => (st, Raised e)
      | Ok q_dn_neg => loop (two_spin_body nodes t q_up_neg q_dn_neg) fuel st
      end
  end.

(** *** Node tables and the entry point *)

(** [while len(nodes) < nbasis: nodes.extend([shell - 1.0] * shell ** 2);
    shell += 1], [None] when the fuel runs out first. *)
Fixpoint cntsp_loop (fuel : nat) (nodes : list F) (shell nbasis : nat)
  : option (list F) :=
  if length nodes <? nbasis then
    match fuel with
    | O => None
    | S fuel' =>
        cntsp_loop fuel'
          (nodes ++ repeat (Py.sub (Py.of_int (Z.of_nat shell)) (Py.of_int 1))
                           (shell ^ 2))
          (shell + 1) nbasis
    end
  else Some nodes.

(** The table of mode ["cntsp"] before truncation; [nbasis] passes suffice. *)
Definition cntsp_nodes (nbasis : nat) : option (list F) :=
  cntsp_loop nbasis [] 1 nbasis.

(** [x is not None]. *)
Definition is_given {A : Type} (x : option A) : bool :=
  match x with Some _ => true | None => false end.

Inductive mode_arg : Type :=
| ModeStr (name : string)
| ModeCosts (costs : list F).

(** The argument check and node construction of [add_gkci]; [Ok None] stands
    for a table whose construction has not finished. *)
Definition gkci_nodes (w : wavefunction) (mode : mode_arg)
  (node_dim : option Z) : result (option (list F)) :=
  match mode with
  | ModeStr name =>
      if negb (name =? "gamma")%string && is_given node_dim
      then Err (ValueError ("node_dim must not be specified with mode " ++ name)%string)
      else if (name =? "gamma")%string && negb (is_given node_dim)
      then Err (ValueError "node_dim must be specified with mode 'gamma'")
      else if (name =? "cntsp")%string then Ok (cntsp_nodes (nbasis w))
      else if (name =? "gamma")%string then Err NotImplementedError
      else if (name =? "cubic")%string then Err NotImplementedError
      else Err (ValueError "mode must be one of ('cntsp', 'gamma', 'cubic'")
  | ModeCosts costs => Ok (Some costs)
  end.

Definition add_gkci (fuel : nat) (w : wavefunction) (t p : F)
  (mode : mode_arg) (node_dim : option Z) : wavefunction * outcome :=
  match gkci_nodes w mode node_dim with
  | Err e => (w, Raised e)
  | Ok None => (w, Diverging)
  | Ok (Some nodes0) =>
      let nodes := firstn (nbasis w) nodes0 in
      match kind w with
      | doci_wfn | genci_wfn =>
          let (st, out) := _odometer_one_spin fuel w nodes t p in
          (wfn st, out)
      | fullci_wfn =>
          let (st, out) := _odometer_two_spin fuel w nodes t p in
          (wfn st, out)
      | other_wfn =>
          (w, Raised (TypeError "wfn must be a pyci.{doci,fullci,genci}_wfn"))
      end
  end.

End Arithmetic.

Arguments ModeStr {F} name.
Arguments ModeCosts {F} costs.
Arguments cntsp_nodes F {_} nbasis.

End Odometer.

(** ** The seniority enumerator ([add_seniorities]) *)

Module Seniority.

(** The working array [occs = np.empty((2, nocc_up))]: two rows, shared by all
    the insertions. *)
Record buffer : Type := mk_buffer {
  row_up : list nat;
  row_dn : list nat
}.

(** [np.empty]: the initial contents are whatever the memory holds, here the
    values [junk] gives. *)
Definition np_empty (junk : nat -> nat) (ncol : nat) : buffer :=
  mk_buffer (map junk (seq 0 ncol)) (map junk (seq ncol ncol)).

(** [row[lo:hi] = src], for a source of length [hi - lo] (the tuples of
    [combinations] assigned in the source have that length whenever
    [nocc_dn <= nocc_up], as the constructor of the wave function ensures). *)
Definition assign_slice (row : list nat) (lo hi : nat) (src : list nat)
  : list nat :=
  firstn lo row ++ src ++ skipn hi row.

(** [wfn.add_occs(occs)] on the working array, read row after row. *)
Definition add_buffer (w : wavefunction) (occs : buffer) : wavefunction :=
  add_occs_two w (row_up occs ++ row_dn occs).

Definition smin (w : wavefunction) : Z :=
  Z.of_nat (nocc_up w) - Z.of_nat (nocc_dn w).

(** [min(wfn.nocc_up, wfn.nvir_up)], with [nvir_up = nbasis - nocc_up]. *)
Definition smax (w : wavefunction) : Z :=
  Z.min (Z.of_nat (nocc_up w)) (Z.of_nat (nbasis w) - Z.of_nat (nocc_up w)).

(** The condition under [any(...)]: [s] is not a legal seniority. *)
Definition invalid_seniority (w : wavefunction) (s : Z) : bool :=
  ((s <? smin w) || (s >? smax w) || negb (s mod 2 =? smin w mod 2))%Z.

(** Modelled from the spec: [sz_wfn.to_occ_array()] after [add_all_dets()] on
    [doci_wfn(nbasis, nocc_up)], compiled code outside [routines.py]: every
    spin-up occupation pattern of [nocc_up] orbitals out of [nbasis], each as
    an increasing vector. *)
Definition occ_up_array (w : wavefunction) : list (list nat) :=
  Py.combinations (seq 0 (nbasis w)) (nocc_up w).

(** The innermost statements: write the spin-down slice, insert. *)
Definition put_dn_and_add (lo hi : nat) (st : buffer * wavefunction)
  (occs_dn : list nat) : buffer * wavefunction :=
  let occs := mk_buffer (row_up (fst st))
                        (assign_slice (row_dn (fst st)) lo hi occs_dn) in
  (occs, add_buffer (snd st) occs).

(** [occs[0, :] = occs_up]. *)
Definition put_up (st : buffer * wavefunction) (occs_up : list nat)
  : buffer * wavefunction :=
  (mk_buffer (assign_slice (row_up (fst st)) 0 (length (row_up (fst st)))
                           occs_up)
             (row_dn (fst st)),
   snd st).

(** The body of [for s in seniorities]. *)
Definition seniority_request (st : buffer * wavefunction) (s : Z)
  : buffer * wavefunction :=
  let w := snd st in
  let brange := Py.arange (nbasis w) in
  let n_dn := nocc_dn w in
  if (s =? 0)%Z then
    fold_left
      (fun st occs_up =>
         let st := put_up st occs_up in
         let occs := mk_buffer (row_up (fst st))
                       (assign_slice (row_dn (fst st)) 0
                                     (length (row_dn (fst st))) occs_up) in
         (occs, add_buffer (snd st) occs))
      (occ_up_array w) st
  else
    let pairs := ((Z.of_nat (nocc w) - s) / 2)%Z in
    if (pairs =? Z.of_nat n_dn)%Z then
      fold_left
        (fun st occs_up =>
           let st := put_up st occs_up in
           fold_left (put_dn_and_add 0 n_dn)
                     (Py.combinations occs_up n_dn) st)
        (occ_up_array w) st
    else if (pairs =? 0)%Z then
      fold_left
        (fun st occs_up =>
           let st := put_up st occs_up in
           let virs_up := Py.setdiff1d brange occs_up in
           fold_left (put_dn_and_add 0 n_dn)
                     (Py.combinations virs_up n_dn) st)
        (occ_up_array w) st
    else
      (* [pairs] is positive here for every seniority that passed the
         validation, so it is a legal slice bound and subset size *)
      fold_left
        (fun st occs_up =>
           let st := put_up st occs_up in
           let virs_up := Py.setdiff1d brange occs_up in
           fold_left
             (fun st occs_i_dn =>
                let st :=
                  (mk_buffer (row_up (fst st))
                     (assign_slice (row_dn (fst st)) 0 (Z.to_nat pairs)
                                   occs_i_dn),
                   snd st) in
                fold_left (put_dn_and_add (Z.to_nat pairs) n_dn)
                          (Py.combinations virs_up (n_dn - Z.to_nat pairs))
                          st)
             (Py.combinations occs_up (Z.to_nat pairs)) st)
        (occ_up_array w) st.

Definition add_seniorities (junk : nat -> nat) (w : wavefunction)
  (seniorities : list Z) : wavefunction * outcome :=
  match kind w with
  | fullci_wfn =>
      if existsb (invalid_seniority w) seniorities then
        (w, Raised (ValueError "invalid seniority number specified"))
      else
        let occs := np_empty junk (nocc_up w) in
        (snd (fold_left seniority_request seniorities (occs, w)), Returned)
  | _ => (w, Raised (TypeError "wfn must be a pyci.fullci_wfn"))
  end.

(** The seniority of a stored determinant: the number of spatial orbitals
    occupied in exactly one spin channel. *)
Definition occupies (occs : list nat) (i : nat) : bool :=
  existsb (Nat.eqb i) occs.

Definition singly_occupied (nbasis : nat) (d : det) : nat :=
  length (filter (fun i => xorb (occupies (fst d) i) (occupies (snd d) i))
                 (seq 0 nbasis)).

End Seniority.

(** ** The solver drivers ([solve], [solve_cepa0]) *)

Module Solvers.

(** Double-precision numbers enter the drivers only through a handful of
    operations; the drivers are embedded over any type that has them. *)
Class Float (F : Type) : Type := {
  fzero : F;
  fone : F;
  fadd : F -> F -> F;
  fsub : F -> F -> F;
  fdiv : F -> F -> F
}.

Section Drivers.

Context {F : Type} `{Float F}.

Definition vec : Type := list F.

(** The sparse operator, an external collaborator: its shape, its core
    energy, its elements and its products. *)
Record sparse_op : Type := mk_op {
  shape : nat * nat;
  ecore : F;
  get_element : Z -> Z -> F;
  matvec : vec -> result vec;
  matvec_cepa0 : vec -> Z -> result vec;
  rmatvec_cepa0 : vec -> Z -> result vec;
  rhs_cepa0 : Z -> result vec
}.

(** [scipy.sparse.linalg.LinearOperator]. *)
Record linear_operator : Type := mk_linop {
  lo_matvec : vec -> result vec;
  lo_rmatvec : option (vec -> result vec);
  lo_shape : nat * nat
}.

(** Values passed by keyword. *)
Inductive pyval : Type :=
| PNone
| PInt (z : Z)
| PFloat (x : F)
| PStr (s : string)
| PVec (v : vec).

Definition kwargs : Type := list (string * pyval).

(** A SciPy routine: the names of the parameters its signature declares, and
    what it computes from its positional and keyword arguments. *)
Record scipy_fun (P R : Type) : Type := mk_fun {
  params : list string;
  run : P -> kwargs -> result R
}.

Arguments params {P R} s.
Arguments run {P R} s _ _.

(** A Python call [f(pos, **kw)]: a keyword that the signature does not
    declare raises [TypeError] before the body runs. *)
Definition call {P R : Type} (f : scipy_fun P R) (pos : P) (kw : kwargs)
  : result R :=
  match find (fun a => negb (existsb (String.eqb (fst a)) (params f))) kw with
  | Some (name, _) =>
      Err (TypeError ("got an unexpected keyword argument '" ++ name ++ "'")%string)
  | None => run f pos kw
  end.

(** The signatures of the three routines of [scipy.sparse.linalg] the drivers
    call, as SciPy declares them (for [lgmres], the release the source is
    written against, where [tol] is a parameter). *)
Definition eigsh_params : list string :=
  ["k"; "M"; "sigma"; "which"; "v0"; "ncv"; "maxiter"; "tol";
   "return_eigenvectors"; "Minv"; "OPinv"; "mode"].

Definition lsqr_params : list string :=
  ["damp"; "atol"; "btol"; "conlim"; "iter_lim"; "show"; "calc_var"; "x0"].

Definition lgmres_params : list string :=
  ["x0"; "tol"; "maxiter"; "M"; "callback"; "inner_m"; "outer_k"; "outer_v";
   "store_outer_Av"; "prepend_outer_v"; "atol"].

(** The numerical bodies of the routines are external; only what they are
    given and what they return matters here.  [eigsh] returns eigenvalues and
    a matrix with the eigenvectors as columns; the linear solvers return the
    solution first, then their diagnostics. *)
Record scipy : Type := mk_scipy {
  eigsh_run : linear_operator -> kwargs -> result (vec * list vec);
  lsqr_run : linear_operator * vec -> kwargs -> result (vec * list pyval);
  lgmres_run : linear_operator * vec -> kwargs -> result (vec * list pyval)
}.

Definition eigsh (sp : scipy) : scipy_fun linear_operator (vec * list vec) :=
  mk_fun _ _ eigsh_params (eigsh_run sp).

Definition lsqr (sp : scipy)
  : scipy_fun (linear_operator * vec) (vec * list pyval) :=
  mk_fun _ _ lsqr_params (lsqr_run sp).

Definition lgmres (sp : scipy)
  : scipy_fun (linear_operator * vec) (vec * list pyval) :=
  mk_fun _ _ lgmres_params (lgmres_run sp).

(** The positional arguments [*args] of the drivers. *)
Inductive arg (ham wfn : Type) : Type :=
| AOp (op : sparse_op)
| AHam (h : ham)
| AWfn (w : wfn).

Arguments AOp {ham wfn} op.
Arguments AHam {ham wfn} h.
Arguments AWfn {ham wfn} w.

(** [a[i] = v] with Python indexing. *)
Definition set {A : Type} (l : list A) (i : Z) (v : A) : result (list A) :=
  let n := Z.of_nat (length l) in
  let k := if (i <? 0)%Z then (i + n)%Z else i in
  if ((0 <=? k) && (k <? n))%Z then Ok (Py.set_at l (Z.to_nat k) v)
  else Err IndexError.

Fixpoint map2 (f : F -> F -> F) (a b : vec) : vec :=
  match a, b with
  | x :: a', y :: b' => f x y :: map2 f a' b'
  | _, _ => []
  end.

(** [a op= b] on one-dimensional arrays: [b] has the shape of [a] or is
    broadcast from a single entry. *)
Definition inplace (f : F -> F -> F) (a b : vec) : result vec :=
  if length b =? length a then Ok (map2 f a b)
  else match b with
       | [y] => Ok (map (fun x => f x y) a)
       | _ => Err (ValueError "operands could not be broadcast together")
       end.

(** [m.transpose()] of a matrix given by its rows, [ncol] columns wide. *)
Definition transpose (ncol : nat) (m : list vec) : list vec :=
  map (fun j => map (fun row => nth j row fzero) m) (seq 0 ncol).

Section Inputs.

Context {ham wfn : Type}.
(** [pyci.sparse_op(ham, wfn)], external. *)
Variable make_sparse_op : arg ham wfn -> arg ham wfn -> result sparse_op.
Variable sp : scipy.

(** [# Handle inputs] *)
Definition handle_inputs (args : list (arg ham wfn)) : result sparse_op :=
  match args with
  | [a] => match a with AOp op => Ok op | _ => Err AttributeError end
  | [a; b] => make_sparse_op a b
  | _ => Err (ValueError "must pass `ham, wfn` or `op`")
  end.

Definition solve (args : list (arg ham wfn)) (n : Z) (c0 : option vec)
  (ncv : option Z) (maxiter : Z) (tol : F) : result (vec * list vec) :=
  op <- handle_inputs args ;;
  if snd (shape op) =? 1 then
    Ok ([fadd (get_element op 0 0) (ecore op)], [[fone]])
  else
    c0 <- match c0 with
          | None => set (repeat fzero (snd (shape op))) 0 fone
          | Some c =>
              if length c <=? snd (shape op)
              then Ok (c ++ repeat fzero (snd (shape op) - length c))
              else Err (ValueError "negative dimensions are not allowed")
          end ;;
    r <- call (eigsh sp) (mk_linop (matvec op) None (shape op))
           [("k", PInt n); ("v0", PVec c0);
            ("ncv", match ncv with Some v => PInt v | None => PNone end);
            ("maxiter", PInt maxiter); ("tol", PFloat tol);
            ("which", PStr "SA")] ;;
    let (es, cs) := r in
    Ok (map (fun e => fadd e (ecore op)) es, transpose (length es) cs).

(** The initial guess of [solve_cepa0], after [# Prepare initial guess]. *)
Definition initial_guess (op : sparse_op) (e0 : option F) (c0 : option vec)
  (refind : Z) : result vec :=
  c0 <- match c0 with
        | None => Ok (repeat fzero (snd (shape op)))
        | Some c => d <- Py.get c refind ;; Ok (map (fun x => fdiv x d) c)
        end ;;
  set c0 refind (match e0 with
                 | None => get_element op refind refind
                 | Some e => e
                 end).

Definition cepa0_lhs (op : sparse_op) (refind : Z) : linear_operator :=
  mk_linop (fun x => matvec_cepa0 op x refind)
           (Some (fun x => rmatvec_cepa0 op x refind))
           (shape op).

Definition cepa0_rhs (op : sparse_op) (c0 : vec) (refind : Z) : result vec :=
  rhs <- rhs_cepa0 op refind ;;
  y <- matvec_cepa0 op c0 refind ;;
  inplace fsub rhs y.

(** [# Solve equations] *)
Definition cepa0_solve (lhs : linear_operator) (rhs : vec) (maxiter : Z)
  (tol : F) (lstsq : bool) : result (vec * list pyval) :=
  if lstsq then
    call (lsqr sp) (lhs, rhs)
      [("iter_lime", PInt maxiter); ("btol", PFloat tol); ("atol", PFloat tol)]
  else
    call (lgmres sp) (lhs, rhs)
      [("maxiter", PInt maxiter); ("tol", PFloat tol); ("atol", PFloat tol)].

Definition solve_cepa0 (args : list (arg ham wfn)) (e0 : option F)
  (c0 : option vec) (refind : Z) (maxiter : Z) (tol : F) (lstsq : bool)
  : result (vec * list vec) :=
  op <- handle_inputs args ;;
  c0 <- initial_guess op e0 c0 refind ;;
  let lhs := cepa0_lhs op refind in
  rhs <- cepa0_rhs op c0 refind ;;
  res <- cepa0_solve lhs rhs maxiter tol lstsq ;;
  let c := fst res in
  c <- inplace fadd c c0 ;;
  v <- Py.get c refind ;;
  let e := [fadd v (ecore op)] in
  c <- set c refind fone ;;
  Ok (e, [c]).

End Inputs.

End Drivers.

Arguments vec F : clear implicits.
Arguments sparse_op F : clear implicits.
Arguments linear_operator F : clear implicits.
Arguments pyval F : clear implicits.
Arguments kwargs F : clear implicits.
Arguments scipy F : clear implicits.
Arguments arg F ham wfn : clear implicits.
Arguments AOp {F ham wfn} op.
Arguments AHam {F ham wfn} h.
Arguments AWfn {F ham wfn} w.

(** The rationals have the operations of [Float]; the worked instances run
    the drivers over them. *)
#[export] Instance Float_Q : Float Q :=
  {| fzero := 0%Q; fone := 1%Q; fadd := Qplus; fsub := Qminus; fdiv := Qdiv |}.

End Solvers.

(** ** The excitation dispatcher ([add_excitations]) *)

Module Excitations.

Section Method.

(** The type of reference determinants ([ref]). *)
Variable ref_t : Type.

(** [wfn.add_excited_dets(e, ref=ref)], compiled code outside [routines.py]:
    the wave function after the call, and the exception if the call raised. *)
Variable add_excited_dets :
  wavefunction -> Z -> option ref_t -> wavefunction * option exn.

(** [for e in excitations: wfn.add_excited_dets(e, ref=ref)]. *)
Fixpoint add_excitations (w : wavefunction) (excitations : list Z)
  (ref : option ref_t) : wavefunction * outcome :=
  match excitations with
  | [] => (w, Returned)
  | e :: rest =>
      match add_excited_dets w e ref with
      | (w', None) => add_excitations w' rest ref
      | (w', Some ex) => (w', Raised ex)
      end
  end.

End Method.

End Excitations.

(** ** Vocabulary of the statements *)

Module Spec.

Import Odometer.

Section Arithmetic.

Context {F : Type} {arith : Py.Arith F}.

(** The loop-head states an execution goes through: the initial state and
    every state a pass of the body continues with. *)
Inductive reachable (body : state -> state * ctl) (init : state)
  : state -> Prop :=
| reach_init : reachable body init init
| reach_step (st st' : state) :
    reachable body init st -> body st = (st', Continue) ->
    reachable body init st'.

(** The entries of [l] at positions [lo], ..., [hi - 1] increase strictly. *)
Definition incr_on (l : list nat) (lo hi : nat) : Prop :=
  forall i, lo <= i -> i + 1 < hi -> nth i l 0 < nth (i + 1) l 0.

(** Lexicographic order of occupation vectors: they agree before some
    position, where the first is smaller. *)
Definition lex_lt (a b : list nat) : Prop :=
  exists i, i < length a /\ i < length b /\
            (forall k, k < i -> nth k a 0 = nth k b 0) /\
            nth i a 0 < nth i b 0.

(** [occs'] is [occs] after electron [j] has been excited: one more at [j],
    consecutive orbitals after it up to position [stop], the rest untouched. *)
Definition excited (occs : list nat) (j stop : nat) (occs' : list nat) : Prop :=
  length occs' = length occs /\
  forall i, nth i occs' 0 =
            if i <? j then nth i occs 0
            else if i <? stop then nth j occs 0 + 1 + (i - j)
            else nth i occs 0.

(** The immutable attributes of a wave function. *)
Definition same_system (w w' : wavefunction) : Prop :=
  kind w' = kind w /\ nbasis w' = nbasis w /\
  nocc_up w' = nocc_up w /\ nocc_dn w' = nocc_dn w.

(** An occupation array of [nt] entries whose channels [0, nu) and [nu, nt)
    both increase strictly. *)
Definition shape_ok (nu nt : nat) (occs : list nat) : Prop :=
  length occs = nt /\ incr_on occs 0 nu /\ incr_on occs nu nt.

(** What holds of the loop variables at the head of either odometer loop,
    for a wave function [w] at entry whose occupation arrays have the
    channels [0, nu) and [nu, nt). *)
Record loop_inv (w : wavefunction) (nu nt : nat) (st : state) : Prop := {
  inv_sys : same_system w (wfn st);
  inv_new : shape_ok nu nt (new_occs st);
  inv_old : shape_ok nu nt (old_occs st);
  inv_j_hi : (j_electron st < Z.of_nat nt)%Z;
  inv_j_lo : (0 <= j_electron st)%Z \/ nt = 0;
  inv_order : (accepted st = [] /\ new_occs st = old_occs st) \/
              lex_lt (old_occs st) (new_occs st);
  inv_below : Forall (fun d => d = old_occs st \/ lex_lt d (old_occs st))
                     (accepted st)
}.

(** What holds of the log and of the container at any point: every logged
    array passed the acceptance test [good], the log is in increasing
    lexicographic order, and the container holds nothing but what it held at
    entry and the logged arrays, stored as [det_of] reads them. *)
Record log_inv (w : wavefunction) (good : list nat -> Prop)
  (det_of : list nat -> det) (st : state) : Prop := {
  log_sys : same_system w (wfn st);
  log_good : Forall good (accepted st);
  log_sorted : StronglySorted lex_lt (accepted st);
  log_dets : forall d, In d (dets (wfn st)) ->
             In d (dets w) \/ exists occs, In occs (accepted st) /\ d = det_of occs
}.

(** What holds between the acceptance test and the excitation that follows
    it: [new_occs] is the last accepted array, or the aufbau one. *)
Record mid_inv (w : wavefunction) (nu nt : nat) (st : state) : Prop := {
  mid_sys : same_system w (wfn st);
  mid_new : shape_ok nu nt (new_occs st);
  mid_j_hi : (j_electron st < Z.of_nat nt)%Z;
  mid_below : Forall (fun d => d = new_occs st \/ lex_lt d (new_occs st))
                     (accepted st)
}.

(** Where the reset of the electrons after [j] stops: at the end of the
    channel of [j]. *)
Definition channel_end (nu nt j : nat) : nat := if j <? nu then nu else nt.

(** The acceptance criterion of the one-spin loop, for a threshold [thr]. *)
Definition good_one (nodes : list F) (t thr : F) (nu : nat) (occs : list nat)
  : Prop :=
  shape_ok nu nu occs /\
  exists q, cost nodes t occs = Ok q /\ Py.less q thr = true.

(** The acceptance criterion of the two-spin loop. *)
Definition good_two (nodes : list F) (t thr_up thr_dn : F) (nu nt : nat)
  (occs : list nat) : Prop :=
  shape_ok nu nt occs /\
  exists q_up q_dn,
    cost nodes t (firstn nu occs) = Ok q_up /\
    cost nodes t (skipn nu occs) = Ok q_dn /\
    Py.less q_up thr_up = true /\ Py.less q_dn thr_dn = true.

(** The two variants of the selector. *)
Inductive spin : Type := one_spin | two_spin.

Definition odometer (v : spin) (fuel : nat) (w : wavefunction)
  (nodes : list F) (t p : F) : state * outcome :=
  match v with
  | one_spin => _odometer_one_spin fuel w nodes t p
  | two_spin => _odometer_two_spin fuel w nodes t p
  end.

(** The loop body and the initial state of a variant, for thresholds that
    need not be the ones the entry code computes. *)
Definition body_of (v : spin) (nodes : list F) (t thr_up thr_dn : F)
  : state -> state * ctl :=
  match v with
  | one_spin => one_spin_body nodes t thr_up
  | two_spin => two_spin_body nodes t thr_up thr_dn
  end.

Definition init_of (v : spin) (w : wavefunction) : state :=
  match v with
  | one_spin => one_spin_init w
  | two_spin => two_spin_init w
  end.

Definition out_of_range (v : spin) (st : state) : result bool :=
  match v with
  | one_spin => one_spin_out_of_range st
  | two_spin => two_spin_out_of_range st
  end.

(** The spin channels of an occupation array. *)
Definition channels (v : spin) (w : wavefunction) (occs : list nat)
  : list (list nat) :=
  match v with
  | one_spin => [occs]
  | two_spin => [up_channel w occs; dn_channel w occs]
  end.

(** The channels of a stored determinant, each with the aufbau occupation of
    the channel, from which its threshold is computed. *)
Definition det_channels (v : spin) (w : wavefunction) (d : det)
  : list (list nat * list nat) :=
  match v with
  | one_spin => [(fst d, Py.arange (nocc_up w))]
  | two_spin => [(fst d, up_channel w (two_spin_aufbau w));
                 (snd d, dn_channel w (two_spin_aufbau w))]
  end.

(** The cost [sum(nodes[occs]) + t * max(nodes[occs])] is strictly below the
    threshold [sum(nodes[aufbau][:-1]) * p + (t + 1) * nodes[-1] * p]: both
    are what the operations of the arithmetic yield, and they are compared
    with its [<]. *)
Definition below_threshold (nodes : list F) (t p : F)
  (occs aufbau : list nat) : Prop :=
  exists nodes_s m nodes_a last,
    Py.take nodes occs = Ok nodes_s /\
    Py.np_max nodes_s = Ok m /\
    Py.take nodes aufbau = Ok nodes_a /\
    Py.get nodes (-1) = Ok last /\
    Py.less (Py.add (Py.np_sum nodes_s) (Py.mul t m))
            (Py.add (Py.mul (Py.np_sum (removelast nodes_a)) p)
                    (Py.mul (Py.mul (Py.add t (Py.of_int 1)) last) p))
    = true.

(** The working array has its two rows of [nocc_up] entries, and the wave
    function being filled is still the system [w]. *)
Definition buffer_ok (w : wavefunction)
  (st : Seniority.buffer * wavefunction) : Prop :=
  same_system w (snd st) /\
  length (Seniority.row_up (fst st)) = nocc_up w /\
  length (Seniority.row_dn (fst st)) = nocc_up w.

(** The container holds what [w0] held and determinants that satisfy [P]. *)
Definition only_adds (w0 : wavefunction) (P : det -> Prop)
  (st : Seniority.buffer * wavefunction) : Prop :=
  forall d, In d (dets (snd st)) -> In d (dets w0) \/ P d.

(** The cost of the orbitals of shell [k]: [k - 1.0]. *)
Definition shell_cost (k : nat) : F :=
  Py.sub (Py.of_int (Z.of_nat k)) (Py.of_int 1).

(** One block of the ["cntsp"] table: shell [k] holds [k ^ 2] orbitals of
    cost [k - 1]. *)
Definition shell_block (k : nat) : list F := repeat (shell_cost k) (k ^ 2).

(** The two [ValueError]s of [add_gkci] that concern [node_dim]. *)
Definition about_node_dim (o : outcome) : bool :=
  match o with
  | Raised (ValueError msg) => String.prefix "node_dim must" msg
  | _ => false
  end.

(** An exception that is not about [node_dim]; the odometer loops raise no
    other (an index outside the node table, the maximum of an empty channel,
    the reshape of an odd-sized array). *)
Definition loop_exn (e : exn) : Prop :=
  about_node_dim (Raised e) = false.

(** The number of entries of the occupation arrays of a variant. *)
Definition electrons (v : spin) (w : wavefunction) : nat :=
  match v with
  | one_spin => nocc_up w
  | two_spin => nocc w
  end.

(** The occupation array read as a number in base [B]. *)
Fixpoint rank (B : nat) (l : list nat) : nat :=
  match l with
  | [] => 0
  | x :: r => x * B ^ length r + rank B r
  end.

(** No orbital index of an accepted or aufbau occupation reaches this. *)
Definition index_bound (v : spin) (w : wavefunction) : nat :=
  Nat.max (nbasis w) (electrons v w).

(** A quantity that every continuing pass of an odometer loop decreases:
    how far the last accepted occupation is from the top in lexicographic
    order, then the position of the cursor; the very first pass, where
    [new_occs] and [old_occs] coincide, is counted apart. *)
Definition measure (B nt : nat) (st : state) : nat :=
  (B ^ nt - rank B (old_occs st)) * (nt + 1)
  + Z.to_nat (j_electron st + 1)
  + (if list_eq_dec Nat.eq_dec (new_occs st) (old_occs st) then nt + 1 else 0).

(** A determinant equal to [d] as a pair of orbital sets is stored in [w]. *)
Definition stored (w : wavefunction) (d : det) : Prop :=
  exists d', In d' (dets w) /\ same_det d' d = true.

(** The position a Python index denotes in an array of [n] entries. *)
Definition position (n : nat) (i : Z) : Z :=
  if (i <? 0)%Z then (i + Z.of_nat n)%Z else i.

(** Whether an exception is a [ValueError]. *)
Definition is_ValueError (e : exn) : bool :=
  match e with ValueError _ => true | _ => false end.

(** The working array holds [up] in its first row and [pre] at the head of
    its second row. *)
Definition buffer_at (w : wavefunction) (up pre : list nat) (lo : nat)
  (st : Seniority.buffer * wavefunction) : Prop :=
  buffer_ok w st /\
  Seniority.row_up (fst st) = up /\
  firstn lo (Seniority.row_dn (fst st)) = pre.

(** The entry at position [i] of an array [b] combined with an array of [n]
    entries under NumPy's broadcasting: its own entry [i] when it has [n]
    entries, its only entry when it has one. *)
Definition broadcast_entry {A : Type} (n : nat) (b : list A) (i : nat)
  : option A :=
  if length b =? n then nth_error b i
  else match b with
       | [y] => Some y
       | _ => None
       end.

End Arithmetic.

End Spec.

(** ** Small systems used as worked instances *)

Module Examples.

Import Odometer Solvers.

(** Two electrons in four orbitals, one spin channel, nothing stored yet. *)
Definition wfn_one : wavefunction := mk_wfn genci_wfn 4 2 0 [].

(** Two spin-up and two spin-down electrons in four orbitals. *)
Definition wfn_two : wavefunction := mk_wfn fullci_wfn 4 2 2 [].

(** Two spin-up electrons and one spin-down electron in five orbitals. *)
Definition wfn_odd : wavefunction := mk_wfn fullci_wfn 5 2 1 [].

(** A non-decreasing node table for four orbitals. *)
Definition nodes_four : list Q := [0; 0; 0; 1]%Q.

(** The same table in double precision. *)
Definition nodes_four_float : list float := [0; 0; 0; 1]%float.

(** Two electrons in three orbitals, one spin channel, and two tables of
    double-precision costs for them, both non-decreasing. *)
Definition wfn_three : wavefunction := mk_wfn genci_wfn 3 2 0 [].

Definition nodes_three : list float := [0.1; 0.4; 1]%float.

Definition nodes_tie : list float := [0.1; 0.1; 0.4]%float.

(** The one-spin loop state after the first pass over [wfn_one] with
    [nodes_four], [t = 0] and threshold 2: the aufbau determinant has been
    accepted and the last electron excited. *)
Definition state_after_one_pass : state :=
  mk_state (mk_wfn genci_wfn 4 2 0 [([0; 1], [])]) [0; 2] [0; 1] 1 [[0; 1]].

(** A two-by-two operator whose CEPA0 products are the identity, and a
    one-by-one operator. *)
Definition op_two : sparse_op Q :=
  mk_op (2, 2) 1%Q (fun _ _ => 2%Q) (fun x => Ok x) (fun x _ => Ok x)
        (fun x _ => Ok x) (fun _ => Ok [3; 5]%Q).

Definition op_one : sparse_op Q :=
  mk_op (1, 1) 1%Q (fun _ _ => 2%Q) (fun x => Ok x) (fun x _ => Ok x)
        (fun x _ => Ok x) (fun _ => Ok [3]%Q).

(** Stand-ins for the SciPy routines: the linear solvers hand back the
    right-hand side, the eigensolver is not available. *)
Definition scipy_stub : scipy Q :=
  mk_scipy (fun _ _ => Err NotImplementedError)
           (fun a _ => Ok (snd a, []))
           (fun a _ => Ok (snd a, [])).

Definition no_sparse_op (a b : arg Q unit unit) : result (sparse_op Q) :=
  Err AttributeError.

(** A method for [add_excitations]: level [e >= 0] stores the determinant
    [([e], [])], a negative level raises. *)
Definition excite_stub (w : wavefunction) (e : Z) (ref : option unit)
  : wavefunction * option exn :=
  if (e <? 0)%Z then (w, Some (ValueError "invalid excitation order e"))
  else (insert_det w ([Z.to_nat e], []), None).

(** The same linear solvers reporting a failure to converge. *)
Definition scipy_unconverged : scipy Q :=
  mk_scipy (fun _ _ => Err NotImplementedError)
           (fun a _ => Ok (snd a, [PInt 1]))
           (fun a _ => Ok (snd a, [PInt 1])).

(** An eigensolver that finds the eigenvalue 3 with the first unit vector of
    a two-dimensional space. *)
Definition scipy_eig : scipy Q :=
  mk_scipy (fun _ _ => Ok ([3%Q], [[1%Q]; [0%Q]]))
           (fun a _ => Ok (snd a, []))
           (fun a _ => Ok (snd a, [])).

End Examples.

(** * Properties *)

(** Case analysis on every comparison of naturals in the goal, then linear
    arithmetic. *)
Ltac case_nat :=
  repeat match goal with
    | |- context [?a <=? ?b] => destruct (Nat.leb_spec a b)
    | |- context [?a <? ?b] => destruct (Nat.ltb_spec a b)
    | |- context [?a =? ?b] => destruct (Nat.eqb_spec a b)
    end;
  cbn [andb orb negb]; subst; try reflexivity; try lia.

Lemma bind_Ok {X Y : Type} (r : result X) (k : X -> result Y) (y : Y) :
  bind r k = Ok y -> exists x, r = Ok x /\ k x = Ok y.
Proof.
  destruct r as [x|e]; simpl; [eauto | discriminate].
Qed.

(** ** Facts about the Python primitives *)

Section PyFacts.

Context {A : Type}.

Lemma get_Ok_nth (l : list A) (i : Z) (a : A) :
  Py.get l i = Ok a ->
  exists k, k < length l /\ nth_error l k = Some a /\
            Z.of_nat k = (if (i <? 0)%Z then i + Z.of_nat (length l) else i)%Z.
Proof.
  unfold Py.get. intros Hg.
  set (k := (if (i <? 0)%Z then (i + Z.of_nat (length l))%Z else i)) in *.
  destruct ((0 <=? k)%Z && (k <? Z.of_nat (length l))%Z) eqn:Hb; [|discriminate].
  apply andb_true_iff in Hb as [H0 H1].
  apply Z.leb_le in H0. apply Z.ltb_lt in H1.
  destruct (nth_error l (Z.to_nat k)) eqn:Hn; [|discriminate].
  inversion Hg; subst. exists (Z.to_nat k). repeat split; auto; lia.
Qed.

Lemma length_set_at (l : list A) (k : nat) (v : A) :
  length (Py.set_at l k v) = length l.
Proof.
  revert k. induction l as [|a l IH]; intros [|k]; simpl; auto.
Qed.

Lemma nth_error_set_at_eq (l : list A) (k : nat) (v : A) :
  k < length l -> nth_error (Py.set_at l k v) k = Some v.
Proof.
  revert k. induction l as [|a l IH]; intros [|k] Hk; simpl in *; try lia; auto.
  apply IH. lia.
Qed.

Lemma nth_error_set_at_neq (l : list A) (k i : nat) (v : A) :
  i <> k -> nth_error (Py.set_at l k v) i = nth_error l i.
Proof.
  revert k i. induction l as [|a l IH]; intros [|k] [|i] Hk; simpl; auto; try lia.
Qed.

Lemma get_set (l l' : list A) (i : Z) (v : A) :
  Solvers.set l i v = Ok l' -> Py.get l' i = Ok v.
Proof.
  unfold Solvers.set, Py.get.
  set (k := (if (i <? 0)%Z then (i + Z.of_nat (length l))%Z else i)).
  destruct ((0 <=? k)%Z && (k <? Z.of_nat (length l))%Z) eqn:Hb; [|discriminate].
  intros Hs. inversion Hs; subst l'. rewrite length_set_at. fold k. rewrite Hb.
  apply andb_true_iff in Hb as [H0 H1].
  apply Z.leb_le in H0. apply Z.ltb_lt in H1.
  rewrite nth_error_set_at_eq by lia. reflexivity.
Qed.

End PyFacts.

(** ** The solver drivers *)

Section SolverFacts.

Import Solvers.

Context {F : Type} `{Float F} {ham wfn : Type}.
Variable make_sparse_op : arg F ham wfn -> arg F ham wfn -> result (sparse_op F).
Variable sp : scipy F.

(** The least-squares branch passes the keyword [iter_lime], which [lsqr]
    does not declare: the call is refused whatever the numerical routine
    would compute. *)
Lemma cepa0_solve_lstsq (lhs : linear_operator F) (rhs : vec F) (maxiter : Z)
  (tol : F) :
  cepa0_solve sp lhs rhs maxiter tol true =
  Err (TypeError "got an unexpected keyword argument 'iter_lime'").
Proof. reflexivity. Qed.

(** The other branch reaches [lgmres] with the caller's controls. *)
Lemma cepa0_solve_lgmres (lhs : linear_operator F) (rhs : vec F) (maxiter : Z)
  (tol : F) :
  cepa0_solve sp lhs rhs maxiter tol false =
  lgmres_run sp (lhs, rhs)
    [("maxiter", PInt maxiter); ("tol", PFloat tol); ("atol", PFloat tol)].
Proof. reflexivity. Qed.

(** Once the set-up has succeeded, the exception of the least-squares branch
    is the [TypeError] of the misspelt keyword. *)
Lemma solve_cepa0_lstsq_TypeError (args : list (arg F ham wfn))
  (e0 : option F) (c0 : option (vec F)) (refind maxiter : Z) (tol : F)
  (op : sparse_op F) (g rhs : vec F) :
  handle_inputs make_sparse_op args = Ok op ->
  initial_guess op e0 c0 refind = Ok g ->
  cepa0_rhs op g refind = Ok rhs ->
  solve_cepa0 make_sparse_op sp args e0 c0 refind maxiter tol true
  = Err (TypeError "got an unexpected keyword argument 'iter_lime'").
Proof.
  intros Hop Hg Hrhs. unfold solve_cepa0.
  rewrite Hop; simpl. rewrite Hg; simpl. rewrite Hrhs; simpl. reflexivity.
Qed.

(** C2 (the code departs from it): with [lstsq=True] the driver never returns
    the least-squares solution: whatever the operator, the guesses and the
    controls, and whatever [lsqr] would compute, the call ends in an
    exception. *)
Theorem solve_cepa0_lstsq_raises (args : list (arg F ham wfn)) (e0 : option F)
  (c0 : option (vec F)) (refind maxiter : Z) (tol : F) :
  exists e, solve_cepa0 make_sparse_op sp args e0 c0 refind maxiter tol true
            = Err e.
Proof.
  unfold solve_cepa0.
  destruct (handle_inputs make_sparse_op args) as [op|e]; simpl; [|eauto].
  destruct (initial_guess op e0 c0 refind) as [g|e]; simpl; [|eauto].
  destruct (cepa0_rhs op g refind) as [rhs|e]; simpl; eauto.
Qed.

(** C6: on an operator with a single column [solve] returns the one
    eigenvalue [get_element(0, 0) + ecore] and the coefficient matrix
    [[1.0]], for every [n], [c0], [ncv], [maxiter] and [tol], and whatever
    the Krylov eigensolver [sp] would do: it is not consulted. *)
Theorem solve_length_one (args : list (arg F ham wfn)) (op : sparse_op F)
  (n : Z) (c0 : option (vec F)) (ncv : option Z) (maxiter : Z) (tol : F) :
  handle_inputs make_sparse_op args = Ok op ->
  snd (shape op) = 1 ->
  solve make_sparse_op sp args n c0 ncv maxiter tol
  = Ok ([fadd (get_element op 0 0) (ecore op)], [[fone]]).
Proof.
  intros Hop Hdim. unfold solve. rewrite Hop; simpl. rewrite Hdim. reflexivity.
Qed.

End SolverFacts.

(** ** Array updates of the odometer *)

Section ArrayFacts.

Import Odometer Spec.

Lemma nth_set_at (l : list nat) (k i v : nat) :
  nth i (Py.set_at l k v) 0 =
  if (i =? k) && (k <? length l) then v else nth i l 0.
Proof.
  revert k i. induction l as [|a l IH]; intros k i; simpl.
  - rewrite andb_false_r. destruct k; reflexivity.
  - destruct k as [|k], i as [|i]; simpl; auto.
Qed.

Lemma reset_loop_spec (j : nat) (n a : nat) (l : list nat) :
  j < a -> a + n <= length l ->
  let l' := fold_left (fun o k => Py.set_at o k (nth j o 0 + k - j))
                      (seq a n) l in
  length l' = length l /\
  forall i, nth i l' 0 =
            if (a <=? i) && (i <? a + n) then nth j l 0 + i - j
            else nth i l 0.
Proof.
  revert a l. induction n as [|n IH]; intros a l Hj Hlen; cbn [fold_left seq].
  - split; [reflexivity|]. intros i. case_nat.
  - set (l1 := Py.set_at l a (nth j l 0 + a - j)).
    assert (Hl1 : length l1 = length l) by apply length_set_at.
    destruct (IH (S a) l1) as [HL HN]; [lia | lia |].
    split; [congruence|].
    intros i. rewrite HN. unfold l1. rewrite !nth_set_at. case_nat.
Qed.

(** [occs[j] += 1] followed by the reset loop up to [stop] excites [j]. *)
Lemma increment_reset_excited (occs : list nat) (j stop : nat) :
  j < stop -> stop <= length occs ->
  excited occs j stop (reset_later (increment occs j) j stop).
Proof.
  intros Hj Hstop. unfold reset_later, increment.
  set (l1 := Py.set_at occs j (nth j occs 0 + 1)).
  assert (Hl1 : length l1 = length occs) by apply length_set_at.
  destruct (reset_loop_spec j (stop - (j + 1)) (j + 1) l1) as [HL HN];
    [lia | lia |].
  split; [congruence|].
  intros i. rewrite HN. unfold l1. rewrite !nth_set_at. case_nat.
Qed.

(** Without the reset loop only position [j] changes. *)
Lemma increment_excited (occs : list nat) (j : nat) :
  j < length occs -> excited occs j (j + 1) (increment occs j).
Proof.
  intros Hj. unfold increment. split; [apply length_set_at|].
  intros i. rewrite nth_set_at. case_nat.
Qed.

Lemma excited_incr (occs occs' : list nat) (j stop lo hi : nat) :
  excited occs j stop occs' ->
  lo <= j -> j < stop -> stop <= hi ->
  (* the channel of [j] is [lo, hi) and the reset covers its tail, or stops
     right after [j] when [j] is the last position of the channel *)
  (stop = hi) ->
  incr_on occs lo hi -> incr_on occs' lo hi.
Proof.
  intros [_ HN] Hlo Hj Hhi Hstop Hinc i Hi1 Hi2.
  rewrite !HN. specialize (Hinc i Hi1 Hi2). case_nat.
  assert (i + 1 = j) by lia. subst j. lia.
Qed.

Lemma excited_other_channel (occs occs' : list nat) (j stop lo hi : nat) :
  excited occs j stop occs' ->
  (hi <= j \/ stop <= lo) ->
  incr_on occs lo hi -> incr_on occs' lo hi.
Proof.
  intros [_ HN] Hdisj Hinc i Hi1 Hi2.
  rewrite !HN. specialize (Hinc i Hi1 Hi2). case_nat.
Qed.

Lemma excited_lex_lt (occs occs' : list nat) (j stop : nat) :
  excited occs j stop occs' -> j < stop -> j < length occs ->
  lex_lt occs occs'.
Proof.
  intros [HL HN] Hj Hlen. exists j. repeat split; try lia.
  - intros k Hk. rewrite HN.
    assert (E : (k <? j) = true) by (apply Nat.ltb_lt; lia). now rewrite E.
  - rewrite HN. rewrite Nat.ltb_irrefl.
    assert (E : (j <? stop) = true) by (apply Nat.ltb_lt; lia). rewrite E. lia.
Qed.

Lemma lex_lt_trans (a b c : list nat) :
  lex_lt a b -> lex_lt b c -> lex_lt a c.
Proof.
  intros (i & Ha & Hb & Hab & Hi) (k & Hb' & Hc & Hbc & Hk).
  destruct (Nat.lt_trichotomy i k) as [Hlt | [Heq | Hgt]].
  - exists i. repeat split; try lia.
    + intros m Hm. rewrite Hab by lia. apply Hbc. lia.
    + rewrite <- Hbc by lia. exact Hi.
  - subst k. exists i. repeat split; try lia.
    intros m Hm. rewrite Hab by lia. apply Hbc. lia.
  - exists k. repeat split; try lia.
    + intros m Hm. rewrite Hab by lia. apply Hbc. lia.
    + rewrite Hab by lia. exact Hk.
Qed.

Lemma lex_lt_irrefl (a : list nat) : ~ lex_lt a a.
Proof. intros (i & _ & _ & _ & Hi). lia. Qed.

End ArrayFacts.

(** ** Invariants of the odometer loops *)

Section OdometerFacts.

Context {F : Type} {arith : Py.Arith F}.

Import Odometer Spec.

Lemma same_system_refl (w : wavefunction) : same_system w w.
Proof. repeat split. Qed.

Lemma same_system_insert (w w' : wavefunction) (d : det) :
  same_system w w' -> same_system w (insert_det w' d).
Proof.
  unfold insert_det. destruct (existsb (same_det d) (dets w')); auto.
Qed.

Lemma In_insert_det (w : wavefunction) (d d' : det) :
  In d' (dets (insert_det w d)) -> In d' (dets w) \/ d' = d.
Proof.
  unfold insert_det. destruct (existsb (same_det d) (dets w)); simpl; auto.
  intros Hin. apply in_app_or in Hin as [Hin | [Heq | []]]; auto.
Qed.

Lemma StronglySorted_snoc {A : Type} (R : A -> A -> Prop) (l : list A) (x : A) :
  StronglySorted R l -> Forall (fun d => R d x) l ->
  StronglySorted R (l ++ [x]).
Proof.
  induction 1 as [|a l Hs IH Ha]; intros Hall; simpl.
  - repeat constructor.
  - inversion Hall; subst. constructor; [auto|].
    apply Forall_app. split; [assumption | repeat constructor; assumption].
Qed.

(** The generic loop rule: an invariant [I] of the loop head, kept by every
    pass that continues, and a property [P] that every pass establishes. *)
Lemma loop_rule (body : state -> state * ctl) (I P : state -> Prop) :
  (forall st, I st -> P st) ->
  (forall st st' c, I st -> body st = (st', c) ->
                    P st' /\ (c = Continue -> I st')) ->
  forall fuel st, I st -> P (fst (loop body fuel st)).
Proof.
  intros HIP Hbody. induction fuel as [|fuel IH]; intros st HI; simpl.
  - auto.
  - destruct (body st) as [st' c] eqn:Hb.
    destruct (Hbody _ _ _ HI Hb) as [HP HC].
    destruct c; simpl; auto.
Qed.

Lemma reachable_rule (body : state -> state * ctl) (I : state -> Prop)
  (init : state) :
  I init ->
  (forall st st', I st -> body st = (st', Continue) -> I st') ->
  forall st, reachable body init st -> I st.
Proof.
  intros Hinit Hstep st Hr. induction Hr; eauto.
Qed.

Lemma shape_ok_excited (nu nt j : nat) (occs occs' : list nat) :
  nu <= nt -> j < nt ->
  shape_ok nu nt occs ->
  excited occs j (channel_end nu nt j) occs' ->
  shape_ok nu nt occs'.
Proof.
  intros Hnu Hj (Hlen & Hup & Hdn) Hex. unfold channel_end in Hex.
  destruct (Nat.ltb_spec j nu) as [Hlt | Hge].
  - split; [destruct Hex; congruence|]. split.
    + eapply excited_incr; eauto; lia.
    + eapply excited_other_channel; eauto.
  - split; [destruct Hex; congruence|]. split.
    + eapply excited_other_channel; eauto.
    + eapply excited_incr; eauto; lia.
Qed.

(** From the middle of the body to the next loop head. *)
Lemma excite_rule (w : wavefunction) (nu nt : nat) (st : state)
  (new2 : list nat) :
  nu <= nt ->
  mid_inv w nu nt st ->
  (0 <= j_electron st)%Z ->
  excited (new_occs st) (Z.to_nat (j_electron st))
          (channel_end nu nt (Z.to_nat (j_electron st))) new2 ->
  loop_inv w nu nt
    (mk_state (wfn st) new2 (new_occs st) (j_electron st) (accepted st)).
Proof.
  intros Hnu [Hsys Hnew Hj Hbelow] Hj0 Hex.
  assert (Hjn : Z.to_nat (j_electron st) < nt) by lia.
  constructor; simpl; auto.
  - eapply shape_ok_excited; eauto.
  - right. eapply excited_lex_lt; eauto.
    + unfold channel_end. case_nat.
    + destruct Hnew as [Hlen _]. lia.
Qed.

Lemma reject_rule (w : wavefunction) (nu nt : nat) (st : state) :
  loop_inv w nu nt st -> mid_inv w nu nt (reject st).
Proof.
  intros [Hsys Hnew Hold Hj Hj0 Hord Hbelow].
  constructor; simpl; auto. lia.
Qed.

Lemma accepted_below_new (w : wavefunction) (nu nt : nat) (st : state) :
  loop_inv w nu nt st ->
  Forall (fun d => lex_lt d (new_occs st)) (accepted st).
Proof.
  intros [Hsys Hnew Hold Hj Hj0 Hord Hbelow].
  destruct Hord as [[Hnil _] | Hlt].
  - rewrite Hnil. constructor.
  - eapply Forall_impl; [|exact Hbelow]. simpl.
    intros d [-> | Hd]; [assumption | eapply lex_lt_trans; eassumption].
Qed.

Lemma accept_rule (w w' : wavefunction) (nu nt : nat) (st : state) :
  loop_inv w nu nt st -> same_system w w' -> 0 < nt ->
  mid_inv w nu nt
    (mk_state w' (new_occs st) (old_occs st) (Z.of_nat nt - 1)
              (accepted st ++ [new_occs st])).
Proof.
  intros Hinv Hsys Hnt. pose proof (accepted_below_new _ _ _ _ Hinv) as Hb.
  destruct Hinv as [_ Hnew Hold Hj Hj0 Hord Hbelow].
  constructor; simpl; auto; [lia|].
  apply Forall_app. split.
  - eapply Forall_impl; [|exact Hb]. simpl. auto.
  - repeat constructor.
Qed.

Lemma accept_log (w w' : wavefunction) (nu nt : nat)
  (good : list nat -> Prop) (det_of : list nat -> det) (st : state) :
  loop_inv w nu nt st -> log_inv w good det_of st ->
  good (new_occs st) ->
  w' = insert_det (wfn st) (det_of (new_occs st)) ->
  forall new old j,
  log_inv w good det_of
    (mk_state w' new old j (accepted st ++ [new_occs st])).
Proof.
  intros Hinv [Hsys Hgood Hsorted Hdets] Hg -> new old j.
  constructor; simpl.
  - apply same_system_insert; assumption.
  - apply Forall_app. split; [assumption | repeat constructor; assumption].
  - apply StronglySorted_snoc; [assumption|].
    eapply accepted_below_new; eassumption.
  - intros d Hin. apply In_insert_det in Hin as [Hin | ->].
    + destruct (Hdets d Hin) as [H0 | (occs & Ho & ->)]; [auto|].
      right. exists occs. split; [apply in_or_app; auto | reflexivity].
    + right. exists (new_occs st). split; [|reflexivity].
      apply in_or_app. right. left. reflexivity.
Qed.

Lemma log_inv_same (w : wavefunction) (good : list nat -> Prop)
  (det_of : list nat -> det) (st st' : state) :
  log_inv w good det_of st ->
  wfn st' = wfn st -> accepted st' = accepted st ->
  log_inv w good det_of st'.
Proof.
  intros [Hsys Hgood Hsorted Hdets] Hw Ha.
  constructor; rewrite ?Hw, ?Ha; assumption.
Qed.

(** *** The one-spin loop *)

Lemma one_spin_test_Ok (nodes : list F) (t thr : F) (st st1 : state) :
  one_spin_test nodes t thr st = Ok st1 ->
  0 < length (new_occs st) /\
  (st1 = reject st \/
   exists q, one_spin_out_of_range st = Ok false /\
             cost nodes t (new_occs st) = Ok q /\ Py.less q thr = true /\
             st1 = mk_state (add_occs_one (wfn st) (new_occs st))
                            (new_occs st) (old_occs st)
                            (Z.of_nat (nocc_up (wfn st)) - 1)
                            (accepted st ++ [new_occs st])).
Proof.
  unfold one_spin_test. intros Ht.
  apply bind_Ok in Ht as (out & Hout & Ht).
  split.
  { unfold one_spin_out_of_range in Hout.
    apply bind_Ok in Hout as (last & Hlast & _).
    apply get_Ok_nth in Hlast as (k & Hk & _). lia. }
  destruct out; [inversion Ht; auto|].
  apply bind_Ok in Ht as (q & Hq & Ht).
  destruct (Py.less q thr) eqn:Hlt; [|inversion Ht; auto].
  right. exists q. inversion Ht. auto.
Qed.

Lemma one_spin_excite_excited (st : state) :
  length (new_occs st) = nocc_up (wfn st) ->
  (0 <= j_electron st < Z.of_nat (nocc_up (wfn st)))%Z ->
  excited (new_occs st) (Z.to_nat (j_electron st)) (nocc_up (wfn st))
          (new_occs (one_spin_excite st)).
Proof.
  intros Hlen Hj. unfold one_spin_excite. cbn [new_occs].
  destruct (Z.eqb_spec (j_electron st) (Z.of_nat (nocc_up (wfn st)) - 1))
    as [Heq | Hne].
  - replace (nocc_up (wfn st)) with (Z.to_nat (j_electron st) + 1) at 1 by lia.
    apply increment_excited. lia.
  - apply increment_reset_excited; lia.
Qed.

Lemma one_spin_init_inv (w : wavefunction) :
  loop_inv w (nocc_up w) (nocc_up w) (one_spin_init w).
Proof.
  assert (Hshape : shape_ok (nocc_up w) (nocc_up w) (Py.arange (nocc_up w))).
  { unfold Py.arange. split; [apply length_seq|]. split; intros i Hi1 Hi2.
    - rewrite !seq_nth by lia. lia.
    - lia. }
  constructor; simpl; auto using same_system_refl; lia.
Qed.

Lemma log_inv_init (w : wavefunction) (good : list nat -> Prop)
  (det_of : list nat -> det) (st : state) :
  wfn st = w -> accepted st = [] -> log_inv w good det_of st.
Proof.
  intros Hw Ha. constructor; rewrite ?Hw, ?Ha; auto using same_system_refl.
  constructor.
Qed.

Lemma one_spin_body_inv (w : wavefunction) (nodes : list F) (t thr : F)
  (st st' : state) (c : ctl) :
  let nu := nocc_up w in
  let good := good_one nodes t thr nu in
  let det_of := fun occs : list nat => (occs, @nil nat) in
  loop_inv w nu nu st /\ log_inv w good det_of st ->
  one_spin_body nodes t thr st = (st', c) ->
  log_inv w good det_of st' /\
  (c = Continue -> loop_inv w nu nu st' /\ log_inv w good det_of st').
Proof.
  intros nu good det_of [Hinv Hlog] Hbody. unfold one_spin_body in Hbody.
  destruct (one_spin_test nodes t thr st) as [st1|e] eqn:Htest.
  2:{ inversion Hbody; subst. split; [assumption | discriminate]. }
  apply one_spin_test_Ok in Htest as [Hpos Hcases].
  assert (Hnu : nocc_up (wfn st) = nu) by (destruct Hinv as [(_&_&E&_)]; exact E).
  assert (Hlen : length (new_occs st) = nu) by (destruct Hinv as [_ (E&_)]; exact E).
  assert (Hmid : mid_inv w nu nu st1 /\ log_inv w good det_of st1).
  { destruct Hcases as [-> | (q & _ & Hq & Hlt & ->)].
    - split; [apply reject_rule; assumption|].
      eapply log_inv_same; eauto.
    - rewrite Hnu. split.
      + apply accept_rule; [assumption | | lia].
        apply same_system_insert. destruct Hinv; assumption.
      + eapply accept_log; eauto.
        split; [destruct Hinv; assumption|]. eauto. }
  destruct Hmid as [Hmid Hlog1].
  destruct (Z.ltb_spec (j_electron st1) 0) as [Hneg | Hnn];
    inversion Hbody; subst st' c.
  - split; [assumption | discriminate].
  - assert (Hlog2 : log_inv w good det_of (one_spin_excite st1))
      by (eapply log_inv_same; eauto).
    split; [assumption|]. intros _. split; [|assumption].
    assert (Hnu1 : nocc_up (wfn st1) = nu)
      by (destruct Hmid as [(_&_&E&_)]; exact E).
    pose proof (one_spin_excite_excited st1) as Hex.
    rewrite Hnu1 in Hex.
    unfold one_spin_excite in *. cbn [new_occs] in Hex.
    apply excite_rule; auto.
    unfold channel_end.
    assert (E : (Z.to_nat (j_electron st1) <? nu) = true).
    { apply Nat.ltb_lt. destruct Hmid. lia. }
    rewrite E. apply Hex.
    + destruct Hmid as [_ (E1&_)]. exact E1.
    + destruct Hmid. lia.
Qed.

(** *** The two-spin loop *)

Lemma two_spin_test_Ok (nodes : list F) (t thr_up thr_dn : F)
  (st st1 : state) :
  two_spin_test nodes t thr_up thr_dn st = Ok st1 ->
  0 < length (new_occs st) /\
  (st1 = reject st \/
   exists q_up q_dn,
     two_spin_out_of_range st = Ok false /\
     cost nodes t (up_channel (wfn st) (new_occs st)) = Ok q_up /\
     cost nodes t (dn_channel (wfn st) (new_occs st)) = Ok q_dn /\
     Py.less q_up thr_up = true /\ Py.less q_dn thr_dn = true /\
     st1 = mk_state (add_occs_two (wfn st) (new_occs st))
                    (new_occs st) (old_occs st)
                    (Z.of_nat (nocc (wfn st)) - 1)
                    (accepted st ++ [new_occs st])).
Proof.
  unfold two_spin_test. intros Ht.
  apply bind_Ok in Ht as (out & Hout & Ht).
  split.
  { unfold two_spin_out_of_range in Hout.
    apply bind_Ok in Hout as (last_up & Hup & _).
    apply get_Ok_nth in Hup as (k & Hk & _). lia. }
  destruct out; [inversion Ht; auto|].
  apply bind_Ok in Ht as (q_up & Hqu & Ht).
  apply bind_Ok in Ht as (q_dn & Hqd & Ht).
  destruct (Py.less q_up thr_up) eqn:Hlu; [|inversion Ht; auto].
  destruct (Py.less q_dn thr_dn) eqn:Hld; [|inversion Ht; auto].
  cbn [andb] in Ht.
  destruct (Nat.even (length (new_occs st))); [|discriminate].
  right. exists q_up, q_dn. inversion Ht.
  repeat split; auto.
Qed.

Lemma two_spin_excite_excited (st : state) :
  length (new_occs st) = nocc (wfn st) ->
  (0 <= j_electron st < Z.of_nat (nocc (wfn st)))%Z ->
  excited (new_occs st) (Z.to_nat (j_electron st))
          (channel_end (nocc_up (wfn st)) (nocc (wfn st))
                       (Z.to_nat (j_electron st)))
          (new_occs (two_spin_excite st)).
Proof.
  intros Hlen Hj. unfold two_spin_excite, channel_end. cbn [new_occs].
  assert (Hle : nocc_up (wfn st) <= nocc (wfn st)) by (unfold nocc; lia).
  destruct (Z.ltb_spec (j_electron st) (Z.of_nat (nocc_up (wfn st))))
    as [Hup | Hdn].
  - assert (E : (Z.to_nat (j_electron st) <? nocc_up (wfn st)) = true)
      by (apply Nat.ltb_lt; lia).
    rewrite E. apply increment_reset_excited; lia.
  - assert (E : (Z.to_nat (j_electron st) <? nocc_up (wfn st)) = false)
      by (apply Nat.ltb_ge; lia).
    rewrite E.
    destruct (Z.ltb_spec (j_electron st) (Z.of_nat (nocc (wfn st)) - 1))
      as [Hmid | Hlast].
    + apply increment_reset_excited; lia.
    + replace (nocc (wfn st)) with (Z.to_nat (j_electron st) + 1) at 1 by lia.
      apply increment_excited. lia.
Qed.

Lemma map_sub_seq (a b n : nat) :
  map (fun x => x - a) (seq (a + b) n) = seq b n.
Proof.
  revert b. induction n as [|n IH]; intros b; simpl; [reflexivity|].
  f_equal; [lia|]. replace (S (a + b)) with (a + S b) by lia. apply IH.
Qed.

Lemma two_spin_aufbau_eq (w : wavefunction) :
  two_spin_aufbau w = seq 0 (nocc_up w) ++ seq 0 (nocc_dn w).
Proof.
  unfold two_spin_aufbau, Py.arange, nocc.
  rewrite seq_app. simpl.
  rewrite firstn_app, skipn_app, length_seq, Nat.sub_diag. simpl.
  rewrite firstn_all2 by (rewrite length_seq; lia).
  rewrite skipn_all2 by (rewrite length_seq; lia).
  rewrite app_nil_r. simpl. f_equal.
  pose proof (map_sub_seq (nocc_up w) 0 (nocc_dn w)) as E.
  rewrite Nat.add_0_r in E. exact E.
Qed.

Lemma two_spin_init_inv (w : wavefunction) :
  loop_inv w (nocc_up w) (nocc w) (two_spin_init w).
Proof.
  assert (Hshape : shape_ok (nocc_up w) (nocc w) (two_spin_aufbau w)).
  { rewrite two_spin_aufbau_eq. unfold nocc.
    split; [rewrite length_app, !length_seq; reflexivity|].
    split; intros i Hi1 Hi2.
    - rewrite !app_nth1 by (rewrite length_seq; lia).
      rewrite !seq_nth by lia. lia.
    - rewrite !app_nth2 by (rewrite length_seq; lia).
      rewrite length_seq. rewrite !seq_nth by lia. lia. }
  constructor; simpl; auto using same_system_refl; unfold nocc; lia.
Qed.

Lemma two_spin_body_inv (w : wavefunction) (nodes : list F)
  (t thr_up thr_dn : F) (st st' : state) (c : ctl) :
  let nu := nocc_up w in
  let nt := nocc w in
  let good := good_two nodes t thr_up thr_dn nu nt in
  let det_of := fun occs : list nat =>
                  (firstn nu occs, firstn (nocc_dn w) (skipn nu occs)) in
  loop_inv w nu nt st /\ log_inv w good det_of st ->
  two_spin_body nodes t thr_up thr_dn st = (st', c) ->
  log_inv w good det_of st' /\
  (c = Continue -> loop_inv w nu nt st' /\ log_inv w good det_of st').
Proof.
  intros nu nt good det_of [Hinv Hlog] Hbody. unfold two_spin_body in Hbody.
  destruct (two_spin_test nodes t thr_up thr_dn st) as [st1|e] eqn:Htest.
  2:{ inversion Hbody; subst. split; [assumption | discriminate]. }
  apply two_spin_test_Ok in Htest as [Hpos Hcases].
  assert (Hsame : forall s, same_system w s ->
                            nocc_up s = nu /\ nocc_dn s = nocc_dn w /\ nocc s = nt).
  { intros s (_ & _ & E1 & E2). unfold nt, nocc. rewrite E1, E2. auto. }
  destruct (Hsame (wfn st)) as (Hnu & Hnd & Hnt); [destruct Hinv; assumption|].
  assert (Hlen : length (new_occs st) = nt) by (destruct Hinv as [_ (E&_)]; exact E).
  assert (Hle : nu <= nt) by (unfold nu, nt, nocc; lia).
  assert (Hmid : mid_inv w nu nt st1 /\ log_inv w good det_of st1).
  { destruct Hcases as [-> | (q_up & q_dn & _ & Hqu & Hqd & Hlu & Hld & ->)].
    - split; [apply reject_rule; assumption|].
      eapply log_inv_same; eauto.
    - rewrite Hnt. split.
      + apply accept_rule; [assumption | | lia].
        apply same_system_insert. destruct Hinv; assumption.
      + eapply accept_log; eauto.
        * split; [destruct Hinv; assumption|].
          unfold up_channel, dn_channel in *. rewrite Hnu in *.
          exists q_up, q_dn. auto.
        * unfold add_occs_two, det_of. rewrite Hnu, Hnd. reflexivity. }
  destruct Hmid as [Hmid Hlog1].
  destruct (Z.ltb_spec (j_electron st1) 0) as [Hneg | Hnn];
    inversion Hbody; subst st' c.
  - split; [assumption | discriminate].
  - assert (Hlog2 : log_inv w good det_of (two_spin_excite st1))
      by (eapply log_inv_same; eauto).
    split; [assumption|]. intros _. split; [|assumption].
    destruct (Hsame (wfn st1)) as (Hnu1 & Hnd1 & Hnt1);
      [destruct Hmid; assumption|].
    pose proof (two_spin_excite_excited st1) as Hex.
    rewrite Hnu1, Hnt1 in Hex.
    unfold two_spin_excite in *. cbn [new_occs] in Hex.
    apply excite_rule; auto.
    apply Hex.
    + destruct Hmid as [_ (E1&_)]. exact E1.
    + destruct Hmid. lia.
Qed.

(** *** Consequences for whole runs *)

Lemma one_spin_reachable_inv (w : wavefunction) (nodes : list F) (t thr : F)
  (st : state) :
  reachable (one_spin_body nodes t thr) (one_spin_init w) st ->
  loop_inv w (nocc_up w) (nocc_up w) st.
Proof.
  intros Hr.
  apply (reachable_rule (one_spin_body nodes t thr)
           (fun st => loop_inv w (nocc_up w) (nocc_up w) st /\
                      log_inv w (good_one nodes t thr (nocc_up w))
                              (fun occs => (occs, [])) st)
           (one_spin_init w)); [| |exact Hr].
  - split; [apply one_spin_init_inv | apply log_inv_init; reflexivity].
  - intros s s' Hs Hb.
    destruct (one_spin_body_inv _ _ _ _ _ _ _ Hs Hb) as [_ HC]. auto.
Qed.

Lemma two_spin_reachable_inv (w : wavefunction) (nodes : list F)
  (t thr_up thr_dn : F) (st : state) :
  reachable (two_spin_body nodes t thr_up thr_dn) (two_spin_init w) st ->
  loop_inv w (nocc_up w) (nocc w) st.
Proof.
  intros Hr.
  apply (reachable_rule (two_spin_body nodes t thr_up thr_dn)
           (fun st => loop_inv w (nocc_up w) (nocc w) st /\
                      log_inv w (good_two nodes t thr_up thr_dn
                                          (nocc_up w) (nocc w))
                              (fun occs =>
                                 (firstn (nocc_up w) occs,
                                  firstn (nocc_dn w)
                                         (skipn (nocc_up w) occs))) st)
           (two_spin_init w)); [| |exact Hr].
  - split; [apply two_spin_init_inv | apply log_inv_init; reflexivity].
  - intros s s' Hs Hb.
    destruct (two_spin_body_inv _ _ _ _ _ _ _ _ Hs Hb) as [_ HC]. auto.
Qed.

Lemma one_spin_run_log (fuel : nat) (w : wavefunction) (nodes : list F)
  (t p thr : F) :
  neglected_cost nodes t p (Py.arange (nocc_up w)) = Ok thr ->
  log_inv w (good_one nodes t thr (nocc_up w)) (fun occs => (occs, []))
          (fst (_odometer_one_spin fuel w nodes t p)).
Proof.
  intros Hthr. unfold _odometer_one_spin.
  change (new_occs (one_spin_init w)) with (Py.arange (nocc_up w)).
  rewrite Hthr.
  apply (loop_rule (one_spin_body nodes t thr)
           (fun st => loop_inv w (nocc_up w) (nocc_up w) st /\
                      log_inv w (good_one nodes t thr (nocc_up w))
                              (fun occs => (occs, [])) st)).
  - intros st [_ Hl]. exact Hl.
  - intros st st' c Hs Hb. eapply one_spin_body_inv; eauto.
  - split; [apply one_spin_init_inv | apply log_inv_init; reflexivity].
Qed.

Lemma two_spin_run_log (fuel : nat) (w : wavefunction) (nodes : list F)
  (t p thr_up thr_dn : F) :
  neglected_cost nodes t p (up_channel w (two_spin_aufbau w)) = Ok thr_up ->
  neglected_cost nodes t p (dn_channel w (two_spin_aufbau w)) = Ok thr_dn ->
  log_inv w (good_two nodes t thr_up thr_dn (nocc_up w) (nocc w))
          (fun occs => (firstn (nocc_up w) occs,
                        firstn (nocc_dn w) (skipn (nocc_up w) occs)))
          (fst (_odometer_two_spin fuel w nodes t p)).
Proof.
  intros Hu Hd. unfold _odometer_two_spin.
  change (new_occs (two_spin_init w)) with (two_spin_aufbau w).
  rewrite Hu, Hd.
  apply (loop_rule (two_spin_body nodes t thr_up thr_dn)
           (fun st => loop_inv w (nocc_up w) (nocc w) st /\
                      log_inv w (good_two nodes t thr_up thr_dn
                                          (nocc_up w) (nocc w))
                              (fun occs =>
                                 (firstn (nocc_up w) occs,
                                  firstn (nocc_dn w)
                                         (skipn (nocc_up w) occs))) st)).
  - intros st [_ Hl]. exact Hl.
  - intros st st' c Hs Hb. eapply two_spin_body_inv; eauto.
  - split; [apply two_spin_init_inv | apply log_inv_init; reflexivity].
Qed.

Lemma below_threshold_intro (nodes : list F) (t p : F)
  (occs aufbau : list nat) (q thr : F) :
  cost nodes t occs = Ok q ->
  neglected_cost nodes t p aufbau = Ok thr ->
  Py.less q thr = true ->
  below_threshold nodes t p occs aufbau.
Proof.
  unfold cost, neglected_cost. intros Hq Hthr Hlt.
  apply bind_Ok in Hq as (nodes_s & Hs & Hq).
  apply bind_Ok in Hq as (m & Hm & Hq).
  apply bind_Ok in Hthr as (nodes_a & Ha & Hthr).
  apply bind_Ok in Hthr as (last & Hl & Hthr).
  inversion Hq; subst q. inversion Hthr; subst thr.
  exists nodes_s, m, nodes_a, last. auto.
Qed.

(** C1: in whatever arithmetic the costs are computed (in the program: double
    precision), and whatever the fuel, the wave function, the node table and
    the parameters, a determinant found in the wave function after either
    odometer selector was there at entry, or each of its channels (the one
    channel of the one-spin variant, both channels of the two-spin variant)
    has a cost [sum(nodes[occs]) + t * max(nodes[occs])] that is, as computed
    and compared in that arithmetic, strictly below the threshold
    [sum(nodes[aufbau][:-1]) * p + (t + 1) * nodes[-1] * p] of the channel,
    computed from the aufbau occupation. *)
Theorem odometer_inserts_below_threshold (v : spin) (fuel : nat)
  (w : wavefunction) (nodes : list F) (t p : F) (d : det) :
  In d (dets (wfn (fst (odometer v fuel w nodes t p)))) ->
  In d (dets w) \/
  Forall (fun c => below_threshold nodes t p (fst c) (snd c))
         (det_channels v w d).
Proof.
  destruct v; simpl; intros Hin.
  - destruct (neglected_cost nodes t p (Py.arange (nocc_up w)))
      as [thr|e] eqn:Hthr.
    2:{ unfold _odometer_one_spin in Hin.
        change (new_occs (one_spin_init w)) with (Py.arange (nocc_up w)) in Hin.
        rewrite Hthr in Hin. left. exact Hin. }
    destruct (one_spin_run_log fuel w nodes t p thr Hthr)
      as [_ Hgood _ Hdets].
    destruct (Hdets d Hin) as [H0 | (occs & Ho & ->)]; [auto|].
    right. rewrite Forall_forall in Hgood.
    destruct (Hgood occs Ho) as (_ & q & Hq & Hlt).
    repeat constructor. cbn [fst snd].
    eapply below_threshold_intro; eassumption.
  - destruct (neglected_cost nodes t p (up_channel w (two_spin_aufbau w)))
      as [thr_up|e] eqn:Hu.
    2:{ unfold _odometer_two_spin in Hin.
        change (new_occs (two_spin_init w)) with (two_spin_aufbau w) in Hin.
        rewrite Hu in Hin. left. exact Hin. }
    destruct (neglected_cost nodes t p (dn_channel w (two_spin_aufbau w)))
      as [thr_dn|e] eqn:Hd.
    2:{ unfold _odometer_two_spin in Hin.
        change (new_occs (two_spin_init w)) with (two_spin_aufbau w) in Hin.
        rewrite Hu, Hd in Hin. left. exact Hin. }
    destruct (two_spin_run_log fuel w nodes t p thr_up thr_dn Hu Hd)
      as [_ Hgood _ Hdets].
    destruct (Hdets d Hin) as [H0 | (occs & Ho & ->)]; [auto|].
    right. rewrite Forall_forall in Hgood.
    destruct (Hgood occs Ho) as ((Hlen & _) & q_up & q_dn & Hqu & Hqd & Hlu & Hld).
    cbn [fst snd].
    assert (E : firstn (nocc_dn w) (skipn (nocc_up w) occs)
                = skipn (nocc_up w) occs).
    { apply firstn_all2. rewrite length_skipn, Hlen. unfold nocc. lia. }
    rewrite E.
    constructor; [eapply below_threshold_intro; eassumption|].
    constructor; [eapply below_threshold_intro; eassumption | constructor].
Qed.

(** *** Sortedness of the channels *)

Lemma incr_on_lt (l : list nat) (lo hi : nat) :
  incr_on l lo hi ->
  forall i k, lo <= i -> i < k -> k < hi -> nth i l 0 < nth k l 0.
Proof.
  intros Hinc i k Hlo Hik Hk. induction k as [|k IH]; [lia|].
  destruct (Nat.eq_dec i k) as [->|Hne].
  - replace (S k) with (k + 1) by lia. apply Hinc; lia.
  - apply Nat.lt_trans with (nth k l 0); [apply IH; lia|].
    replace (S k) with (k + 1) by lia. apply Hinc; lia.
Qed.

Lemma incr_on_sorted (l : list nat) :
  incr_on l 0 (length l) -> StronglySorted lt l.
Proof.
  induction l as [|a l IH]; intros Hinc; constructor.
  - apply IH. intros i Hi1 Hi2.
    specialize (Hinc (S i)). simpl in Hinc.
    replace (i + 1) with (S i) in * by lia. apply Hinc; lia.
  - apply Forall_forall. intros x Hx.
    destruct (In_nth l x 0 Hx) as (k & Hk & <-).
    apply (incr_on_lt (a :: l) 0 (length (a :: l)) Hinc 0 (S k)); simpl; lia.
Qed.

Lemma incr_on_firstn (l : list nat) (n : nat) :
  n <= length l -> incr_on l 0 n -> StronglySorted lt (firstn n l).
Proof.
  intros Hn Hinc. apply incr_on_sorted.
  rewrite length_firstn, Nat.min_l by assumption.
  intros i Hi1 Hi2. rewrite !nth_firstn.
  assert (E1 : (i <? n) = true) by (apply Nat.ltb_lt; lia).
  assert (E2 : (i + 1 <? n) = true) by (apply Nat.ltb_lt; lia).
  rewrite E1, E2. apply Hinc; lia.
Qed.

Lemma incr_on_skipn (l : list nat) (n : nat) :
  incr_on l n (length l) -> StronglySorted lt (skipn n l).
Proof.
  intros Hinc. apply incr_on_sorted. rewrite length_skipn.
  intros i Hi1 Hi2. rewrite !nth_skipn.
  replace (n + (i + 1)) with (n + i + 1) by lia. apply Hinc; lia.
Qed.

Lemma last_In (l : list nat) (d : nat) : l <> [] -> In (last l d) l.
Proof.
  induction l as [|a l IH]; intros Hne; [congruence|].
  destruct l as [|b l]; [left; reflexivity|].
  right. apply IH. discriminate.
Qed.

Lemma sorted_below_last (l : list nat) :
  StronglySorted lt l -> Forall (fun i => i <= last l 0) l.
Proof.
  induction 1 as [|a l Hs IH Ha]; constructor.
  - destruct l as [|b l]; [simpl; lia|].
    rewrite Forall_forall in Ha.
    assert (Hin : In (last (b :: l) 0) (b :: l))
      by (apply last_In; discriminate).
    specialize (Ha _ Hin). simpl in *. lia.
  - destruct l as [|b l]; [constructor | exact IH].
Qed.

Lemma get_pred_nth (l : list nat) (n x : nat) :
  Py.get l (Z.of_nat n - 1) = Ok x ->
  In x l /\ (0 < n -> n <= length l /\ x = nth (n - 1) l 0).
Proof.
  intros Hg. apply get_Ok_nth in Hg as (k & Hk & Hn & Hz).
  split; [eapply nth_error_In; eassumption|].
  intros Hpos.
  destruct (Z.ltb_spec (Z.of_nat n - 1) 0) as [Hneg | Hnn]; [lia|].
  assert (k = n - 1) by lia. subst k.
  split; [lia|]. symmetry. apply nth_error_nth. exact Hn.
Qed.

Lemma get_pred_Ok (l : list nat) (n : nat) :
  0 < length l -> n <= length l ->
  exists x, Py.get l (Z.of_nat n - 1) = Ok x.
Proof.
  intros Hpos Hn. unfold Py.get.
  set (k := (if (Z.of_nat n - 1 <? 0)%Z
             then (Z.of_nat n - 1 + Z.of_nat (length l))%Z
             else (Z.of_nat n - 1)%Z)).
  assert (Hk : (0 <= k < Z.of_nat (length l))%Z)
    by (unfold k; destruct (Z.ltb_spec (Z.of_nat n - 1) 0); lia).
  assert (E : ((0 <=? k) && (k <? Z.of_nat (length l)))%Z = true).
  { apply andb_true_iff. split; [apply Z.leb_le | apply Z.ltb_lt]; lia. }
  rewrite E.
  destruct (nth_error l (Z.to_nat k)) as [x|] eqn:Hx; [eauto|].
  apply nth_error_None in Hx. lia.
Qed.

Lemma existsb_max (l : list nat) (m b : nat) :
  In m l -> (forall x, In x l -> x <= m) ->
  existsb (fun i => b <=? i) l = (b <=? m).
Proof.
  intros Hm Hall. destruct (Nat.leb_spec b m) as [Hle | Hgt].
  - apply existsb_exists. exists m. split; [assumption | apply Nat.leb_le; lia].
  - destruct (existsb (fun i => b <=? i) l) eqn:E; [|reflexivity].
    apply existsb_exists in E as (x & Hx & Hbx).
    apply Nat.leb_le in Hbx. specialize (Hall x Hx). lia.
Qed.

(** What the loop invariant says of the channels and of the bounds check. *)
Lemma loop_inv_channels (v : spin) (w : wavefunction) (st : state) :
  loop_inv w (nocc_up w) (electrons v w) st ->
  Forall (fun ch => StronglySorted lt ch /\ Forall (fun i => i <= last ch 0) ch)
         (channels v w (new_occs st)) /\
  (forall out, out_of_range v st = Ok out ->
               out = existsb (fun i => nbasis w <=? i) (new_occs st)) /\
  (0 < electrons v w -> exists out, out_of_range v st = Ok out).
Proof.
  destruct v; simpl; intros Hr.
  - destruct Hr as [(_ & Hnb & Hnu & _) (Hlen & Hup & _) _ _ _ _ _].
    assert (Hs : StronglySorted lt (new_occs st)).
    { apply incr_on_sorted. rewrite Hlen. exact Hup. }
    split; [repeat constructor; auto using sorted_below_last|].
    split.
    2:{ intros Hpos. unfold one_spin_out_of_range. rewrite Hnu.
        destruct (get_pred_Ok (new_occs st) (nocc_up w)) as (x & ->);
          [lia | lia |]. simpl. eauto. }
    intros out Hout. unfold one_spin_out_of_range in Hout.
    apply bind_Ok in Hout as (x & Hx & Hout). inversion Hout; subst out.
    rewrite Hnb, Hnu in *.
    pose proof (get_pred_nth _ _ _ Hx) as [Hin Hnth].
    symmetry. apply existsb_max; [assumption|].
    intros y Hy. destruct (In_nth _ _ 0 Hy) as (k & Hk & <-).
    destruct Hnth as [_ ->]; [lia|].
    destruct (Nat.eq_dec k (nocc_up w - 1)) as [->|Hne]; [lia|].
    apply Nat.lt_le_incl.
    apply (incr_on_lt _ 0 (nocc_up w) Hup); lia.
  - destruct Hr as [(_ & Hnb & Hnu & Hnd) (Hlen & Hup & Hdn) _ _ _ _ _].
    assert (Hsu : StronglySorted lt (up_channel w (new_occs st))).
    { apply incr_on_firstn; [unfold nocc in Hlen; lia | exact Hup]. }
    assert (Hsd : StronglySorted lt (dn_channel w (new_occs st))).
    { apply incr_on_skipn. rewrite Hlen. exact Hdn. }
    split; [repeat constructor; auto using sorted_below_last|].
    split.
    2:{ intros Hpos. unfold two_spin_out_of_range.
        replace (nocc (wfn st)) with (nocc w) by (unfold nocc; congruence).
        rewrite Hnu.
        destruct (get_pred_Ok (new_occs st) (nocc_up w)) as (x & ->);
          [lia | unfold nocc in *; lia |].
        destruct (get_pred_Ok (new_occs st) (nocc w)) as (y & ->);
          [lia | lia |]. simpl. eauto. }
    intros out Hout. unfold two_spin_out_of_range in Hout.
    apply bind_Ok in Hout as (x & Hx & Hout).
    apply bind_Ok in Hout as (y & Hy & Hout). inversion Hout; subst out.
    assert (Hnt : nocc (wfn st) = nocc w) by (unfold nocc; congruence).
    rewrite Hnb, Hnu, Hnt in *.
    pose proof (get_pred_nth _ _ _ Hx) as [Hinx Hnthx].
    pose proof (get_pred_nth _ _ _ Hy) as [Hiny Hnthy].
    symmetry. apply existsb_max.
    + destruct (Nat.max_spec x y) as [[_ ->] | [_ ->]]; assumption.
    + intros z Hz. destruct (In_nth _ _ 0 Hz) as (k & Hk & <-).
      destruct (Nat.lt_ge_cases k (nocc_up w)) as [Hku | Hkd].
      * destruct Hnthx as [_ ->]; [lia|].
        apply Nat.le_trans with (nth (nocc_up w - 1) (new_occs st) 0);
          [|apply Nat.le_max_l].
        destruct (Nat.eq_dec k (nocc_up w - 1)) as [->|Hne]; [lia|].
        apply Nat.lt_le_incl.
        apply (incr_on_lt _ 0 (nocc_up w) Hup); lia.
      * destruct Hnthy as [_ ->]; [lia|].
        apply Nat.le_trans with (nth (nocc w - 1) (new_occs st) 0);
          [|apply Nat.le_max_r].
        destruct (Nat.eq_dec k (nocc w - 1)) as [->|Hne]; [lia|].
        apply Nat.lt_le_incl.
        apply (incr_on_lt _ (nocc_up w) (nocc w) Hdn); lia.
Qed.

(** C9: at every acceptance test of either odometer loop, each spin channel
    of [new_occs] is strictly increasing and its last index is its maximum;
    the truth value of the bounds check of the source, which looks only at
    the last index of each channel, says exactly whether some occupied
    orbital index reaches or exceeds [nbasis]; and the check does yield a
    truth value as soon as the wave function has an electron. *)
Theorem odometer_channels_increasing (v : spin) (w : wavefunction)
  (nodes : list F) (t thr_up thr_dn : F) (st : state) :
  reachable (body_of v nodes t thr_up thr_dn) (init_of v w) st ->
  Forall (fun ch => StronglySorted lt ch /\ Forall (fun i => i <= last ch 0) ch)
         (channels v w (new_occs st)) /\
  (forall out, out_of_range v st = Ok out ->
               out = existsb (fun i => nbasis w <=? i) (new_occs st)) /\
  (0 < electrons v w -> exists out, out_of_range v st = Ok out).
Proof.
  intros Hr. apply loop_inv_channels.
  destruct v; simpl in *.
  - eapply one_spin_reachable_inv; eassumption.
  - eapply two_spin_reachable_inv; eassumption.
Qed.

(** *** The order of acceptance *)

Lemma StronglySorted_adjacent {A : Type} (R : A -> A -> Prop)
  (pre post : list A) (a b : A) :
  StronglySorted R (pre ++ a :: b :: post) -> R a b.
Proof.
  induction pre as [|c pre IH]; simpl; intros Hs.
  - apply StronglySorted_inv in Hs as [_ Hall].
    inversion Hall; assumption.
  - apply StronglySorted_inv in Hs as [Hs _]. auto.
Qed.

(** C8, as the code has it: in whatever arithmetic the costs are computed,
    the determinants the one-spin selector accepts come, in insertion order,
    in strictly increasing lexicographic order of their occupation vectors:
    of two accepted one after the other, the later one is the greater. *)
Theorem one_spin_acceptance_order (fuel : nat) (w : wavefunction)
  (nodes : list F) (t p : F) (pre post : list (list nat)) (a b : list nat) :
  accepted (fst (_odometer_one_spin fuel w nodes t p))
  = pre ++ a :: b :: post ->
  lex_lt a b.
Proof.
  intros Hacc.
  destruct (neglected_cost nodes t p (Py.arange (nocc_up w)))
    as [thr|e] eqn:Hthr.
  2:{ unfold _odometer_one_spin in Hacc.
      change (new_occs (one_spin_init w)) with (Py.arange (nocc_up w)) in Hacc.
      rewrite Hthr in Hacc. simpl in Hacc. destruct pre; discriminate. }
  destruct (one_spin_run_log fuel w nodes t p thr Hthr)
    as [_ _ Hsorted _].
  rewrite Hacc in Hsorted.
  eapply StronglySorted_adjacent; eassumption.
Qed.

End OdometerFacts.

(** ** The entry point [add_gkci] *)

Section GkciFacts.

Context {F : Type} {arith : Py.Arith F}.

Import Odometer Spec.

Lemma bind_Err {X Y : Type} (r : result X) (k : X -> result Y) (e : exn) :
  bind r k = Err e -> r = Err e \/ exists x, r = Ok x /\ k x = Err e.
Proof.
  destruct r as [x|e']; simpl; [eauto | intros H; inversion H; auto].
Qed.

Lemma get_Err {A : Type} (l : list A) (i : Z) (e : exn) :
  Py.get l i = Err e -> e = IndexError.
Proof.
  unfold Py.get.
  destruct (_ && _); [destruct (nth_error _ _)|]; intros H; inversion H; auto.
Qed.

Lemma take_Err (nodes : list F) (l : list nat) (e : exn) :
  Py.take nodes l = Err e -> e = IndexError.
Proof.
  induction l as [|i l IH]; simpl; [discriminate|].
  destruct (nth_error nodes i); [|intros H; inversion H; auto].
  intros H. apply bind_Err in H as [H | (x & _ & H)]; [auto | discriminate].
Qed.

Lemma cost_Err (nodes : list F) (t : F) (l : list nat) (e : exn) :
  cost nodes t l = Err e -> loop_exn e.
Proof.
  unfold cost. intros H.
  apply bind_Err in H as [H | (ns & _ & H)].
  - apply take_Err in H. subst. reflexivity.
  - apply bind_Err in H as [H | (m & _ & H)]; [|discriminate].
    destruct ns; inversion H. reflexivity.
Qed.

Lemma neglected_cost_Err (nodes : list F) (t p : F) (l : list nat) (e : exn) :
  neglected_cost nodes t p l = Err e -> loop_exn e.
Proof.
  unfold neglected_cost. intros H.
  apply bind_Err in H as [H | (ns & _ & H)].
  - apply take_Err in H. subst. reflexivity.
  - apply bind_Err in H as [H | (m & _ & H)]; [|discriminate].
    apply get_Err in H. subst. reflexivity.
Qed.

Lemma one_spin_test_Err (nodes : list F) (t thr : F) (st : state) (e : exn) :
  one_spin_test nodes t thr st = Err e -> loop_exn e.
Proof.
  unfold one_spin_test, one_spin_out_of_range. intros H.
  apply bind_Err in H as [H | (out & _ & H)].
  - apply bind_Err in H as [H | (x & _ & H)]; [|discriminate].
    apply get_Err in H. subst. reflexivity.
  - destruct out; [discriminate|].
    apply bind_Err in H as [H | (q & _ & H)]; [eapply cost_Err; eauto|].
    destruct (Py.less q thr); discriminate.
Qed.

Lemma two_spin_test_Err (nodes : list F) (t thr_up thr_dn : F) (st : state)
  (e : exn) :
  two_spin_test nodes t thr_up thr_dn st = Err e -> loop_exn e.
Proof.
  unfold two_spin_test, two_spin_out_of_range. intros H.
  apply bind_Err in H as [H | (out & _ & H)].
  - apply bind_Err in H as [H | (x & _ & H)];
      [apply get_Err in H; subst; reflexivity|].
    apply bind_Err in H as [H | (y & _ & H)]; [|discriminate].
    apply get_Err in H. subst. reflexivity.
  - destruct out; [discriminate|].
    apply bind_Err in H as [H | (q_up & _ & H)]; [eapply cost_Err; eauto|].
    apply bind_Err in H as [H | (q_dn & _ & H)]; [eapply cost_Err; eauto|].
    destruct (Py.less q_up thr_up && Py.less q_dn thr_dn); [|discriminate].
    destruct (Nat.even (length (new_occs st))); inversion H. reflexivity.
Qed.

Lemma loop_Raised (body : state -> state * ctl) (P : exn -> Prop) :
  (forall st st' e, body st = (st', Raise e) -> P e) ->
  forall fuel st e, snd (loop body fuel st) = Raised e -> P e.
Proof.
  intros Hbody. induction fuel as [|fuel IH]; intros st e; simpl.
  - discriminate.
  - destruct (body st) as [st' c] eqn:Hb. destruct c; simpl.
    + apply IH.
    + discriminate.
    + intros H. inversion H; subst. eapply Hbody; eassumption.
Qed.

Lemma odometer_Raised (v : spin) (fuel : nat) (w : wavefunction)
  (nodes : list F) (t p : F) (e : exn) :
  snd (odometer v fuel w nodes t p) = Raised e -> loop_exn e.
Proof.
  destruct v; simpl.
  - unfold _odometer_one_spin.
    destruct (neglected_cost _ _ _ _) as [thr|e'] eqn:Hthr; simpl.
    + apply loop_Raised. intros st st' e0. unfold one_spin_body.
      destruct (one_spin_test nodes t thr st) as [st1|e1] eqn:Ht.
      * destruct (j_electron st1 <? 0)%Z; discriminate.
      * intros H. inversion H; subst. eapply one_spin_test_Err; eauto.
    + intros H. inversion H; subst. eapply neglected_cost_Err; eauto.
  - unfold _odometer_two_spin.
    destruct (neglected_cost _ _ _ (up_channel _ _)) as [thr_up|e'] eqn:Hu;
      simpl.
    2:{ intros H. inversion H; subst. eapply neglected_cost_Err; eauto. }
    destruct (neglected_cost _ _ _ (dn_channel _ _)) as [thr_dn|e'] eqn:Hd;
      simpl.
    2:{ intros H. inversion H; subst. eapply neglected_cost_Err; eauto. }
    apply loop_Raised. intros st st' e0. unfold two_spin_body.
    destruct (two_spin_test nodes t thr_up thr_dn st) as [st1|e1] eqn:Ht.
    + destruct (j_electron st1 <? 0)%Z; discriminate.
    + intros H. inversion H; subst. eapply two_spin_test_Err; eauto.
Qed.

(** C10: with an explicit cost sequence as [mode], [add_gkci] does not look
    at [node_dim]: any two values of it (given or not) lead to the same
    outcome and the same wave function, and the outcome is never one of the
    [ValueError]s about [node_dim]. *)
Theorem add_gkci_ignores_node_dim (fuel : nat) (w : wavefunction) (t p : F)
  (costs : list F) (node_dim node_dim' : option Z) :
  add_gkci fuel w t p (ModeCosts costs) node_dim
  = add_gkci fuel w t p (ModeCosts costs) node_dim' /\
  about_node_dim (snd (add_gkci fuel w t p (ModeCosts costs) node_dim))
  = false.
Proof.
  split; [reflexivity|].
  unfold add_gkci. cbn [gkci_nodes].
  destruct (kind w).
  - pose proof (odometer_Raised one_spin fuel w (firstn (nbasis w) costs) t p)
      as H. simpl in H.
    destruct (_odometer_one_spin _ _ _ _ _) as [st out]. simpl in *.
    destruct out; auto. apply H. reflexivity.
  - pose proof (odometer_Raised two_spin fuel w (firstn (nbasis w) costs) t p)
      as H. simpl in H.
    destruct (_odometer_two_spin _ _ _ _ _) as [st out]. simpl in *.
    destruct out; auto. apply H. reflexivity.
  - pose proof (odometer_Raised one_spin fuel w (firstn (nbasis w) costs) t p)
      as H. simpl in H.
    destruct (_odometer_one_spin _ _ _ _ _) as [st out]. simpl in *.
    destruct out; auto. apply H. reflexivity.
  - reflexivity.
Qed.

(** *** The table of mode ["cntsp"] *)

Lemma cntsp_loop_spec (nbasis fuel : nat) :
  forall (nodes : list F) (shell : nat),
    1 <= shell -> nbasis <= length nodes + fuel ->
    exists K,
      cntsp_loop fuel nodes shell nbasis
      = Some (nodes ++ flat_map shell_block (seq shell K)) /\
      nbasis <= length (nodes ++ flat_map shell_block (seq shell K)) /\
      (K = 0 \/
       length (nodes ++ flat_map shell_block (seq shell (K - 1))) < nbasis).
Proof.
  induction fuel as [|fuel IH]; intros nodes shell Hs Hlen.
  - exists 0. simpl. rewrite app_nil_r.
    destruct (Nat.ltb_spec (length nodes) nbasis); [lia|]. auto.
  - simpl. destruct (Nat.ltb_spec (length nodes) nbasis) as [Hlt | Hge].
    2:{ exists 0. simpl. rewrite app_nil_r. auto. }
    change (repeat (Py.sub (Py.of_int (Z.of_nat shell)) (Py.of_int 1))
                   (shell ^ 2))
      with (shell_block shell).
    assert (Hblock : 1 <= length (shell_block shell)).
    { unfold shell_block. rewrite repeat_length. simpl. nia. }
    destruct (IH (nodes ++ shell_block shell) (shell + 1))
      as (K & HK & Hfull & Hmin).
    { lia. }
    { rewrite length_app. lia. }
    exists (S K). replace (shell + 1) with (S shell) in * by lia.
    cbn [seq flat_map]. rewrite app_assoc.
    split; [exact HK|]. split; [exact Hfull|]. right.
    replace (S K - 1) with K by lia.
    destruct Hmin as [-> | Hmin]; [simpl; rewrite app_nil_r; assumption|].
    destruct K as [|K]; [simpl; rewrite app_nil_r; assumption|].
    cbn [seq flat_map]. rewrite app_assoc.
    replace (S K - 1) with K in Hmin by lia. exact Hmin.
Qed.

Lemma In_shell_blocks (a K : nat) (x : F) :
  In x (flat_map shell_block (seq a K)) ->
  exists k, a <= k /\ x = shell_cost k.
Proof.
  intros Hin. apply in_flat_map in Hin as (k & Hk & Hx).
  apply in_seq in Hk. apply repeat_spec in Hx. exists k. split; [lia | exact Hx].
Qed.

Lemma sorted_repeat_app {A : Type} (R : A -> A -> Prop) (c : A) (n : nat)
  (l : list A) :
  R c c -> StronglySorted R l -> Forall (R c) l ->
  StronglySorted R (repeat c n ++ l).
Proof.
  intros Hc Hs Hall. induction n as [|n IH]; simpl; [assumption|].
  constructor; [assumption|].
  apply Forall_app. split; [|assumption].
  apply Forall_forall. intros x Hx. apply repeat_spec in Hx. subst.
  exact Hc.
Qed.

(** Consecutive shells are in order for every relation under which the cost
    of a shell does not fall from a shell to a later one. *)
Lemma shell_blocks_sorted (R : F -> F -> Prop) (K s : nat) :
  (forall a b, s <= a -> a <= b -> R (shell_cost a) (shell_cost b)) ->
  StronglySorted R (flat_map shell_block (seq s K)).
Proof.
  revert s. induction K as [|K IH]; intros s HR; simpl; [constructor|].
  apply sorted_repeat_app.
  - apply HR; lia.
  - apply IH. intros a b Ha Hab. apply HR; lia.
  - apply Forall_forall. intros x Hx.
    apply In_shell_blocks in Hx as (k & Hk & ->).
    apply HR; lia.
Qed.

Lemma sorted_firstn {A : Type} (R : A -> A -> Prop) (n : nat) (l : list A) :
  StronglySorted R l -> StronglySorted R (firstn n l).
Proof.
  intros Hs. revert n. induction Hs as [|a l Hs IH Ha]; intros [|n]; simpl;
    try constructor; auto.
  rewrite Forall_forall in *. intros x Hx. apply Ha.
  rewrite <- (firstn_skipn n l). apply in_or_app. auto.
Qed.


End GkciFacts.

(** *** The table in exact arithmetic *)

Section CntspFacts.

Import Odometer Spec.

Lemma shell_cost_le (s k : nat) :
  s <= k -> (shell_cost (F:=Q) s <= shell_cost k)%Q.
Proof.
  intros Hsk. unfold shell_cost. cbn [Py.sub Py.of_int Py.Arith_Q].
  unfold Qminus. apply Qplus_le_compat; [|apply Qle_refl].
  rewrite <- Zle_Qle. lia.
Qed.

(** Over the rationals the shells, and so the table of mode ["cntsp"], are
    non-decreasing. *)
Lemma cntsp_table_sorted_exact (nbasis K : nat) :
  StronglySorted Qle (firstn nbasis (flat_map shell_block (seq 1 K))).
Proof.
  apply sorted_firstn, shell_blocks_sorted.
  intros a b _ Hab. apply shell_cost_le, Hab.
Qed.

End CntspFacts.

(** ** The seniority enumerator *)

Section SeniorityFacts.

Import Seniority Spec.

(** *** Counting singly occupied orbitals *)

Lemma occupies_In (occs : list nat) (i : nat) :
  occupies occs i = true <-> In i occs.
Proof.
  unfold occupies. rewrite existsb_exists. split.
  - intros (x & Hx & E). apply Nat.eqb_eq in E. subst. assumption.
  - intros Hi. exists i. split; [assumption | apply Nat.eqb_refl].
Qed.

Lemma same_elements_length (l l' : list nat) :
  NoDup l -> NoDup l' -> (forall x, In x l <-> In x l') ->
  length l = length l'.
Proof.
  intros Hl Hl' Hiff. apply Nat.le_antisymm.
  - apply NoDup_incl_length; [assumption|]. intros x Hx. apply Hiff, Hx.
  - apply NoDup_incl_length; [assumption|]. intros x Hx. apply Hiff, Hx.
Qed.

Lemma filter_split_length {A : Type} (f : A -> bool) (l : list A) :
  length (filter f l) + length (filter (fun x => negb (f x)) l) = length l.
Proof.
  induction l as [|a l IH]; simpl; [reflexivity|].
  destruct (f a); simpl; lia.
Qed.

(** A spin-down occupation made of [paired] orbitals taken among the spin-up
    ones and of [alone] orbitals taken among the others leaves
    [|up| - |paired|] spin-up and [|alone|] spin-down orbitals singly
    occupied. *)
Lemma singly_occupied_count (nb : nat) (up paired alone : list nat) :
  NoDup up -> NoDup paired -> NoDup alone ->
  incl up (seq 0 nb) -> incl paired up ->
  (forall i, In i alone -> In i (seq 0 nb) /\ ~ In i up) ->
  singly_occupied nb (up, paired ++ alone)
  = (length up - length paired) + length alone.
Proof.
  intros Hup Hpaired Halone Hrange Hsub Hout.
  unfold singly_occupied. cbn [fst snd].
  set (unpaired := filter (fun i => negb (occupies paired i)) up).
  assert (Hlen : length unpaired = length up - length paired).
  { pose proof (filter_split_length (occupies paired) up) as Hsplit.
    fold unpaired in Hsplit.
    assert (length (filter (occupies paired) up) = length paired); [|lia].
    apply same_elements_length; [apply NoDup_filter; assumption | assumption|].
    intros x. rewrite filter_In, occupies_In. split; [tauto|].
    intros Hx. split; [apply Hsub|]; assumption. }
  rewrite <- Hlen, <- length_app.
  apply same_elements_length.
  - apply NoDup_filter, seq_NoDup.
  - apply NoDup_app; [apply NoDup_filter; assumption | assumption|].
    intros x Hx Hx'. apply filter_In in Hx as [Hx _].
    destruct (Hout x Hx') as [_ Hn]. contradiction.
  - intros x. rewrite filter_In, in_app_iff. unfold unpaired.
    rewrite filter_In, negb_true_iff.
    destruct (occupies up x) eqn:Eu, (occupies (paired ++ alone) x) eqn:Ed;
      simpl.
    + apply occupies_In in Eu, Ed. split; [intros [_ H]; discriminate|].
      intros [[_ Hnp] | Ha].
      * apply in_app_or in Ed as [Hp | Ha].
        -- apply occupies_In in Hp. congruence.
        -- destruct (Hout x Ha). contradiction.
      * destruct (Hout x Ha). contradiction.
    + apply occupies_In in Eu. split; [|auto].
      intros _. left. split; [assumption|].
      destruct (occupies paired x) eqn:Ep; [|reflexivity].
      apply occupies_In in Ep.
      assert (occupies (paired ++ alone) x = true)
        by (apply occupies_In, in_or_app; auto).
      congruence.
    + apply occupies_In in Ed. split.
      * intros _. right. apply in_app_or in Ed as [Hp | Ha]; [|assumption].
        apply Hsub in Hp. apply occupies_In in Hp. congruence.
      * intros [[Hu _] | Ha]; [apply occupies_In in Hu; congruence|].
        split; [apply Hout; assumption | reflexivity].
    + split; [intros [_ H]; discriminate|].
      intros [[Hu _] | Ha]; [apply occupies_In in Hu; congruence|].
      assert (occupies (paired ++ alone) x = true)
        by (apply occupies_In, in_or_app; auto).
      congruence.
Qed.

Lemma combinations_spec {A : Type} (l : list A) :
  forall (r : nat) (c : list A),
    In c (Py.combinations l r) ->
    length c = r /\ incl c l /\ (NoDup l -> NoDup c).
Proof.
  induction l as [|a l IH]; intros r c Hc.
  - destruct r; simpl in Hc; [|contradiction].
    destruct Hc as [<- | []]. repeat split; auto using incl_nil_l, NoDup_nil.
  - destruct r as [|r]; simpl in Hc.
    + destruct Hc as [<- | []]. repeat split; auto using incl_nil_l, NoDup_nil.
    + apply in_app_or in Hc as [Hc | Hc].
      * apply in_map_iff in Hc as (c' & <- & Hc').
        destruct (IH _ _ Hc') as (Hlen & Hincl & Hnd).
        split; [simpl; lia|]. split.
        -- intros x [<- | Hx]; [left; reflexivity | right; auto].
        -- intros Hl. inversion Hl; subst. constructor; auto.
      * destruct (IH _ _ Hc) as (Hlen & Hincl & Hnd).
        split; [assumption|]. split.
        -- intros x Hx. right. auto.
        -- intros Hl. inversion Hl; subst. auto.
Qed.

Lemma setdiff1d_spec (nb : nat) (up : list nat) :
  let virs := Py.setdiff1d (Py.arange nb) up in
  NoDup virs /\ forall i, In i virs -> In i (seq 0 nb) /\ ~ In i up.
Proof.
  unfold Py.setdiff1d, Py.arange. split; [apply NoDup_filter, seq_NoDup|].
  intros i Hi. apply filter_In in Hi as [Hr Hn]. split; [assumption|].
  apply negb_true_iff in Hn. intros Hu.
  apply occupies_In in Hu. unfold occupies in Hu. congruence.
Qed.

(** *** The loops over the working array *)

Lemma fold_left_rule {S X : Type} (f : S -> X -> S) (I : S -> Prop)
  (l : list X) :
  (forall st x, In x l -> I st -> I (f st x)) ->
  forall st, I st -> I (fold_left f l st).
Proof.
  induction l as [|x l IH]; intros Hf st Hst; simpl; [assumption|].
  apply IH; [intros; apply Hf; simpl; auto|].
  apply Hf; simpl; auto.
Qed.

Lemma read_buffer (w' : wavefunction) (up dn rest : list nat) :
  length up = nocc_up w' -> length dn = nocc_dn w' ->
  add_buffer w' (mk_buffer up (dn ++ rest)) = insert_det w' (up, dn).
Proof.
  intros Hup Hdn. unfold add_buffer, add_occs_two. cbn [row_up row_dn].
  rewrite firstn_app, skipn_app, <- Hup, firstn_all, skipn_all, Nat.sub_diag.
  cbn [firstn skipn app]. rewrite app_nil_r.
  rewrite firstn_app, <- Hdn, firstn_all, Nat.sub_diag. cbn [firstn].
  rewrite app_nil_r. reflexivity.
Qed.

Lemma only_adds_insert (w0 : wavefunction) (P : det -> Prop)
  (occs : buffer) (w' : wavefunction) (d : det) (occs' : buffer) :
  only_adds w0 P (occs, w') -> P d ->
  only_adds w0 P (occs', insert_det w' d).
Proof.
  intros Hadds Hd d' Hin. cbn [snd] in *.
  apply In_insert_det in Hin as [Hin | ->]; auto.
Qed.

(** The innermost loop: the spin-down slice [lo : nocc_dn] receives each
    source in turn, the entries before it staying [pre]. *)
Lemma put_dn_loop (w w0 : wavefunction) (P : det -> Prop)
  (up pre : list nat) (lo : nat) (srcs : list (list nat))
  (st : buffer * wavefunction) :
  nocc_dn w <= nocc_up w -> lo <= nocc_dn w ->
  length pre = lo -> length up = nocc_up w ->
  (forall src, In src srcs ->
               length src = nocc_dn w - lo /\ P (up, pre ++ src)) ->
  let J := fun st : buffer * wavefunction =>
             buffer_ok w st /\ only_adds w0 P st /\
             row_up (fst st) = up /\ firstn lo (row_dn (fst st)) = pre in
  J st -> J (fold_left (put_dn_and_add lo (nocc_dn w)) srcs st).
Proof.
  intros Hwf Hlo Hpre Hup Hsrcs J. apply fold_left_rule.
  clear st. intros [occs w'] src Hsrc ((Hsys & Hlu & Hld) & Hadds & Hru & Hfd).
  cbn [fst snd] in *.
  destruct (Hsrcs src Hsrc) as [Hlen HP].
  unfold put_dn_and_add, assign_slice. cbn [fst snd row_up row_dn].
  rewrite Hfd, Hru.
  assert (Hnu : nocc_up w' = nocc_up w) by (destruct Hsys as (_&_&E&_); exact E).
  assert (Hnd : nocc_dn w' = nocc_dn w) by (destruct Hsys as (_&_&_&E); exact E).
  rewrite app_assoc.
  rewrite read_buffer
    by (rewrite ?length_app; lia).
  refine (conj (conj _ (conj _ _)) (conj _ (conj _ _)));
    cbn [fst snd row_up row_dn].
  - apply same_system_insert. exact Hsys.
  - assumption.
  - rewrite !length_app, length_skipn. lia.
  - eapply only_adds_insert; eassumption.
  - reflexivity.
  - rewrite <- app_assoc, firstn_app, <- Hpre, firstn_all, Nat.sub_diag.
    cbn [firstn]. apply app_nil_r.
Qed.

Lemma put_up_ok (w w0 : wavefunction) (P : det -> Prop)
  (st : buffer * wavefunction) (occs_up : list nat) :
  length occs_up = nocc_up w ->
  buffer_ok w st /\ only_adds w0 P st ->
  buffer_ok w (put_up st occs_up) /\ only_adds w0 P (put_up st occs_up) /\
  row_up (fst (put_up st occs_up)) = occs_up /\
  row_dn (fst (put_up st occs_up)) = row_dn (fst st).
Proof.
  intros Hlen ((Hsys & Hlu & Hld) & Hadds).
  unfold put_up, assign_slice. cbn [fst snd row_up row_dn firstn].
  rewrite skipn_all, app_nil_r. cbn [app].
  refine (conj (conj _ (conj _ _)) (conj _ (conj _ _)));
    cbn [fst snd row_up row_dn]; auto.
Qed.

Lemma occ_up_array_spec (w : wavefunction) (occs_up : list nat) :
  In occs_up (occ_up_array w) ->
  length occs_up = nocc_up w /\ incl occs_up (seq 0 (nbasis w)) /\
  NoDup occs_up.
Proof.
  intros Hin. apply combinations_spec in Hin as (Hlen & Hincl & Hnd).
  auto using seq_NoDup.
Qed.

Lemma valid_seniority_spec (w : wavefunction) (s : Z) :
  invalid_seniority w s = false ->
  (smin w <= s <= smax w)%Z /\ (s mod 2 = smin w mod 2)%Z.
Proof.
  unfold invalid_seniority. intros H.
  apply orb_false_iff in H as [H Hpar]. apply orb_false_iff in H as [Hlo Hhi].
  apply Z.ltb_ge in Hlo. apply negb_false_iff, Z.eqb_eq in Hpar.
  destruct (Z.gtb_spec s (smax w)); [discriminate|]. lia.
Qed.

(** One pass of [for s in seniorities] on a legal seniority [s] adds only
    determinants with [s] singly occupied orbitals. *)
Lemma seniority_request_spec (w : wavefunction) (s : Z)
  (st : buffer * wavefunction) :
  nocc_dn w <= nocc_up w ->
  invalid_seniority w s = false ->
  buffer_ok w st ->
  let P := fun d => Z.of_nat (singly_occupied (nbasis w) d) = s in
  buffer_ok w (seniority_request st s) /\
  only_adds (snd st) P (seniority_request st s).
Proof.
  intros Hwf Hvalid Hok P.
  destruct (valid_seniority_spec _ _ Hvalid) as [Hbounds Hparity].
  unfold smin, smax in Hbounds, Hparity.
  assert (Hnb : nbasis (snd st) = nbasis w) by (destruct Hok as ((_&E&_)&_); exact E).
  assert (Hnu : nocc_up (snd st) = nocc_up w) by (destruct Hok as ((_&_&E&_)&_); exact E).
  assert (Hnd : nocc_dn (snd st) = nocc_dn w) by (destruct Hok as ((_&_&_&E)&_); exact E).
  assert (Harr : occ_up_array (snd st) = occ_up_array w)
    by (unfold occ_up_array; rewrite Hnb, Hnu; reflexivity).
  assert (Hstart : buffer_ok w st /\ only_adds (snd st) P st)
    by (split; [assumption | intros d Hd; auto]).
  unfold seniority_request. rewrite Harr, Hnb, Hnd.
  unfold nocc. rewrite Hnu, Hnd.
  set (pairs := ((Z.of_nat (nocc_up w + nocc_dn w) - s) / 2)%Z).
  assert (Hpairs : (2 * pairs = Z.of_nat (nocc_up w + nocc_dn w) - s)%Z).
  { unfold pairs. Z.div_mod_to_equations. lia. }
  destruct (Z.eqb_spec s 0) as [Hs0 | Hs0].
  { (* seniority zero *)
    assert (Heq : nocc_dn w = nocc_up w) by lia.
    apply fold_left_rule; [|exact Hstart].
    intros st1 occs_up Hin Hst1.
    destruct (occ_up_array_spec _ _ Hin) as (Hlen & Hincl & Hnodup).
    destruct (put_up_ok w (snd st) P st1 occs_up Hlen Hst1)
      as ((Hsys & Hlu & Hld) & Hadds & Hru & Hrd).
    unfold assign_slice. rewrite skipn_all. cbn [firstn app].
    rewrite Hru.
    destruct (put_up st1 occs_up) as [occs1 w1]. cbn [fst snd] in *.
    rewrite read_buffer
      by (destruct Hsys as (_&_&E1&E2); rewrite ?E1, ?E2; lia).
    split; [refine (conj _ (conj _ _)); cbn [fst snd row_up row_dn];
            rewrite ?app_nil_r; auto using same_system_insert|].
    eapply only_adds_insert; [eassumption|].
    unfold P.
    pose proof (singly_occupied_count (nbasis w) occs_up occs_up []
                  Hnodup Hnodup (NoDup_nil _) Hincl (incl_refl _)) as Hcount.
    rewrite app_nil_r in Hcount. rewrite Hcount; [simpl; lia|].
    intros i []. }
  destruct (Z.eqb_spec pairs (Z.of_nat (nocc_dn w))) as [Hall | Hnotall].
  { (* every spin-down electron is paired *)
    apply fold_left_rule; [|exact Hstart].
    intros st1 occs_up Hin Hst1.
    destruct (occ_up_array_spec _ _ Hin) as (Hlen & Hincl & Hnodup).
    destruct (put_up_ok w (snd st) P st1 occs_up Hlen Hst1)
      as (Hok1 & Hadds & Hru & Hrd).
    assert (HJ := put_dn_loop w (snd st) P occs_up [] 0
                    (Py.combinations occs_up (nocc_dn w))
                    (put_up st1 occs_up) Hwf (Nat.le_0_l _) eq_refl Hlen).
    cbv zeta in HJ. destruct HJ as (H1 & H2 & _); auto.
    intros src Hsrc.
    apply combinations_spec in Hsrc as (Hl & Hi & Hn).
    split; [lia|]. unfold P. cbn [app].
    pose proof (singly_occupied_count (nbasis w) occs_up src []
                  Hnodup (Hn Hnodup) (NoDup_nil _) Hincl Hi) as Hcount.
    rewrite app_nil_r in Hcount. rewrite Hcount; [simpl; lia|].
    intros i []. }
  destruct (Z.eqb_spec pairs 0) as [Hnone | Hsome].
  { (* no paired electron: excluded by the upper bound on [s] *)
    exfalso. lia. }
  (* some electrons paired, some not *)
  assert (Hp0 : (0 < pairs < Z.of_nat (nocc_dn w))%Z) by lia.
  apply fold_left_rule; [|exact Hstart].
  intros st1 occs_up Hin Hst1.
  destruct (occ_up_array_spec _ _ Hin) as (Hlen & Hincl & Hnodup).
  destruct (put_up_ok w (snd st) P st1 occs_up Hlen Hst1)
    as (Hok1 & Hadds & Hru & Hrd).
  destruct (setdiff1d_spec (nbasis w) occs_up) as [Hvn Hvout].
  match goal with
  | |- _ (fold_left ?f ?l ?x) /\ _ =>
      assert (HM : (fun st2 : buffer * wavefunction =>
                      buffer_ok w st2 /\ only_adds (snd st) P st2
                      /\ row_up (fst st2) = occs_up)
                     (fold_left f l x))
  end.
  { apply fold_left_rule; [|auto].
    intros st2 occs_i_dn Hi ((Hsys2 & Hlu2 & Hld2) & Hadds2 & Hru2).
    apply combinations_spec in Hi as (Hli & Hii & Hni).
    assert (HJ := put_dn_loop w (snd st) P occs_up occs_i_dn
                    (Z.to_nat pairs)
                    (Py.combinations (Py.setdiff1d (Py.arange (nbasis w)) occs_up)
                                     (nocc_dn w - Z.to_nat pairs))
                    (mk_buffer (row_up (fst st2))
                               (assign_slice (row_dn (fst st2)) 0
                                             (Z.to_nat pairs) occs_i_dn),
                     snd st2)
                    Hwf).
    cbv zeta in HJ. destruct HJ as (H1 & H2 & H3 & _); auto; try lia.
    - intros src Hsrc.
      apply combinations_spec in Hsrc as (Hl & Hi & Hn).
      split; [lia|]. unfold P.
      assert (Hout : forall i, In i src ->
                               In i (seq 0 (nbasis w)) /\ ~ In i occs_up)
        by (intros i Hi'; apply Hvout, Hi, Hi').
      rewrite (singly_occupied_count (nbasis w) occs_up occs_i_dn src
                 Hnodup (Hni Hnodup) (Hn Hvn) Hincl Hii Hout).
      lia.
    - unfold assign_slice. cbn [fst snd row_up row_dn firstn app].
      refine (conj (conj _ (conj _ _)) (conj _ (conj _ _)));
        cbn [fst snd row_up row_dn]; auto.
      + rewrite length_app, length_skipn. lia.
      + rewrite firstn_app, <- Hli, firstn_all, Nat.sub_diag. cbn [firstn].
        apply app_nil_r. }
  cbv beta in HM. tauto.
Qed.

(** C3: on a two-spin wave function, as soon as one requested seniority is
    out of bounds or of the wrong parity, wherever it stands in the request,
    [add_seniorities] raises the [ValueError] of the validation, an
    InvalidArgument error, and hands the wave function back as it was:
    nothing has been inserted. *)
Theorem add_seniorities_validates_first (junk : nat -> nat)
  (w : wavefunction) (seniorities : list Z) :
  kind w = fullci_wfn ->
  (exists s, In s seniorities /\
             (s < smin w \/ smax w < s \/ s mod 2 <> smin w mod 2)%Z) ->
  exists e,
    add_seniorities junk w seniorities = (w, Raised e) /\
    e = ValueError "invalid seniority number specified" /\
    InvalidArgument e.
Proof.
  intros Hkind (s & Hin & Hbad).
  exists (ValueError "invalid seniority number specified").
  split; [|split; [reflexivity | exact I]].
  unfold add_seniorities. rewrite Hkind.
  assert (E : existsb (invalid_seniority w) seniorities = true).
  { apply existsb_exists. exists s. split; [assumption|].
    unfold invalid_seniority.
    destruct (Z.ltb_spec s (smin w)); [reflexivity|].
    destruct (Z.gtb_spec s (smax w)); [reflexivity|].
    destruct (Z.eqb_spec (s mod 2) (smin w mod 2)); [lia | reflexivity]. }
  rewrite E. reflexivity.
Qed.

Lemma np_empty_ok (junk : nat -> nat) (w : wavefunction) :
  buffer_ok w (np_empty junk (nocc_up w), w).
Proof.
  unfold buffer_ok, np_empty. cbn [fst snd row_up row_dn].
  rewrite !length_map, !length_seq. auto using same_system_refl.
Qed.

(** C4: when [add_seniorities] returns on a two-spin wave function with
    [nocc_dn <= nocc_up], every requested seniority [s] lies between [smin]
    and [smax] with the parity of [smin], and the pass of the loop for [s]
    (after the passes for the seniorities requested before it) puts into the
    wave function only determinants with exactly [s] singly occupied
    orbitals. *)
Theorem add_seniorities_seniority (junk : nat -> nat) (w w' : wavefunction)
  (seniorities : list Z) :
  nocc_dn w <= nocc_up w ->
  add_seniorities junk w seniorities = (w', Returned) ->
  (forall s, In s seniorities ->
             (smin w <= s <= smax w)%Z /\ (s mod 2 = smin w mod 2)%Z) /\
  (forall pre s post,
      seniorities = pre ++ s :: post ->
      let before := fold_left seniority_request pre
                              (np_empty junk (nocc_up w), w) in
      forall d, In d (dets (snd (seniority_request before s))) ->
                In d (dets (snd before)) \/
                Z.of_nat (singly_occupied (nbasis w) d) = s) /\
  w' = snd (fold_left seniority_request seniorities
                      (np_empty junk (nocc_up w), w)).
Proof.
  intros Hwf Hrun. unfold add_seniorities in Hrun.
  destruct (kind w); try discriminate.
  destruct (existsb (invalid_seniority w) seniorities) eqn:Hex;
    [discriminate|].
  assert (Hvalid : forall s, In s seniorities -> invalid_seniority w s = false).
  { intros s Hs. destruct (invalid_seniority w s) eqn:E; [|reflexivity].
    assert (existsb (invalid_seniority w) seniorities = true)
      by (apply existsb_exists; eauto).
    congruence. }
  split; [intros s Hs; apply valid_seniority_spec; auto|].
  split; [|inversion Hrun; reflexivity].
  intros pre s post -> before d Hd.
  assert (Hbefore : buffer_ok w before).
  { unfold before. apply fold_left_rule; [|apply np_empty_ok].
    intros st x Hx Hst.
    apply seniority_request_spec; auto.
    apply Hvalid, in_or_app. auto. }
  assert (Hs : invalid_seniority w s = false)
    by (apply Hvalid, in_or_app; right; left; reflexivity).
  destruct (seniority_request_spec w s before Hwf Hs Hbefore) as [_ Hadds].
  apply Hadds, Hd.
Qed.

End SeniorityFacts.

(** ** The odometer loops halt *)

Section HaltingFacts.

Context {F : Type} {arith : Py.Arith F}.

Import Odometer Spec.

Lemma rank_lt_pow (B : nat) (l : list nat) :
  Forall (fun x => x < B) l -> rank B l < B ^ length l.
Proof.
  induction 1 as [|x l Hx Hl IH]; simpl; [lia|]. nia.
Qed.

Lemma lex_lt_cons (x y : nat) (a b : list nat) :
  lex_lt (x :: a) (y :: b) -> x < y \/ (x = y /\ lex_lt a b).
Proof.
  intros (i & Ha & Hb & Hagree & Hlt). destruct i as [|i]; simpl in *.
  - left. exact Hlt.
  - right. split; [apply (Hagree 0); lia|].
    exists i. repeat split; try lia.
    intros k Hk. apply (Hagree (S k)). lia.
Qed.

Lemma rank_lex (B : nat) (a : list nat) :
  forall b, length a = length b -> Forall (fun x => x < B) a ->
            lex_lt a b -> rank B a < rank B b.
Proof.
  induction a as [|x a IH]; intros [|y b] Hlen Hall Hlex;
    try discriminate.
  - destruct Hlex as (i & Hi & _). simpl in Hi. lia.
  - simpl in Hlen. inversion Hall as [|? ? Hx Ha]; subst.
    simpl. assert (Hl : length a = length b) by lia. rewrite <- Hl.
    pose proof (rank_lt_pow B a Ha) as Hr.
    apply lex_lt_cons in Hlex as [Hxy | [-> Hlex]].
    + assert ((x + 1) * B ^ length a <= y * B ^ length a)
        by (apply Nat.mul_le_mono_r; lia).
      lia.
    + specialize (IH b Hl Ha Hlex). lia.
Qed.

Lemma existsb_false_Forall (b : nat) (l : list nat) :
  existsb (fun i => b <=? i) l = false -> Forall (fun x => x < b) l.
Proof.
  intros H. apply Forall_forall. intros x Hx.
  destruct (Nat.lt_ge_cases x b) as [Hlt | Hge]; [assumption|].
  assert (existsb (fun i => b <=? i) l = true)
    by (apply existsb_exists; exists x; split; [assumption | apply Nat.leb_le; lia]).
  congruence.
Qed.

(** Once a run has stopped, more fuel changes nothing. *)
Lemma loop_stable (body : state -> state * ctl) (fuel extra : nat)
  (st : state) :
  snd (loop body fuel st) <> Diverging ->
  loop body (fuel + extra) st = loop body fuel st.
Proof.
  revert st. induction fuel as [|fuel IH]; intros st Hstop; simpl in *.
  - congruence.
  - destruct (body st) as [st' c]. destruct c; auto.
Qed.

Lemma loop_halts (body : state -> state * ctl) (I : state -> Prop)
  (mu : state -> nat) :
  (forall st st', I st -> body st = (st', Continue) ->
                  I st' /\ mu st' < mu st) ->
  forall fuel st, I st -> mu st < fuel ->
                  snd (loop body fuel st) <> Diverging.
Proof.
  intros Hstep. induction fuel as [|fuel IH]; intros st HI Hmu; [lia|].
  simpl. destruct (body st) as [st' c] eqn:Hb.
  destruct c; simpl; try discriminate.
  destruct (Hstep _ _ HI Hb) as [HI' Hlt]. apply IH; [assumption | lia].
Qed.

(** What a continuing pass does to the measure, given what it did to the
    variables: [st1] is the state between the test and the excitation. *)
Lemma step_decreases (w : wavefunction) (nu nt B : nat)
  (st st1 st' : state) :
  loop_inv w nu nt st ->
  Forall (fun x => x < B) (old_occs st) ->
  (st1 = reject st \/
   (new_occs st1 = new_occs st /\ j_electron st1 = (Z.of_nat nt - 1)%Z /\
    Forall (fun x => x < B) (new_occs st))) ->
  (0 <= j_electron st1)%Z ->
  old_occs st' = new_occs st1 -> j_electron st' = j_electron st1 ->
  lex_lt (old_occs st') (new_occs st') ->
  Forall (fun x => x < B) (old_occs st') /\
  measure B nt st' < measure B nt st.
Proof.
  intros [_ (Hln & _) (Hlo & _) Hjhi Hjlo Hord _] Hbound Hcase Hj1 Hold' Hj' Hlex.
  unfold measure.
  destruct (list_eq_dec Nat.eq_dec (new_occs st') (old_occs st')) as [E | _].
  { exfalso. rewrite E in Hlex. eapply lex_lt_irrefl; eassumption. }
  rewrite Hold', Hj'.
  destruct Hcase as [-> | (Hn1 & Hjn & Hnew)].
  - simpl in *. split; [assumption|].
    destruct (list_eq_dec Nat.eq_dec (new_occs st) (old_occs st)); lia.
  - rewrite Hn1, Hjn. split; [assumption|].
    destruct Hord as [[_ Heq] | Hlt].
    + rewrite Heq.
      destruct (list_eq_dec Nat.eq_dec (old_occs st) (old_occs st));
        [lia | congruence].
    + pose proof (rank_lex B _ _ (eq_trans Hlo (eq_sym Hln)) Hbound Hlt) as Hr.
      pose proof (rank_lt_pow B _ Hbound) as Hp. rewrite Hlo in Hp.
      assert (HR : B ^ nt - rank B (new_occs st) + 1
                   <= B ^ nt - rank B (old_occs st)) by lia.
      assert ((B ^ nt - rank B (new_occs st) + 1) * (nt + 1)
              <= (B ^ nt - rank B (old_occs st)) * (nt + 1))
        by (apply Nat.mul_le_mono_r; exact HR).
      lia.
Qed.

(** A continuing pass, seen from the state [st1] between the test and the
    excitation: the invariant is kept and the measure decreases. *)
Lemma continue_step (w w1 : wavefunction) (nu nt B : nat)
  (st st1 : state) (new2 : list nat) :
  nu <= nt ->
  loop_inv w nu nt st ->
  Forall (fun x => x < B) (old_occs st) ->
  (st1 = reject st \/
   (st1 = mk_state w1 (new_occs st) (old_occs st) (Z.of_nat nt - 1)
                   (accepted st ++ [new_occs st]) /\
    same_system w w1 /\ 0 < nt /\
    Forall (fun x => x < B) (new_occs st))) ->
  (0 <= j_electron st1)%Z ->
  excited (new_occs st1) (Z.to_nat (j_electron st1))
          (channel_end nu nt (Z.to_nat (j_electron st1))) new2 ->
  let st' := mk_state (wfn st1) new2 (new_occs st1) (j_electron st1)
                      (accepted st1) in
  (loop_inv w nu nt st' /\ Forall (fun x => x < B) (old_occs st')) /\
  measure B nt st' < measure B nt st.
Proof.
  intros Hnu Hinv Hbound Hcase Hj Hex st'.
  assert (Hmid : mid_inv w nu nt st1).
  { destruct Hcase as [-> | (-> & Hsys & Hnt & _)].
    - apply reject_rule. assumption.
    - apply accept_rule; assumption. }
  assert (Hinv' : loop_inv w nu nt st') by (apply excite_rule; assumption).
  assert (Hlex : lex_lt (old_occs st') (new_occs st')).
  { unfold st'. cbn [old_occs new_occs].
    destruct Hmid as [_ (Hlen & _) Hjhi _].
    eapply excited_lex_lt; [exact Hex | unfold channel_end; case_nat | lia]. }
  destruct (step_decreases w nu nt B st st1 st' Hinv Hbound) as [Hb Hm];
    auto.
  destruct Hcase as [-> | (-> & _ & _ & Hnew)]; [left; reflexivity|].
  right. auto.
Qed.

Lemma in_range_bound (v : spin) (w : wavefunction) (st : state) :
  loop_inv w (nocc_up w) (electrons v w) st ->
  out_of_range v st = Ok false ->
  Forall (fun x => x < index_bound v w) (new_occs st).
Proof.
  intros Hinv Hout.
  destruct (loop_inv_channels v w st Hinv) as (_ & Hcheck & _).
  specialize (Hcheck false Hout). symmetry in Hcheck.
  apply existsb_false_Forall in Hcheck.
  eapply Forall_impl; [|exact Hcheck]. simpl. unfold index_bound. lia.
Qed.

Lemma aufbau_bound (v : spin) (w : wavefunction) :
  Forall (fun x => x < index_bound v w) (old_occs (init_of v w)).
Proof.
  apply Forall_forall. intros x Hx. unfold index_bound.
  destruct v; simpl in *.
  - unfold Py.arange in Hx. apply in_seq in Hx. lia.
  - rewrite two_spin_aufbau_eq in Hx. unfold nocc.
    apply in_app_or in Hx as [Hx | Hx]; apply in_seq in Hx; lia.
Qed.

Lemma one_spin_step (w : wavefunction) (nodes : list F) (t thr : F)
  (st st' : state) :
  let nu := nocc_up w in
  let B := index_bound one_spin w in
  loop_inv w nu nu st /\ Forall (fun x => x < B) (old_occs st) ->
  one_spin_body nodes t thr st = (st', Continue) ->
  (loop_inv w nu nu st' /\ Forall (fun x => x < B) (old_occs st')) /\
  measure B nu st' < measure B nu st.
Proof.
  intros nu B [Hinv Hbound] Hbody. unfold one_spin_body in Hbody.
  destruct (one_spin_test nodes t thr st) as [st1|e] eqn:Htest;
    [|discriminate].
  destruct (Z.ltb_spec (j_electron st1) 0) as [Hneg | Hnn]; [discriminate|].
  inversion Hbody; subst st'. clear Hbody.
  apply one_spin_test_Ok in Htest as [Hpos Hcases].
  assert (Hnu : nocc_up (wfn st) = nu) by (destruct Hinv as [(_&_&E&_)]; exact E).
  assert (Hlen : length (new_occs st) = nu) by (destruct Hinv as [_ (E&_)]; exact E).
  assert (Hcase : st1 = reject st \/
                  (st1 = mk_state (add_occs_one (wfn st) (new_occs st))
                                  (new_occs st) (old_occs st)
                                  (Z.of_nat nu - 1)
                                  (accepted st ++ [new_occs st]) /\
                   same_system w (add_occs_one (wfn st) (new_occs st)) /\
                   0 < nu /\ Forall (fun x => x < B) (new_occs st))).
  { destruct Hcases as [-> | (q & Hout & _ & _ & ->)]; [auto|].
    right. rewrite Hnu. split; [reflexivity|].
    split; [apply same_system_insert; destruct Hinv; assumption|].
    split; [lia|].
    apply (in_range_bound one_spin w st); assumption. }
  assert (Hmid : mid_inv w nu nu st1).
  { destruct Hcase as [-> | (-> & Hsys & Hnt & _)].
    - apply reject_rule. assumption.
    - apply accept_rule; assumption. }
  assert (Hnu1 : nocc_up (wfn st1) = nu)
    by (destruct Hmid as [(_&_&E&_)]; exact E).
  pose proof (one_spin_excite_excited st1) as Hex. rewrite Hnu1 in Hex.
  apply (continue_step w _ nu nu B st st1 _ (Nat.le_refl _) Hinv Hbound Hcase Hnn).
  unfold channel_end.
  replace (if Z.to_nat (j_electron st1) <? nu then nu else nu) with nu
    by (destruct (Z.to_nat (j_electron st1) <? nu); reflexivity).
  apply Hex.
  - destruct Hmid as [_ (E1&_)]. exact E1.
  - destruct Hmid. lia.
Qed.

Lemma two_spin_step (w : wavefunction) (nodes : list F) (t thr_up thr_dn : F)
  (st st' : state) :
  let nu := nocc_up w in
  let nt := nocc w in
  let B := index_bound two_spin w in
  loop_inv w nu nt st /\ Forall (fun x => x < B) (old_occs st) ->
  two_spin_body nodes t thr_up thr_dn st = (st', Continue) ->
  (loop_inv w nu nt st' /\ Forall (fun x => x < B) (old_occs st')) /\
  measure B nt st' < measure B nt st.
Proof.
  intros nu nt B [Hinv Hbound] Hbody. unfold two_spin_body in Hbody.
  destruct (two_spin_test nodes t thr_up thr_dn st) as [st1|e] eqn:Htest;
    [|discriminate].
  destruct (Z.ltb_spec (j_electron st1) 0) as [Hneg | Hnn]; [discriminate|].
  inversion Hbody; subst st'. clear Hbody.
  apply two_spin_test_Ok in Htest as [Hpos Hcases].
  assert (Hsame : forall s, same_system w s -> nocc_up s = nu /\ nocc s = nt).
  { intros s (_ & _ & E1 & E2). unfold nt, nocc. rewrite E1, E2. auto. }
  destruct (Hsame (wfn st)) as (Hnu & Hnt); [destruct Hinv; assumption|].
  assert (Hlen : length (new_occs st) = nt) by (destruct Hinv as [_ (E&_)]; exact E).
  assert (Hle : nu <= nt) by (unfold nu, nt, nocc; lia).
  assert (Hcase : st1 = reject st \/
                  (st1 = mk_state (add_occs_two (wfn st) (new_occs st))
                                  (new_occs st) (old_occs st)
                                  (Z.of_nat nt - 1)
                                  (accepted st ++ [new_occs st]) /\
                   same_system w (add_occs_two (wfn st) (new_occs st)) /\
                   0 < nt /\ Forall (fun x => x < B) (new_occs st))).
  { destruct Hcases as [-> | (q_up & q_dn & Hout & _ & _ & _ & _ & ->)];
      [auto|].
    right. rewrite Hnt. split; [reflexivity|].
    split; [apply same_system_insert; destruct Hinv; assumption|].
    split; [lia|].
    apply (in_range_bound two_spin w st); assumption. }
  assert (Hmid : mid_inv w nu nt st1).
  { destruct Hcase as [-> | (-> & Hsys & Hpos' & _)].
    - apply reject_rule. assumption.
    - apply accept_rule; assumption. }
  destruct (Hsame (wfn st1)) as (Hnu1 & Hnt1); [destruct Hmid; assumption|].
  pose proof (two_spin_excite_excited st1) as Hex. rewrite Hnu1, Hnt1 in Hex.
  apply (continue_step w _ nu nt B st st1 _ Hle Hinv Hbound Hcase Hnn).
  apply Hex.
  - destruct Hmid as [_ (E1&_)]. exact E1.
  - destruct Hmid. lia.
Qed.

(** X1: Both odometer selectors halt: some amount of fuel brings the run to a
    return or to an exception, and more fuel gives the same run. *)
Theorem odometer_halts (v : spin) (w : wavefunction) (nodes : list F)
  (t p : F) :
  exists fuel,
    snd (odometer v fuel w nodes t p) <> Diverging /\
    forall extra,
      odometer v (fuel + extra) w nodes t p = odometer v fuel w nodes t p.
Proof.
  set (B := index_bound v w). set (nt := electrons v w).
  exists (S (measure B nt (init_of v w))).
  pose proof (aufbau_bound v w) as Hb0.
  destruct v; simpl in *.
  - unfold _odometer_one_spin.
    destruct (neglected_cost _ _ _ _) as [thr|e];
      [|split; [discriminate | reflexivity]].
    assert (Hstop : snd (loop (one_spin_body nodes t thr)
                              (S (measure B nt (one_spin_init w)))
                              (one_spin_init w)) <> Diverging).
    { apply (loop_halts _
               (fun st => loop_inv w (nocc_up w) (nocc_up w) st /\
                          Forall (fun x => x < B) (old_occs st))
               (measure B nt)).
      - intros st st'. apply one_spin_step.
      - split; [apply one_spin_init_inv | exact Hb0].
      - lia. }
    split; [exact Hstop|]. intros extra.
    apply (loop_stable _ (S _) extra). exact Hstop.
  - unfold _odometer_two_spin.
    destruct (neglected_cost _ _ _ (up_channel _ _)) as [thr_up|e];
      [|split; [discriminate | reflexivity]].
    destruct (neglected_cost _ _ _ (dn_channel _ _)) as [thr_dn|e];
      [|split; [discriminate | reflexivity]].
    assert (Hstop : snd (loop (two_spin_body nodes t thr_up thr_dn)
                              (S (measure B nt (two_spin_init w)))
                              (two_spin_init w)) <> Diverging).
    { apply (loop_halts _
               (fun st => loop_inv w (nocc_up w) (nocc w) st /\
                          Forall (fun x => x < B) (old_occs st))
               (measure B nt)).
      - intros st st'. apply two_spin_step.
      - split; [apply two_spin_init_inv | exact Hb0].
      - lia. }
    split; [exact Hstop|]. intros extra.
    apply (loop_stable _ (S _) extra). exact Hstop.
Qed.

(** X2: [add_gkci] halts as well: in mode ["cntsp"] the table is complete after
    at most [nbasis] passes, and the selector halts. *)
Theorem add_gkci_halts (w : wavefunction) (t p : F) (mode : mode_arg)
  (node_dim : option Z) :
  exists fuel, snd (add_gkci fuel w t p mode node_dim) <> Diverging.
Proof.
  unfold add_gkci.
  destruct (gkci_nodes w mode node_dim) as [[nodes0|]|e] eqn:Hnodes.
  - destruct (kind w).
    + destruct (odometer_halts one_spin w (firstn (nbasis w) nodes0) t p)
        as (fuel & Hstop & _).
      exists fuel. simpl in Hstop.
      destruct (_odometer_one_spin _ _ _ _ _). exact Hstop.
    + destruct (odometer_halts two_spin w (firstn (nbasis w) nodes0) t p)
        as (fuel & Hstop & _).
      exists fuel. simpl in Hstop.
      destruct (_odometer_two_spin _ _ _ _ _). exact Hstop.
    + destruct (odometer_halts one_spin w (firstn (nbasis w) nodes0) t p)
        as (fuel & Hstop & _).
      exists fuel. simpl in Hstop.
      destruct (_odometer_one_spin _ _ _ _ _). exact Hstop.
    + exists 0. discriminate.
  - exfalso. destruct mode as [name|costs]; simpl in Hnodes; [|discriminate].
    destruct (cntsp_loop_spec (nbasis w) (nbasis w) [] 1) as (K & HK & _);
      [lia | simpl; lia |].
    unfold cntsp_nodes in Hnodes. rewrite HK in Hnodes.
    repeat match type of Hnodes with
           | (if ?c then _ else _) = _ => destruct c; try discriminate
           end.
  - exists 0. discriminate.
Qed.

End HaltingFacts.

(** ** More on the odometer selector *)

Section SelectorFacts.

Context {F : Type} {arith : Py.Arith F}.

Import Odometer Spec.

Lemma sorted_irrefl_NoDup {A : Type} (R : A -> A -> Prop) (l : list A) :
  (forall x, ~ R x x) -> StronglySorted R l -> NoDup l.
Proof.
  intros Hirr. induction 1 as [|a l Hs IH Ha]; constructor; auto.
  intros Hin. rewrite Forall_forall in Ha. apply (Hirr a). auto.
Qed.

Lemma odometer_log_sorted (v : spin) (fuel : nat) (w : wavefunction)
  (nodes : list F) (t p : F) :
  StronglySorted lex_lt (accepted (fst (odometer v fuel w nodes t p))).
Proof.
  destruct v; simpl.
  - destruct (neglected_cost nodes t p (Py.arange (nocc_up w)))
      as [thr|e] eqn:Hthr.
    + apply (one_spin_run_log fuel w nodes t p thr Hthr).
    + unfold _odometer_one_spin.
      change (new_occs (one_spin_init w)) with (Py.arange (nocc_up w)).
      rewrite Hthr. constructor.
  - destruct (neglected_cost nodes t p (up_channel w (two_spin_aufbau w)))
      as [thr_up|e] eqn:Hu.
    2:{ unfold _odometer_two_spin.
        change (new_occs (two_spin_init w)) with (two_spin_aufbau w).
        rewrite Hu. constructor. }
    destruct (neglected_cost nodes t p (dn_channel w (two_spin_aufbau w)))
      as [thr_dn|e] eqn:Hd.
    2:{ unfold _odometer_two_spin.
        change (new_occs (two_spin_init w)) with (two_spin_aufbau w).
        rewrite Hu, Hd. constructor. }
    apply (two_spin_run_log fuel w nodes t p thr_up thr_dn Hu Hd).
Qed.

(** X3: Neither odometer selector passes the same occupation array to
    [add_occs] twice: in both variants the arrays accepted come in strictly
    increasing lexicographic order, hence are pairwise distinct. *)
Theorem odometer_accepts_once (v : spin) (fuel : nat) (w : wavefunction)
  (nodes : list F) (t p : F) :
  StronglySorted lex_lt (accepted (fst (odometer v fuel w nodes t p))) /\
  NoDup (accepted (fst (odometer v fuel w nodes t p))).
Proof.
  pose proof (odometer_log_sorted v fuel w nodes t p) as Hs.
  split; [exact Hs|].
  eapply sorted_irrefl_NoDup; [exact lex_lt_irrefl | exact Hs].
Qed.

Lemma in_range_strict (v : spin) (w : wavefunction) (st : state) :
  loop_inv w (nocc_up w) (electrons v w) st ->
  out_of_range v st = Ok false ->
  Forall (fun x => x < nbasis w) (new_occs st).
Proof.
  intros Hinv Hout.
  destruct (loop_inv_channels v w st Hinv) as (_ & Hcheck & _).
  specialize (Hcheck false Hout). symmetry in Hcheck.
  apply existsb_false_Forall. exact Hcheck.
Qed.

Lemma one_spin_log_in_range (fuel : nat) (w : wavefunction) (nodes : list F)
  (t thr : F) :
  Forall (Forall (fun x => x < nbasis w))
         (accepted (fst (loop (one_spin_body nodes t thr) fuel
                              (one_spin_init w)))).
Proof.
  apply (loop_rule (one_spin_body nodes t thr)
           (fun st => (loop_inv w (nocc_up w) (nocc_up w) st /\
                       log_inv w (good_one nodes t thr (nocc_up w))
                               (fun occs => (occs, [])) st) /\
                      Forall (Forall (fun x => x < nbasis w)) (accepted st))
           (fun st => Forall (Forall (fun x => x < nbasis w)) (accepted st))).
  - intros st [_ H]. exact H.
  - intros st st' c [Hinv Hrange] Hbody.
    destruct (one_spin_body_inv _ _ _ _ _ _ _ Hinv Hbody) as [_ HC].
    assert (Hacc : Forall (Forall (fun x => x < nbasis w)) (accepted st')).
    { unfold one_spin_body in Hbody.
      destruct (one_spin_test nodes t thr st) as [st1|e] eqn:Htest.
      2:{ inversion Hbody; subst. exact Hrange. }
      assert (H1 : Forall (Forall (fun x => x < nbasis w)) (accepted st1)).
      { apply one_spin_test_Ok in Htest as [_ [-> | (q & Hout & _ & _ & ->)]];
          [exact Hrange|].
        cbn [accepted]. apply Forall_app. split; [exact Hrange|].
        constructor; [|constructor].
        apply (in_range_strict one_spin w st); [apply Hinv | exact Hout]. }
      destruct (j_electron st1 <? 0)%Z; inversion Hbody; subst; exact H1. }
    split; [exact Hacc|]. intros Hc. split; [apply HC, Hc | exact Hacc].
  - split; [split; [apply one_spin_init_inv | apply log_inv_init; reflexivity]|].
    constructor.
Qed.

Lemma two_spin_log_in_range (fuel : nat) (w : wavefunction) (nodes : list F)
  (t thr_up thr_dn : F) :
  Forall (Forall (fun x => x < nbasis w))
         (accepted (fst (loop (two_spin_body nodes t thr_up thr_dn) fuel
                              (two_spin_init w)))).
Proof.
  apply (loop_rule (two_spin_body nodes t thr_up thr_dn)
           (fun st => (loop_inv w (nocc_up w) (nocc w) st /\
                       log_inv w (good_two nodes t thr_up thr_dn
                                           (nocc_up w) (nocc w))
                               (fun occs =>
                                  (firstn (nocc_up w) occs,
                                   firstn (nocc_dn w)
                                          (skipn (nocc_up w) occs))) st) /\
                      Forall (Forall (fun x => x < nbasis w)) (accepted st))
           (fun st => Forall (Forall (fun x => x < nbasis w)) (accepted st))).
  - intros st [_ H]. exact H.
  - intros st st' c [Hinv Hrange] Hbody.
    destruct (two_spin_body_inv _ _ _ _ _ _ _ _ Hinv Hbody) as [_ HC].
    assert (Hacc : Forall (Forall (fun x => x < nbasis w)) (accepted st')).
    { unfold two_spin_body in Hbody.
      destruct (two_spin_test nodes t thr_up thr_dn st) as [st1|e] eqn:Htest.
      2:{ inversion Hbody; subst. exact Hrange. }
      assert (H1 : Forall (Forall (fun x => x < nbasis w)) (accepted st1)).
      { apply two_spin_test_Ok in Htest
          as [_ [-> | (q_up & q_dn & Hout & _ & _ & _ & _ & ->)]];
          [exact Hrange|].
        cbn [accepted]. apply Forall_app. split; [exact Hrange|].
        constructor; [|constructor].
        apply (in_range_strict two_spin w st); [apply Hinv | exact Hout]. }
      destruct (j_electron st1 <? 0)%Z; inversion Hbody; subst; exact H1. }
    split; [exact Hacc|]. intros Hc. split; [apply HC, Hc | exact Hacc].
  - split; [split; [apply two_spin_init_inv | apply log_inv_init; reflexivity]|].
    constructor.
Qed.

(** X4: Every occupation array a selector accepts is a well-formed determinant
    of the wave function: it has one entry per electron, each spin channel is
    strictly increasing, and every orbital index is below [nbasis]. *)
Theorem odometer_accepts_determinants (v : spin) (fuel : nat)
  (w : wavefunction) (nodes : list F) (t p : F) (occs : list nat) :
  In occs (accepted (fst (odometer v fuel w nodes t p))) ->
  length occs = electrons v w /\
  Forall (StronglySorted lt) (channels v w occs) /\
  Forall (fun i => i < nbasis w) occs.
Proof.
  destruct v; simpl; intros Hin.
  - destruct (neglected_cost nodes t p (Py.arange (nocc_up w)))
      as [thr|e] eqn:Hthr.
    2:{ unfold _odometer_one_spin in Hin.
        change (new_occs (one_spin_init w)) with (Py.arange (nocc_up w)) in Hin.
        rewrite Hthr in Hin. destruct Hin. }
    destruct (one_spin_run_log fuel w nodes t p thr Hthr) as [_ Hgood _ _].
    rewrite Forall_forall in Hgood.
    destruct (Hgood occs Hin) as ((Hlen & Hup & _) & _).
    split; [exact Hlen|]. split.
    + repeat constructor. apply incr_on_sorted. rewrite Hlen. exact Hup.
    + pose proof (one_spin_log_in_range fuel w nodes t thr) as Hr.
      unfold _odometer_one_spin in Hin.
      change (new_occs (one_spin_init w)) with (Py.arange (nocc_up w)) in Hin.
      rewrite Hthr in Hin. rewrite Forall_forall in Hr. apply Hr, Hin.
  - destruct (neglected_cost nodes t p (up_channel w (two_spin_aufbau w)))
      as [thr_up|e] eqn:Hu.
    2:{ unfold _odometer_two_spin in Hin.
        change (new_occs (two_spin_init w)) with (two_spin_aufbau w) in Hin.
        rewrite Hu in Hin. destruct Hin. }
    destruct (neglected_cost nodes t p (dn_channel w (two_spin_aufbau w)))
      as [thr_dn|e] eqn:Hd.
    2:{ unfold _odometer_two_spin in Hin.
        change (new_occs (two_spin_init w)) with (two_spin_aufbau w) in Hin.
        rewrite Hu, Hd in Hin. destruct Hin. }
    destruct (two_spin_run_log fuel w nodes t p thr_up thr_dn Hu Hd)
      as [_ Hgood _ _].
    rewrite Forall_forall in Hgood.
    destruct (Hgood occs Hin) as ((Hlen & Hup & Hdn) & _).
    split; [exact Hlen|]. split.
    + constructor; [|constructor; [|constructor]].
      * apply incr_on_firstn; [unfold nocc in Hlen; lia | exact Hup].
      * apply incr_on_skipn. rewrite Hlen. exact Hdn.
    + pose proof (two_spin_log_in_range fuel w nodes t thr_up thr_dn) as Hr.
      unfold _odometer_two_spin in Hin.
      change (new_occs (two_spin_init w)) with (two_spin_aufbau w) in Hin.
      rewrite Hu, Hd in Hin. rewrite Forall_forall in Hr. apply Hr, Hin.
Qed.

(** *** Runs that insert nothing *)

Lemma cost_nil (nodes : list F) (t : F) (q : F) : cost nodes t [] <> Ok q.
Proof. discriminate. Qed.

Lemma two_spin_accept_needs (nodes : list F) (t thr_up thr_dn : F)
  (st st1 : state) :
  two_spin_test nodes t thr_up thr_dn st = Ok st1 ->
  st1 = reject st \/
  (Nat.even (length (new_occs st)) = true /\
   up_channel (wfn st) (new_occs st) <> [] /\
   dn_channel (wfn st) (new_occs st) <> []).
Proof.
  unfold two_spin_test. intros Ht.
  apply bind_Ok in Ht as (out & Hout & Ht).
  destruct out; [inversion Ht; auto|].
  apply bind_Ok in Ht as (q_up & Hqu & Ht).
  apply bind_Ok in Ht as (q_dn & Hqd & Ht).
  destruct (Py.less q_up thr_up && Py.less q_dn thr_dn);
    [|inversion Ht; auto].
  destruct (Nat.even (length (new_occs st))); [|discriminate].
  right. split; [reflexivity|].
  split; intros E; rewrite E in *; discriminate.
Qed.

(** X5: The two-spin selector inserts only when both spin channels hold an
    electron and the number of electrons is even: with an odd number of
    electrons (the reshape of the array to two rows fails) or an empty
    channel (its maximum node does not exist) no pass of the loop accepts,
    and the wave function ends as it began. *)
Theorem two_spin_needs_even_pairs (fuel : nat) (w : wavefunction)
  (nodes : list F) (t p : F) :
  Nat.even (nocc w) = false \/ nocc_up w = 0 \/ nocc_dn w = 0 ->
  accepted (fst (_odometer_two_spin fuel w nodes t p)) = [] /\
  wfn (fst (_odometer_two_spin fuel w nodes t p)) = w.
Proof.
  intros Hodd. unfold _odometer_two_spin.
  destruct (neglected_cost _ _ _ (up_channel _ _)) as [thr_up|e];
    [|split; reflexivity].
  destruct (neglected_cost _ _ _ (dn_channel _ _)) as [thr_dn|e];
    [|split; reflexivity].
  apply (loop_rule (two_spin_body nodes t thr_up thr_dn)
           (fun st => (loop_inv w (nocc_up w) (nocc w) st /\
                       log_inv w (good_two nodes t thr_up thr_dn
                                           (nocc_up w) (nocc w))
                               (fun occs =>
                                  (firstn (nocc_up w) occs,
                                   firstn (nocc_dn w)
                                          (skipn (nocc_up w) occs))) st) /\
                      accepted st = [] /\ wfn st = w)
           (fun st => accepted st = [] /\ wfn st = w)).
  - intros st [_ H]. exact H.
  - intros st st' c [Hinv [Hacc Hw]] Hbody.
    destruct (two_spin_body_inv _ _ _ _ _ _ _ _ Hinv Hbody) as [_ HC].
    assert (Hsame : accepted st' = [] /\ wfn st' = w).
    { unfold two_spin_body in Hbody.
      destruct (two_spin_test nodes t thr_up thr_dn st) as [st1|e] eqn:Htest.
      2:{ inversion Hbody; subst. auto. }
      assert (H1 : st1 = reject st).
      { apply two_spin_accept_needs in Htest as [E | (Heven & Hup & Hdn)];
          [exact E | exfalso].
        destruct Hinv as [[_ (Hlen & _) _ _ _ _ _] _].
        rewrite Hw in Hup, Hdn. unfold up_channel, dn_channel in Hup, Hdn.
        destruct Hodd as [Ho | [Hu0 | Hd0]].
        - rewrite Hlen in Heven. congruence.
        - rewrite Hu0 in Hup. apply Hup. reflexivity.
        - apply Hdn. apply skipn_all2. rewrite Hlen. unfold nocc. lia. }
      subst st1.
      destruct (j_electron (reject st) <? 0)%Z; inversion Hbody; subst;
        simpl; auto. }
    split; [exact Hsame|]. intros Hc. split; [apply HC, Hc | exact Hsame].
  - split; [split; [apply two_spin_init_inv | apply log_inv_init; reflexivity]|].
    split; reflexivity.
Qed.

(** *** Node tables that are too short *)

Lemma take_in_range (nodes : list F) (l : list nat) (r : list F) :
  Py.take nodes l = Ok r -> Forall (fun i => i < length nodes) l.
Proof.
  revert r. induction l as [|i l IH]; simpl; intros r Hr; [constructor|].
  destruct (nth_error nodes i) as [q|] eqn:Hq; [|discriminate].
  apply bind_Ok in Hr as (qs & Hqs & _).
  constructor; [|eapply IH; eassumption].
  apply nth_error_Some. congruence.
Qed.

Lemma neglected_cost_short (nodes : list F) (t p : F) (n : nat) :
  nodes = [] \/ length nodes < n ->
  neglected_cost nodes t p (seq 0 n) = Err IndexError.
Proof.
  intros Hshort.
  destruct (neglected_cost nodes t p (seq 0 n)) as [thr|e] eqn:Hn.
  - exfalso. unfold neglected_cost in Hn.
    apply bind_Ok in Hn as (ns & Hns & Hn).
    apply bind_Ok in Hn as (last & Hlast & _).
    apply get_Ok_nth in Hlast as (k & Hk & _).
    apply take_in_range in Hns. rewrite Forall_forall in Hns.
    destruct Hshort as [-> | Hlt]; [simpl in Hk; lia|].
    specialize (Hns (length nodes)).
    assert (length nodes < length nodes); [|lia].
    apply Hns. apply in_seq. lia.
  - f_equal. unfold neglected_cost in Hn.
    apply bind_Err in Hn as [Hn | (ns & _ & Hn)];
      [eapply take_Err; eassumption|].
    apply bind_Err in Hn as [Hn | (x & _ & Hn)];
      [eapply get_Err; eassumption | discriminate].
Qed.

(** X6: A node table with no entry, or with fewer entries than spin-up
    electrons, stops either selector before its loop: the call raises
    [IndexError] and the wave function is untouched. *)
Theorem odometer_short_table (v : spin) (fuel : nat) (w : wavefunction)
  (nodes : list F) (t p : F) :
  nodes = [] \/ length nodes < nocc_up w ->
  odometer v fuel w nodes t p = (init_of v w, Raised IndexError) /\
  wfn (init_of v w) = w.
Proof.
  intros Hshort. split; [|destruct v; reflexivity].
  destruct v; simpl.
  - unfold _odometer_one_spin.
    change (new_occs (one_spin_init w)) with (seq 0 (nocc_up w)).
    rewrite neglected_cost_short by assumption. reflexivity.
  - unfold _odometer_two_spin.
    change (new_occs (two_spin_init w)) with (two_spin_aufbau w).
    unfold up_channel. rewrite two_spin_aufbau_eq.
    rewrite firstn_app, length_seq, Nat.sub_diag, firstn_all2
      by (rewrite length_seq; lia).
    cbn [firstn]. rewrite app_nil_r.
    rewrite neglected_cost_short by assumption. reflexivity.
Qed.

(** *** Named modes *)

(** X7: With a mode given by name, [add_gkci] reaches a selector only for
    ["cntsp"] without [node_dim]; every other combination raises before the
    wave function is touched: [NotImplementedError] for ["gamma"] with
    [node_dim] and for ["cubic"] without, [ValueError] otherwise. *)
Theorem add_gkci_named_modes (fuel : nat) (w : wavefunction) (t p : F)
  (name : string) (node_dim : option Z) :
  name <> "cntsp" \/ node_dim <> None ->
  exists e,
    add_gkci fuel w t p (ModeStr name) node_dim = (w, Raised e) /\
    (e = NotImplementedError <->
     (name = "gamma" /\ node_dim <> None) \/
     (name = "cubic" /\ node_dim = None)) /\
    (e <> NotImplementedError -> is_ValueError e = true).
Proof.
  intros Hcase. unfold add_gkci, gkci_nodes.
  destruct (String.eqb_spec name "gamma") as [Hg | Hg];
    destruct node_dim as [d|]; cbn [negb andb is_given].
  - subst name. eexists. split; [reflexivity|]. split; [|congruence].
    split; [intros _; left; split; [reflexivity | discriminate] | reflexivity].
  - eexists. split; [reflexivity|]. split; [|reflexivity].
    split; [discriminate|].
    intros [[_ H] | [H _]]; [congruence | subst; discriminate].
  - eexists. split; [reflexivity|]. split; [|reflexivity].
    split; [discriminate|].
    intros [[H _] | [_ H]]; [contradiction | discriminate].
  - destruct (String.eqb_spec name "cntsp") as [Hc | Hc];
      [destruct Hcase; congruence|].
    destruct (String.eqb_spec name "cubic") as [Hq | Hq].
    + eexists. split; [reflexivity|]. split; [|congruence].
      split; [intros _; right; auto | reflexivity].
    + eexists. split; [reflexivity|]. split; [|reflexivity].
      split; [discriminate|].
      intros [[H _] | [H _]]; contradiction.
Qed.

End SelectorFacts.

(** ** More on the solver drivers *)

Section DriverFacts.

Import Solvers Spec.

Context {F : Type} `{Float F} {ham wfn : Type}.
Variable make_sparse_op : arg F ham wfn -> arg F ham wfn -> result (sparse_op F).

Lemma set_spec {A : Type} (l l' : list A) (i : Z) (v : A) :
  set l i v = Ok l' ->
  length l' = length l /\
  (0 <= position (length l) i < Z.of_nat (length l))%Z /\
  nth_error l' (Z.to_nat (position (length l) i)) = Some v /\
  forall k, k <> Z.to_nat (position (length l) i) ->
            nth_error l' k = nth_error l k.
Proof.
  unfold set, position.
  set (k := (if (i <? 0)%Z then (i + Z.of_nat (length l))%Z else i)).
  destruct ((0 <=? k)%Z && (k <? Z.of_nat (length l))%Z) eqn:Hb; [|discriminate].
  intros Hs. inversion Hs; subst l'.
  apply andb_true_iff in Hb as [H0 H1].
  apply Z.leb_le in H0. apply Z.ltb_lt in H1.
  split; [apply length_set_at|]. split; [lia|]. split.
  - apply nth_error_set_at_eq. lia.
  - intros j Hj. apply nth_error_set_at_neq. exact Hj.
Qed.

Lemma set_out_of_range {A : Type} (l : list A) (i : Z) (v : A) :
  (i < - Z.of_nat (length l) \/ Z.of_nat (length l) <= i)%Z ->
  set l i v = Err IndexError.
Proof.
  intros Hout. unfold set.
  destruct (Z.ltb_spec i 0) as [Hneg | Hnn].
  - destruct (Z.leb_spec 0 (i + Z.of_nat (length l))) as [Hle | Hgt];
      [lia | reflexivity].
  - destruct (Z.leb_spec 0 i) as [_ | Hgt]; [|lia].
    destruct (Z.ltb_spec i (Z.of_nat (length l))); [lia | reflexivity].
Qed.

Lemma get_out_of_range {A : Type} (l : list A) (i : Z) :
  (i < - Z.of_nat (length l) \/ Z.of_nat (length l) <= i)%Z ->
  Py.get l i = Err IndexError.
Proof.
  intros Hout. unfold Py.get.
  destruct (Z.ltb_spec i 0) as [Hneg | Hnn].
  - destruct (Z.leb_spec 0 (i + Z.of_nat (length l))) as [Hle | Hgt];
      [lia | reflexivity].
  - destruct (Z.leb_spec 0 i) as [_ | Hgt]; [|lia].
    destruct (Z.ltb_spec i (Z.of_nat (length l))); [lia | reflexivity].
Qed.

Lemma map2_spec (f : F -> F -> F) (a b : vec F) :
  length b = length a ->
  length (map2 f a b) = length a /\
  forall i ai, nth_error a i = Some ai ->
               exists bi, nth_error b i = Some bi /\
                          nth_error (map2 f a b) i = Some (f ai bi).
Proof.
  revert b. induction a as [|x a IH]; intros [|y b] Hlen; simpl in *;
    try discriminate.
  - split; [reflexivity|]. intros [|i] ai; discriminate.
  - destruct (IH b) as [Hl Hent]; [lia|]. split; [lia|].
    intros [|i] ai Hi; simpl in *.
    + inversion Hi; subst. eauto.
    + apply Hent. exact Hi.
Qed.

(** [a op= b]: the result has the entries of [a], each combined with the
    entry of [b] that broadcasting puts at its position. *)
Lemma inplace_spec (f : F -> F -> F) (a b c : vec F) :
  inplace f a b = Ok c ->
  length c = length a /\
  forall i ai, nth_error a i = Some ai ->
               exists bi, broadcast_entry (length a) b i = Some bi /\
                          nth_error c i = Some (f ai bi).
Proof.
  unfold inplace, broadcast_entry.
  destruct (Nat.eqb_spec (length b) (length a)) as [Hlen | Hlen].
  - intros Hc. inversion Hc; subst c. apply map2_spec. exact Hlen.
  - destruct b as [|y [|z b]]; try discriminate.
    intros Hc. inversion Hc; subst c. split; [apply length_map|].
    intros i ai Hi. exists y. split; [reflexivity|].
    rewrite nth_error_map, Hi. reflexivity.
Qed.

(** C5: whenever [solve_cepa0] returns, it has taken the [lgmres] branch,
    the solver having been given the CEPA0 operator, the right-hand side and
    the caller's [maxiter] and [tol]; with [x] the solution the solver
    returned, [g] the initial guess and [k] the position of [refind], the
    energy is the single number [(x[k] + g[k]) + ecore], and the coefficients
    are one row as long as [x] whose entry at [k] is exactly one and whose
    every other entry [i] is [x[i] + g[i]]. *)
Theorem solve_cepa0_result (sp : scipy F) (args : list (arg F ham wfn))
  (e0 : option F) (c0 : option (vec F)) (refind maxiter : Z) (tol : F)
  (lstsq : bool) (e : vec F) (cs : list (vec F)) :
  solve_cepa0 make_sparse_op sp args e0 c0 refind maxiter tol lstsq
  = Ok (e, cs) ->
  exists op g rhs x info row k xk gk,
    handle_inputs make_sparse_op args = Ok op /\
    initial_guess op e0 c0 refind = Ok g /\
    cepa0_rhs op g refind = Ok rhs /\
    lstsq = false /\
    lgmres_run sp
      (mk_linop (fun y => matvec_cepa0 op y refind)
                (Some (fun y => rmatvec_cepa0 op y refind))
                (shape op),
       rhs)
      [("maxiter", PInt maxiter); ("tol", PFloat tol); ("atol", PFloat tol)]
    = Ok (x, info) /\
    Z.of_nat k = position (length x) refind /\
    nth_error x k = Some xk /\
    broadcast_entry (length x) g k = Some gk /\
    e = [fadd (fadd xk gk) (ecore op)] /\
    cs = [row] /\
    length row = length x /\
    nth_error row k = Some fone /\
    Py.get row refind = Ok fone /\
    forall i xi, i <> k -> nth_error x i = Some xi ->
                 exists gi, broadcast_entry (length x) g i = Some gi /\
                            nth_error row i = Some (fadd xi gi).
Proof.
  unfold solve_cepa0. intros Hs.
  apply bind_Ok in Hs as (op & Hop & Hs).
  apply bind_Ok in Hs as (g & Hg & Hs).
  apply bind_Ok in Hs as (rhs & Hrhs & Hs).
  apply bind_Ok in Hs as ([x info] & Hres & Hs).
  apply bind_Ok in Hs as (c & Hc & Hs).
  apply bind_Ok in Hs as (v & Hv & Hs).
  apply bind_Ok in Hs as (row & Hrow & Hs).
  inversion Hs; subst e cs. clear Hs.
  destruct lstsq; [discriminate Hres|].
  change (lgmres_run sp (cepa0_lhs op refind, rhs)
            [("maxiter", PInt maxiter); ("tol", PFloat tol);
             ("atol", PFloat tol)] = Ok (x, info)) in Hres.
  cbn [fst] in Hc.
  pose proof (get_set _ _ _ _ Hrow) as Hone.
  apply inplace_spec in Hc as [Hlen Hent].
  apply get_Ok_nth in Hv as (k & Hk & Hck & Hpos).
  apply set_spec in Hrow as (Hlrow & _ & Hat & Hframe).
  fold (position (length c) refind) in Hpos.
  rewrite <- Hpos, Nat2Z.id in Hat, Hframe.
  destruct (nth_error x k) as [xk|] eqn:Hxk;
    [|apply nth_error_None in Hxk; lia].
  destruct (Hent k xk Hxk) as (gk & Hgk & Hck').
  assert (v = fadd xk gk) by congruence. subst v.
  exists op, g, rhs, x, info, row, k, xk, gk.
  rewrite Hlen in Hpos.
  repeat (split; [assumption || reflexivity || congruence|]).
  intros i xi Hi Hxi.
  destruct (Hent i xi Hxi) as (gi & Hgi & Hci).
  exists gi. split; [exact Hgi|]. rewrite Hframe by exact Hi. exact Hci.
Qed.

(** X9: The initial guess of [solve_cepa0] is the supplied guess divided by its
    reference entry (zeros when none is supplied) with the reference entry
    then overwritten: that entry holds [e0], or the diagonal element of the
    operator when [e0] is not given, and every other entry is untouched. *)
Theorem initial_guess_seeded (op : sparse_op F) (e0 : option F)
  (c0 : option (vec F)) (refind : Z) (g : vec F) :
  initial_guess op e0 c0 refind = Ok g ->
  exists base,
    match c0 with
    | None => base = repeat fzero (snd (shape op))
    | Some c => exists d, Py.get c refind = Ok d /\
                          base = map (fun x => fdiv x d) c
    end /\
    length g = length base /\
    Py.get g refind
    = Ok (match e0 with
          | None => get_element op refind refind
          | Some e => e
          end) /\
    forall k, k <> Z.to_nat (position (length base) refind) ->
              nth_error g k = nth_error base k.
Proof.
  unfold initial_guess. intros Hg.
  apply bind_Ok in Hg as (base & Hbase & Hset).
  exists base. split.
  - destruct c0 as [c|].
    + apply bind_Ok in Hbase as (d & Hd & Hbase). inversion Hbase. eauto.
    + inversion Hbase. reflexivity.
  - pose proof (get_set _ _ _ _ Hset) as Hget.
    apply set_spec in Hset as (Hlen & _ & _ & Hframe). auto.
Qed.

(** X10: A reference index outside the guess (outside the operator's dimension
    when no guess is supplied) makes [solve_cepa0] raise [IndexError] before
    any product or solver is used, whichever solver was chosen. *)
Theorem solve_cepa0_bad_refind (sp : scipy F) (args : list (arg F ham wfn))
  (op : sparse_op F) (e0 : option F) (c0 : option (vec F))
  (refind maxiter : Z) (tol : F) (lstsq : bool) :
  handle_inputs make_sparse_op args = Ok op ->
  let n := match c0 with
           | None => snd (shape op)
           | Some c => length c
           end in
  (refind < - Z.of_nat n \/ Z.of_nat n <= refind)%Z ->
  solve_cepa0 make_sparse_op sp args e0 c0 refind maxiter tol lstsq
  = Err IndexError.
Proof.
  intros Hop n Hout. unfold solve_cepa0. rewrite Hop. cbn [bind].
  unfold initial_guess. destruct c0 as [c|]; cbn [bind].
  - rewrite get_out_of_range by exact Hout. reflexivity.
  - rewrite set_out_of_range by (rewrite repeat_length; exact Hout).
    reflexivity.
Qed.

(** X11: [solve_cepa0] reads only the solution out of what [lgmres] returns: two
    solvers that raise alike and return the same solution, whatever
    convergence information comes with it, give the same result. *)
Theorem solve_cepa0_ignores_diagnostics (sp sp' : scipy F)
  (args : list (arg F ham wfn)) (e0 : option F) (c0 : option (vec F))
  (refind maxiter : Z) (tol : F) :
  (forall a kw,
      match lgmres_run sp a kw, lgmres_run sp' a kw with
      | Ok r, Ok r' => fst r = fst r'
      | Err e, Err e' => e = e'
      | _, _ => False
      end) ->
  solve_cepa0 make_sparse_op sp args e0 c0 refind maxiter tol false
  = solve_cepa0 make_sparse_op sp' args e0 c0 refind maxiter tol false.
Proof.
  intros Hsame. unfold solve_cepa0.
  destruct (handle_inputs make_sparse_op args) as [op|e]; [|reflexivity].
  cbn [bind].
  destruct (initial_guess op e0 c0 refind) as [g|e]; [|reflexivity].
  cbn [bind].
  destruct (cepa0_rhs op g refind) as [rhs|e]; [|reflexivity].
  cbn [bind]. rewrite !cepa0_solve_lgmres.
  match goal with
  | |- context [lgmres_run sp ?a ?kw] => specialize (Hsame a kw)
  end.
  destruct (lgmres_run sp _ _) as [r|e], (lgmres_run sp' _ _) as [r'|e'];
    try contradiction; cbn [bind].
  - rewrite Hsame. reflexivity.
  - subst. reflexivity.
Qed.

(** X12: Away from the one-dimensional case, what [solve] returns is what the
    eigensolver returned for a start vector of the operator's dimension (the
    first unit vector, or the supplied guess padded with zeros): the
    eigenvalues each shifted by [ecore], as many as were found, and the
    eigenvectors transposed into rows. *)
Theorem solve_general (sp : scipy F) (args : list (arg F ham wfn))
  (op : sparse_op F) (n : Z) (c0 : option (vec F)) (ncv : option Z)
  (maxiter : Z) (tol : F) (es : vec F) (cs : list (vec F)) :
  handle_inputs make_sparse_op args = Ok op ->
  snd (shape op) <> 1 ->
  solve make_sparse_op sp args n c0 ncv maxiter tol = Ok (es, cs) ->
  exists v0 es0 cs0,
    length v0 = snd (shape op) /\
    v0 = match c0 with
         | None => fone :: repeat fzero (snd (shape op) - 1)
         | Some c => c ++ repeat fzero (snd (shape op) - length c)
         end /\
    eigsh_run sp (mk_linop (matvec op) None (shape op))
      [("k", PInt n); ("v0", PVec v0);
       ("ncv", match ncv with Some v => PInt v | None => PNone end);
       ("maxiter", PInt maxiter); ("tol", PFloat tol); ("which", PStr "SA")]
    = Ok (es0, cs0) /\
    es = map (fun e => fadd e (ecore op)) es0 /\
    length es = length es0 /\
    cs = transpose (length es0) cs0 /\
    length cs = length es.
Proof.
  intros Hop Hdim Hs. unfold solve in Hs. rewrite Hop in Hs. cbn [bind] in Hs.
  destruct (Nat.eqb_spec (snd (shape op)) 1) as [E | _]; [contradiction|].
  apply bind_Ok in Hs as (v0 & Hv0 & Hs).
  apply bind_Ok in Hs as ([es0 cs0] & Hrun & Hs).
  inversion Hs; subst es cs. clear Hs.
  exists v0, es0, cs0.
  assert (Hv : length v0 = snd (shape op) /\
               v0 = match c0 with
                    | None => fone :: repeat fzero (snd (shape op) - 1)
                    | Some c => c ++ repeat fzero (snd (shape op) - length c)
                    end).
  { destruct c0 as [c|].
    - destruct (Nat.leb_spec (length c) (snd (shape op))); [|discriminate].
      inversion Hv0. rewrite length_app, repeat_length. split; [lia | reflexivity].
    - unfold set in Hv0. rewrite repeat_length in Hv0. cbn in Hv0.
      destruct (snd (shape op)) as [|m]; [discriminate|].
      cbn in Hv0.
      destruct (Z.pos (Pos.of_succ_nat m)) eqn:Em; try discriminate;
        try (cbn in Hv0; inversion Hv0; cbn;
             rewrite ?repeat_length, ?Nat.sub_0_r; split; reflexivity). }
  destruct Hv as [Hlen Hv].
  split; [exact Hlen|]. split; [exact Hv|]. split; [exact Hrun|].
  split; [reflexivity|]. split; [apply length_map|].
  split; [reflexivity|].
  unfold transpose. rewrite !length_map, length_seq. reflexivity.
Qed.

(** X13: A start vector that cannot be built stops [solve] before the
    eigensolver: a guess longer than the operator's dimension raises
    [ValueError], and without a guess an operator of dimension zero raises
    [IndexError]. *)
Theorem solve_bad_guess (sp : scipy F) (args : list (arg F ham wfn))
  (op : sparse_op F) (n : Z) (c0 : option (vec F)) (ncv : option Z)
  (maxiter : Z) (tol : F) :
  handle_inputs make_sparse_op args = Ok op ->
  match c0 with
  | None => snd (shape op) = 0
  | Some c => snd (shape op) < length c /\ snd (shape op) <> 1
  end ->
  solve make_sparse_op sp args n c0 ncv maxiter tol
  = Err (match c0 with
         | None => IndexError
         | Some _ => ValueError "negative dimensions are not allowed"
         end).
Proof.
  intros Hop Hbad. unfold solve. rewrite Hop. cbn [bind].
  destruct c0 as [c|].
  - destruct Hbad as [Hlong Hdim].
    destruct (Nat.eqb_spec (snd (shape op)) 1); [contradiction|].
    destruct (Nat.leb_spec (length c) (snd (shape op))); [lia | reflexivity].
  - rewrite Hbad. reflexivity.
Qed.

End DriverFacts.

(** ** The excitation dispatcher *)

Section ExcitationFacts.

Import Excitations.

Context {ref_t : Type}.
Variable add_excited_dets :
  wavefunction -> Z -> option ref_t -> wavefunction * option exn.

(** X14: [add_excitations] works through the levels in order and is not atomic: a
    request for the levels [l1 ++ l2] does what the request for [l1] does and
    then, from the wave function this leaves and only if it returned, what
    the request for [l2] does; when a level of [l1] raises, the levels
    before it have been applied and [l2] is never tried. *)
Theorem add_excitations_app (w : wavefunction) (l1 l2 : list Z)
  (ref : option ref_t) :
  add_excitations ref_t add_excited_dets w (l1 ++ l2) ref
  = match add_excitations ref_t add_excited_dets w l1 ref with
    | (w1, Returned) => add_excitations ref_t add_excited_dets w1 l2 ref
    | (w1, Raised e) => (w1, Raised e)
    | (w1, Diverging) => (w1, Diverging)
    end /\
  snd (add_excitations ref_t add_excited_dets w l1 ref) <> Diverging.
Proof.
  revert w. induction l1 as [|e l1 IH]; intros w; simpl.
  - split; [reflexivity | discriminate].
  - destruct (add_excited_dets w e ref) as [w' [ex|]].
    + split; [reflexivity | discriminate].
    + apply IH.
Qed.

End ExcitationFacts.

(** ** The seniority enumerator is complete *)

Section CompletenessFacts.

Import Seniority Spec.

Lemma same_occs_iff (a b : list nat) :
  same_occs a b = true <-> (forall x, In x a <-> In x b).
Proof.
  unfold same_occs. rewrite andb_true_iff, !forallb_forall. split.
  - intros [Hab Hba] x. split; intros Hx.
    + apply (occupies_In b x). apply Hab. exact Hx.
    + apply (occupies_In a x). apply Hba. exact Hx.
  - intros Hiff. split; intros x Hx.
    + apply (occupies_In b x). apply Hiff. exact Hx.
    + apply (occupies_In a x). apply Hiff. exact Hx.
Qed.

Lemma same_det_iff (d e : det) :
  same_det d e = true <->
  (forall x, In x (fst d) <-> In x (fst e)) /\
  (forall x, In x (snd d) <-> In x (snd e)).
Proof.
  unfold same_det. rewrite andb_true_iff, !same_occs_iff. reflexivity.
Qed.

Lemma stored_insert (w : wavefunction) (d : det) : stored (insert_det w d) d.
Proof.
  unfold stored, insert_det.
  destruct (existsb (same_det d) (dets w)) eqn:E.
  - apply existsb_exists in E as (d' & Hin & Hsame).
    exists d'. split; [exact Hin|].
    apply same_det_iff in Hsame as [H1 H2]. apply same_det_iff.
    split; intros x; [rewrite H1 | rewrite H2]; reflexivity.
  - exists d. split; [simpl; apply in_or_app; right; left; reflexivity|].
    apply same_det_iff. split; reflexivity.
Qed.

Lemma stored_insert_mono (w : wavefunction) (d d0 : det) :
  stored w d0 -> stored (insert_det w d) d0.
Proof.
  intros (d' & Hin & Hsame). exists d'. split; [|exact Hsame].
  unfold insert_det. destruct (existsb (same_det d) (dets w)); [exact Hin|].
  simpl. apply in_or_app. left. exact Hin.
Qed.

Lemma stored_same (w : wavefunction) (d e : det) :
  stored w d -> same_det d e = true -> stored w e.
Proof.
  intros (d' & Hin & Hsame) Hde. exists d'. split; [exact Hin|].
  apply same_det_iff in Hsame as [H1 H2]. apply same_det_iff in Hde as [H3 H4].
  apply same_det_iff.
  split; intros x; [rewrite H1, H3 | rewrite H2, H4]; reflexivity.
Qed.

(** A loop reaches the goal [Q] at the pass for [x] and keeps it. *)
Lemma fold_left_hit {S X : Type} (f : S -> X -> S) (I Q : S -> Prop)
  (l : list X) (x : X) :
  In x l ->
  (forall st y, In y l -> I st -> I (f st y)) ->
  (forall st, I st -> Q (f st x)) ->
  (forall st y, Q st -> Q (f st y)) ->
  forall st, I st -> Q (fold_left f l st).
Proof.
  intros Hin HI Hhit HQ. induction l as [|y l IH]; intros st Hst;
    [destruct Hin|].
  simpl. destruct Hin as [-> | Hin].
  - apply fold_left_rule; [intros; apply HQ; assumption|]. apply Hhit, Hst.
  - apply IH; [exact Hin | intros; apply HI; simpl; auto |].
    apply HI; simpl; auto.
Qed.

Lemma sorted_NoDup (l : list nat) : StronglySorted lt l -> NoDup l.
Proof.
  apply sorted_irrefl_NoDup. intros x. apply Nat.lt_irrefl.
Qed.

Lemma sorted_filter (f : nat -> bool) (l : list nat) :
  StronglySorted lt l -> StronglySorted lt (filter f l).
Proof.
  induction 1 as [|a l Hs IH Ha]; simpl; [constructor|].
  destruct (f a); [|exact IH]. constructor; [exact IH|].
  rewrite Forall_forall in *. intros x Hx. apply Ha.
  apply filter_In in Hx. tauto.
Qed.

Lemma sorted_seq (a n : nat) : StronglySorted lt (seq a n).
Proof.
  revert a. induction n as [|n IH]; intros a; simpl; constructor; [apply IH|].
  apply Forall_forall. intros x Hx. apply in_seq in Hx. lia.
Qed.

(** [combinations] yields every increasing selection from an increasing
    sequence. *)
Lemma combinations_complete (l : list nat) :
  StronglySorted lt l ->
  forall c, StronglySorted lt c -> incl c l ->
            In c (Py.combinations l (length c)).
Proof.
  induction 1 as [|a l Hs IH Ha]; intros c Hc Hincl.
  - destruct c as [|x c]; [left; reflexivity|].
    destruct (Hincl x (or_introl eq_refl)).
  - destruct c as [|x c]; [left; reflexivity|].
    apply StronglySorted_inv in Hc as [Hc Hx].
    rewrite Forall_forall in Ha, Hx.
    cbn [length Py.combinations]. apply in_or_app.
    destruct (Hincl x (or_introl eq_refl)) as [<- | Hxl].
    + left. apply in_map. apply IH; [exact Hc|].
      intros y Hy. destruct (Hincl y (or_intror Hy)) as [<- | Hyl];
        [|exact Hyl].
      specialize (Hx _ Hy). lia.
    + right. apply (IH (x :: c)).
      * constructor; [exact Hc | apply Forall_forall; exact Hx].
      * intros y [<- | Hy]; [exact Hxl|].
        destruct (Hincl y (or_intror Hy)) as [<- | Hyl]; [|exact Hyl].
        specialize (Ha _ Hxl). specialize (Hx _ Hy). lia.
Qed.

Lemma singly_occupied_ext (nb : nat) (up dn dn' : list nat) :
  (forall x, In x dn <-> In x dn') ->
  singly_occupied nb (up, dn) = singly_occupied nb (up, dn').
Proof.
  intros Hiff. unfold singly_occupied. cbn [fst snd]. f_equal.
  apply filter_ext. intros i. f_equal.
  destruct (occupies dn i) eqn:E1, (occupies dn' i) eqn:E2; try reflexivity.
  - apply occupies_In, Hiff, occupies_In in E1. congruence.
  - apply occupies_In, Hiff, occupies_In in E2. congruence.
Qed.

(** A determinant splits into the spin-down orbitals that are also spin-up,
    listed as the spin-up occupation lists them, and those that are not;
    its seniority fixes how many there are of each. *)
Lemma determinant_split (nb : nat) (up dn : list nat) :
  StronglySorted lt up -> StronglySorted lt dn ->
  Forall (fun i => i < nb) up -> Forall (fun i => i < nb) dn ->
  let paired := filter (occupies dn) up in
  let alone := filter (fun i => negb (occupies up i)) dn in
  StronglySorted lt paired /\ StronglySorted lt alone /\
  incl paired up /\
  incl alone (Py.setdiff1d (Py.arange nb) up) /\
  (forall x, In x (paired ++ alone) <-> In x dn) /\
  length paired + length alone = length dn /\
  singly_occupied nb (up, dn)
  = (length up - length paired) + length alone.
Proof.
  intros Hup Hdn Hru Hrd paired alone.
  rewrite Forall_forall in Hru, Hrd.
  assert (Hsp : StronglySorted lt paired) by (apply sorted_filter; exact Hup).
  assert (Hsa : StronglySorted lt alone) by (apply sorted_filter; exact Hdn).
  assert (Hip : incl paired up)
    by (intros x Hx; apply filter_In in Hx; tauto).
  assert (Hset : forall x, In x (paired ++ alone) <-> In x dn).
  { intros x. rewrite in_app_iff. unfold paired, alone.
    rewrite !filter_In, negb_true_iff. split.
    - intros [[_ Hx] | [Hx _]]; [apply occupies_In; exact Hx | exact Hx].
    - intros Hx. destruct (occupies up x) eqn:E.
      + left. split; [apply occupies_In; exact E | apply occupies_In; exact Hx].
      + right. auto. }
  assert (Hout : forall i, In i alone -> In i (seq 0 nb) /\ ~ In i up).
  { intros i Hi. apply filter_In in Hi as [Hi Hn].
    apply negb_true_iff in Hn. split; [apply in_seq; specialize (Hrd i Hi); lia|].
    intros Hu. apply occupies_In in Hu. congruence. }
  split; [exact Hsp|]. split; [exact Hsa|]. split; [exact Hip|].
  split.
  { intros x Hx. destruct (Hout x Hx) as [Hr Hn].
    unfold Py.setdiff1d, Py.arange. apply filter_In. split; [exact Hr|].
    apply negb_true_iff.
    destruct (existsb (Nat.eqb x) up) eqn:E; [|reflexivity].
    exfalso. apply Hn. apply occupies_In. exact E. }
  split; [exact Hset|]. split.
  { pose proof (filter_split_length (occupies up) dn) as Hsplit.
    fold alone in Hsplit.
    assert (length (filter (occupies up) dn) = length paired); [|lia].
    apply same_elements_length;
      [apply NoDup_filter, sorted_NoDup; exact Hdn
      | apply sorted_NoDup; exact Hsp |].
    intros x. unfold paired. rewrite !filter_In, !occupies_In. tauto. }
  rewrite (singly_occupied_ext nb up dn (paired ++ alone))
    by (intros x; symmetry; apply Hset).
  apply singly_occupied_count; auto using sorted_NoDup.
  intros x Hx. apply in_seq. specialize (Hru x Hx). lia.
Qed.

(** *** Following a determinant through the loops *)

Lemma only_adds_trivial (w0 : wavefunction) (st : buffer * wavefunction) :
  only_adds w0 (fun _ => True) st.
Proof. intros d _. right. exact I. Qed.

Lemma buffer_at_step (w : wavefunction) (up pre src : list nat) (lo : nat)
  (st : buffer * wavefunction) :
  nocc_dn w <= nocc_up w -> lo <= nocc_dn w ->
  length pre = lo -> length up = nocc_up w ->
  length src = nocc_dn w - lo ->
  buffer_at w up pre lo st ->
  buffer_at w up pre lo (put_dn_and_add lo (nocc_dn w) st src) /\
  snd (put_dn_and_add lo (nocc_dn w) st src)
  = insert_det (snd st) (up, pre ++ src).
Proof.
  intros Hwf Hlo Hpre Hup Hsrc (Hok & Hru & Hfd). split.
  - pose proof (put_dn_loop w (snd st) (fun _ => True) up pre lo [src] st
                  Hwf Hlo Hpre Hup) as HJ.
    cbv zeta in HJ. cbn [fold_left] in HJ.
    destruct HJ as (H1 & _ & H3 & H4).
    + intros x [<- | []]. auto.
    + repeat split; auto using only_adds_trivial; apply Hok.
    + repeat split; auto; apply H1.
  - destruct st as [occs w']. destruct Hok as (Hsys & Hlu & Hld).
    cbn [fst snd] in *.
    unfold put_dn_and_add, assign_slice. cbn [fst snd row_up row_dn].
    rewrite Hfd, Hru, app_assoc.
    rewrite read_buffer; [reflexivity | |].
    + destruct Hsys as (_ & _ & E & _). congruence.
    + destruct Hsys as (_ & _ & _ & E). rewrite length_app, E. lia.
Qed.

Lemma add_buffer_mono (w' : wavefunction) (occs : buffer) (d : det) :
  stored w' d -> stored (add_buffer w' occs) d.
Proof. intros Hd. apply stored_insert_mono. exact Hd. Qed.

Lemma put_dn_and_add_mono (lo hi : nat) (st : buffer * wavefunction)
  (src : list nat) (d : det) :
  stored (snd st) d -> stored (snd (put_dn_and_add lo hi st src)) d.
Proof. intros Hd. apply add_buffer_mono. exact Hd. Qed.

Lemma put_dn_fold_mono (lo hi : nat) (srcs : list (list nat))
  (st : buffer * wavefunction) (d : det) :
  stored (snd st) d ->
  stored (snd (fold_left (put_dn_and_add lo hi) srcs st)) d.
Proof.
  apply (fold_left_rule _ (fun st => stored (snd st) d)).
  intros st1 x _. apply put_dn_and_add_mono.
Qed.

(** No pass of [for s in seniorities] loses a determinant. *)
Lemma seniority_request_mono (st : buffer * wavefunction) (s : Z) (d : det) :
  stored (snd st) d -> stored (snd (seniority_request st s)) d.
Proof.
  unfold seniority_request.
  destruct (s =? 0)%Z;
    [|destruct (_ =? Z.of_nat _)%Z; [|destruct (_ =? 0)%Z]];
    apply (fold_left_rule _ (fun st => stored (snd st) d));
    intros st1 occs_up _ H1.
  - apply add_buffer_mono. exact H1.
  - apply put_dn_fold_mono. exact H1.
  - apply put_dn_fold_mono. exact H1.
  - revert H1. change (snd st1) with (snd (put_up st1 occs_up)).
    apply (fold_left_rule _ (fun st => stored (snd st) d)).
    intros st2 occs_i_dn _ H2. apply put_dn_fold_mono. exact H2.
Qed.

Lemma put_up_at (w : wavefunction) (st : buffer * wavefunction)
  (occs_up : list nat) :
  length occs_up = nocc_up w -> buffer_ok w st ->
  buffer_at w occs_up [] 0 (put_up st occs_up).
Proof.
  intros Hlen Hok.
  destruct (put_up_ok w (snd st) (fun _ => True) st occs_up Hlen)
    as (H1 & _ & H3 & _); [split; auto using only_adds_trivial|].
  repeat split; auto; apply H1.
Qed.

Lemma put_dn_fold_at (w : wavefunction) (up pre : list nat) (lo : nat)
  (srcs : list (list nat)) (st : buffer * wavefunction) :
  nocc_dn w <= nocc_up w -> lo <= nocc_dn w ->
  length pre = lo -> length up = nocc_up w ->
  (forall src, In src srcs -> length src = nocc_dn w - lo) ->
  buffer_at w up pre lo st ->
  buffer_at w up pre lo (fold_left (put_dn_and_add lo (nocc_dn w)) srcs st).
Proof.
  intros Hwf Hlo Hpre Hup Hsrcs. apply fold_left_rule.
  intros st1 src Hsrc H1. apply buffer_at_step; auto.
Qed.

(** The innermost loop stores [(up, pre ++ src)] when [src] is among its
    sources. *)
Lemma put_dn_fold_hit (w : wavefunction) (up pre src : list nat) (lo : nat)
  (srcs : list (list nat)) (st : buffer * wavefunction) :
  nocc_dn w <= nocc_up w -> lo <= nocc_dn w ->
  length pre = lo -> length up = nocc_up w ->
  (forall y, In y srcs -> length y = nocc_dn w - lo) ->
  In src srcs ->
  buffer_at w up pre lo st ->
  stored (snd (fold_left (put_dn_and_add lo (nocc_dn w)) srcs st))
         (up, pre ++ src).
Proof.
  intros Hwf Hlo Hpre Hup Hsrcs Hin.
  apply (fold_left_hit _ (buffer_at w up pre lo)
           (fun st => stored (snd st) (up, pre ++ src)) srcs src Hin).
  - intros st1 y Hy H1. apply buffer_at_step; auto.
  - intros st1 H1.
    destruct (buffer_at_step w up pre src lo st1) as [_ ->]; auto.
    apply stored_insert.
  - intros st1 y. apply put_dn_and_add_mono.
Qed.

Lemma buffer_at_weaken (w : wavefunction) (up pre : list nat) (lo : nat)
  (st : buffer * wavefunction) :
  buffer_at w up pre lo st -> buffer_at w up [] 0 st.
Proof. intros (Hok & Hru & _). repeat split; auto; apply Hok. Qed.

Lemma assign_at (w : wavefunction) (up occs_i : list nat) (n : nat)
  (st : buffer * wavefunction) :
  buffer_at w up [] 0 st -> length occs_i = n -> n <= nocc_up w ->
  buffer_at w up occs_i n
    (mk_buffer (row_up (fst st))
               (assign_slice (row_dn (fst st)) 0 n occs_i),
     snd st).
Proof.
  intros ((Hsys & Hlu & Hld) & Hru & _) Hlen Hn.
  unfold assign_slice. cbn [firstn app].
  refine (conj (conj _ (conj _ _)) (conj _ _));
    cbn [fst snd row_up row_dn]; auto.
  - rewrite length_app, length_skipn. lia.
  - rewrite firstn_app, <- Hlen, firstn_all, Nat.sub_diag. cbn [firstn].
    apply app_nil_r.
Qed.

Lemma seniority_zero_step (w : wavefunction) (st : buffer * wavefunction)
  (occs_up : list nat) :
  length occs_up = nocc_up w -> nocc_dn w = nocc_up w -> buffer_ok w st ->
  let st1 := put_up st occs_up in
  let occs := mk_buffer (row_up (fst st1))
                (assign_slice (row_dn (fst st1)) 0
                              (length (row_dn (fst st1))) occs_up) in
  buffer_ok w (occs, add_buffer (snd st1) occs) /\
  add_buffer (snd st1) occs = insert_det (snd st) (occs_up, occs_up).
Proof.
  intros Hlen Heq Hok st1 occs.
  destruct (put_up_at w st occs_up Hlen Hok) as ((Hsys & Hlu & Hld) & Hru & _).
  fold st1 in Hsys, Hlu, Hld, Hru.
  assert (Hsnd : snd st1 = snd st) by reflexivity.
  unfold occs, assign_slice. rewrite skipn_all. cbn [firstn app].
  rewrite Hru.
  rewrite read_buffer
    by (destruct Hsys as (_ & _ & E1 & E2); rewrite ?E1, ?E2; lia).
  rewrite Hsnd. split; [|reflexivity].
  refine (conj _ (conj _ _)); cbn [fst snd row_up row_dn];
    rewrite ?app_nil_r; auto.
  apply same_system_insert. rewrite <- Hsnd. exact Hsys.
Qed.

(** One pass of [for s in seniorities] on a legal seniority [s] stores every
    determinant of the system that has [s] singly occupied orbitals. *)
Lemma seniority_request_complete (w : wavefunction) (s : Z)
  (st : buffer * wavefunction) (up dn : list nat) :
  nocc_dn w <= nocc_up w ->
  invalid_seniority w s = false ->
  buffer_ok w st ->
  StronglySorted lt up -> StronglySorted lt dn ->
  length up = nocc_up w -> length dn = nocc_dn w ->
  Forall (fun i => i < nbasis w) up -> Forall (fun i => i < nbasis w) dn ->
  Z.of_nat (singly_occupied (nbasis w) (up, dn)) = s ->
  stored (snd (seniority_request st s)) (up, dn).
Proof.
  intros Hwf Hvalid Hok Hup Hdn Hlu Hld Hru Hrd Hsen.
  destruct (valid_seniority_spec _ _ Hvalid) as [Hbounds Hparity].
  unfold smin, smax in Hbounds, Hparity.
  assert (Hnb : nbasis (snd st) = nbasis w) by (destruct Hok as ((_&E&_)&_); exact E).
  assert (Hnu : nocc_up (snd st) = nocc_up w) by (destruct Hok as ((_&_&E&_)&_); exact E).
  assert (Hnd : nocc_dn (snd st) = nocc_dn w) by (destruct Hok as ((_&_&_&E)&_); exact E).
  assert (Harr : occ_up_array (snd st) = occ_up_array w)
    by (unfold occ_up_array; rewrite Hnb, Hnu; reflexivity).
  destruct (determinant_split (nbasis w) up dn Hup Hdn Hru Hrd)
    as (Hsp & Hsa & Hip & Hia & Hset & Hlen & Hcount).
  set (paired := filter (occupies dn) up) in *.
  set (alone := filter (fun i => negb (occupies up i)) dn) in *.
  assert (Hple : length paired <= length up)
    by (apply NoDup_incl_length; [apply sorted_NoDup; exact Hsp | exact Hip]).
  assert (Hupin : In up (occ_up_array w)).
  { unfold occ_up_array. rewrite <- Hlu.
    apply combinations_complete; [apply sorted_seq | exact Hup|].
    intros x Hx. rewrite Forall_forall in Hru. apply in_seq.
    specialize (Hru x Hx). lia. }
  assert (Hspec : forall y, In y (occ_up_array w) -> length y = nocc_up w)
    by (intros y Hy; apply occ_up_array_spec in Hy; tauto).
  assert (Htarget : same_det (up, paired ++ alone) (up, dn) = true)
    by (apply same_det_iff; split; [reflexivity | exact Hset]).
  unfold seniority_request. rewrite Harr, Hnb, Hnd.
  unfold nocc. rewrite Hnu, Hnd.
  set (pairs := ((Z.of_nat (nocc_up w + nocc_dn w) - s) / 2)%Z).
  assert (Hpairs : pairs = Z.of_nat (length paired)).
  { unfold pairs. rewrite <- Hsen, Hcount.
    Z.div_mod_to_equations. lia. }
  destruct (Z.eqb_spec s 0) as [Hs0 | Hs0].
  { (* seniority zero: the spin-down occupation is the spin-up one *)
    assert (Heq : nocc_dn w = nocc_up w) by lia.
    assert (Hsame : same_det (up, up) (up, dn) = true).
    { apply same_det_iff. split; [reflexivity|]. cbn [snd].
      assert (Halone : alone = [])
        by (apply length_zero_iff_nil; lia).
      rewrite Halone, app_nil_r in Hset.
      intros x. rewrite <- Hset. split; [|apply Hip].
      apply (NoDup_length_incl (sorted_NoDup _ Hsp)); [lia | exact Hip]. }
    apply (fold_left_hit _ (buffer_ok w)
             (fun st => stored (snd st) (up, dn)) _ up Hupin).
    - intros st1 y Hy H1.
      apply (seniority_zero_step w st1 y (Hspec y Hy) Heq H1).
    - intros st1 H1.
      destruct (seniority_zero_step w st1 up Hlu Heq H1) as [_ E].
      cbn [snd]. cbv zeta in E. rewrite E.
      eapply stored_same; [apply stored_insert | exact Hsame].
    - intros st1 y H1. apply add_buffer_mono. exact H1.
    - exact Hok. }
  destruct (Z.eqb_spec pairs (Z.of_nat (nocc_dn w))) as [Hall | Hnotall].
  { (* every spin-down electron is paired *)
    assert (Halone : alone = []) by (apply length_zero_iff_nil; lia).
    rewrite Halone, app_nil_r in Htarget.
    assert (Hpin : In paired (Py.combinations up (nocc_dn w))).
    { replace (nocc_dn w) with (length paired) by lia.
      apply combinations_complete; assumption. }
    apply (fold_left_hit _ (buffer_ok w)
             (fun st => stored (snd st) (up, dn)) _ up Hupin).
    - intros st1 y Hy H1.
      apply (put_dn_fold_at w y [] 0); auto using Nat.le_0_l.
      + intros src Hsrc. apply combinations_spec in Hsrc. lia.
      + apply put_up_at; auto.
    - intros st1 H1.
      eapply stored_same; [|exact Htarget].
      apply (put_dn_fold_hit w up [] paired 0); auto using Nat.le_0_l.
      + intros y Hy. apply combinations_spec in Hy. lia.
      + apply put_up_at; auto.
    - intros st1 y H1. apply put_dn_fold_mono. exact H1.
    - exact Hok. }
  destruct (Z.eqb_spec pairs 0) as [Hnone | Hsome].
  { exfalso. lia. }
  (* some electrons paired, some not *)
  assert (Hpi : Z.to_nat pairs = length paired) by lia.
  rewrite Hpi.
  assert (Hpin : In paired (Py.combinations up (length paired)))
    by (apply combinations_complete; assumption).
  assert (Hain : In alone
                   (Py.combinations
                      (Py.setdiff1d (Py.arange (nbasis w)) up)
                      (nocc_dn w - length paired))).
  { replace (nocc_dn w - length paired) with (length alone) by lia.
    apply combinations_complete; [|exact Hsa | exact Hia].
    apply sorted_filter, sorted_seq. }
  assert (Hmid : forall y st2 occs_i,
             length y = nocc_up w ->
             In occs_i (Py.combinations y (length paired)) ->
             buffer_at w y [] 0 st2 ->
             buffer_at w y [] 0
               (fold_left
                  (put_dn_and_add (length paired) (nocc_dn w))
                  (Py.combinations
                     (Py.setdiff1d (Py.arange (nbasis w)) y)
                     (nocc_dn w - length paired))
                  (mk_buffer (row_up (fst st2))
                     (assign_slice (row_dn (fst st2)) 0 (length paired)
                                   occs_i),
                   snd st2))).
  { intros y st2 occs_i Hy Hi H2.
    apply combinations_spec in Hi as (Hli & _ & _).
    apply (buffer_at_weaken w y occs_i (length paired)).
    apply put_dn_fold_at; auto; try lia.
    - intros src Hsrc. apply combinations_spec in Hsrc. lia.
    - apply assign_at; auto. lia. }
  apply (fold_left_hit _ (buffer_ok w)
           (fun st => stored (snd st) (up, dn)) _ up Hupin).
  - intros st1 y Hy H1.
    enough (buffer_at w y [] 0
              (fold_left
                 (fun st2 occs_i_dn =>
                    fold_left
                      (put_dn_and_add (length paired) (nocc_dn w))
                      (Py.combinations
                         (Py.setdiff1d (Py.arange (nbasis w)) y)
                         (nocc_dn w - length paired))
                      (mk_buffer (row_up (fst st2))
                         (assign_slice (row_dn (fst st2)) 0 (length paired)
                                       occs_i_dn),
                       snd st2))
                 (Py.combinations y (length paired)) (put_up st1 y)))
      as Hat by apply Hat.
    apply fold_left_rule; [|apply put_up_at; auto].
    intros st2 occs_i Hi H2. apply Hmid; auto.
  - intros st1 H1.
    apply (fold_left_hit _ (buffer_at w up [] 0)
             (fun st => stored (snd st) (up, dn)) _ paired Hpin).
    + intros st2 occs_i Hi H2. apply Hmid; auto.
    + intros st2 H2.
      eapply stored_same; [|exact Htarget].
      apply (put_dn_fold_hit w up paired alone (length paired)); auto; try lia.
      * intros y Hy. apply combinations_spec in Hy. lia.
      * apply assign_at; auto. lia.
    + intros st2 y H2. apply put_dn_fold_mono. exact H2.
    + apply put_up_at; auto.
  - intros st1 y H1.
    revert H1. change (snd st1) with (snd (put_up st1 y)).
    apply (fold_left_rule _ (fun st => stored (snd st) (up, dn))).
    intros st2 occs_i_dn _ H2. apply put_dn_fold_mono. exact H2.
  - exact Hok.
Qed.

(** X8: [add_seniorities] is complete: when it returns, every determinant of the
    system (increasing spin-up and spin-down occupations of [nocc_up] and
    [nocc_dn] orbitals below [nbasis]) whose seniority was requested is in
    the wave function. *)
Theorem add_seniorities_complete (junk : nat -> nat) (w w' : wavefunction)
  (seniorities : list Z) (s : Z) (up dn : list nat) :
  nocc_dn w <= nocc_up w ->
  add_seniorities junk w seniorities = (w', Returned) ->
  In s seniorities ->
  StronglySorted lt up -> StronglySorted lt dn ->
  length up = nocc_up w -> length dn = nocc_dn w ->
  Forall (fun i => i < nbasis w) up -> Forall (fun i => i < nbasis w) dn ->
  Z.of_nat (singly_occupied (nbasis w) (up, dn)) = s ->
  stored w' (up, dn).
Proof.
  intros Hwf Hrun Hs Hup Hdn Hlu Hld Hru Hrd Hsen.
  unfold add_seniorities in Hrun.
  destruct (kind w); try discriminate.
  destruct (existsb (invalid_seniority w) seniorities) eqn:Hex;
    [discriminate|].
  assert (Hvalid : forall x, In x seniorities -> invalid_seniority w x = false).
  { intros x Hx. destruct (invalid_seniority w x) eqn:E; [|reflexivity].
    assert (existsb (invalid_seniority w) seniorities = true)
      by (apply existsb_exists; eauto).
    congruence. }
  inversion Hrun; subst w'. clear Hrun.
  apply in_split in Hs as (pre & post & ->).
  rewrite fold_left_app. cbn [fold_left].
  apply (fold_left_rule _ (fun st => stored (snd st) (up, dn))).
  - intros st x _. apply seniority_request_mono.
  - apply (seniority_request_complete w); auto.
    + apply Hvalid, in_or_app. right. left. reflexivity.
    + apply fold_left_rule; [|apply np_empty_ok].
      intros st x Hx Hst. apply seniority_request_spec; auto.
      apply Hvalid, in_or_app. auto.
Qed.

End CompletenessFacts.

(** ** Worked instances *)

Section Instances.

Import Odometer Seniority Solvers Spec Examples.

(** In double precision, with the table [0.1, 0.4, 1.0], [t = -0.5] and
    [p = 1.5], the one-spin selector puts [1, 2] into [wfn_three]: the cost
    it computes, 0.8999999999999999, is below the threshold it computes,
    0.9. *)
Lemma odometer_inserts_below_threshold_witness :
  In ([1; 2], []) (dets wfn_three) \/
  Forall (fun c => below_threshold nodes_three (-0.5)%float 1.5%float
                                   (fst c) (snd c))
         (det_channels one_spin wfn_three ([1; 2], [])).
Proof.
  apply (odometer_inserts_below_threshold one_spin 20 wfn_three nodes_three
           (-0.5)%float 1.5%float).
  vm_compute. do 2 right. left. reflexivity.
Defined.

(** After one pass the channel of [new_occs] is [0, 2]. *)
Lemma odometer_channels_increasing_witness :
  Forall (fun ch => StronglySorted lt ch /\ Forall (fun i => i <= last ch 0) ch)
         (channels one_spin wfn_one (new_occs state_after_one_pass)) /\
  (forall out, out_of_range one_spin state_after_one_pass = Ok out ->
               out = existsb (fun i => nbasis wfn_one <=? i)
                             (new_occs state_after_one_pass)) /\
  (0 < electrons one_spin wfn_one ->
   exists out, out_of_range one_spin state_after_one_pass = Ok out).
Proof.
  apply (odometer_channels_increasing one_spin wfn_one nodes_four 0%Q 2%Q 2%Q).
  eapply reach_step; [apply reach_init | vm_compute; reflexivity].
Defined.

(** In double precision, [0, 3] and [1, 2] are accepted one after the
    other on [wfn_one]. *)
Lemma one_spin_acceptance_order_witness : lex_lt [0; 3] [1; 2].
Proof.
  apply (one_spin_acceptance_order 20 wfn_one nodes_four_float
           0%float 2%float [[0; 1]; [0; 2]] [[1; 3]; [2; 3]]).
  vm_compute. reflexivity.
Defined.

(** C8, as stated, fails: in double precision, with the table [0, 0, 0, 1],
    [t = 0] and [p = 2], two electrons and four orbitals, the selector
    accepts [0, 3], whose cost is 1, and, after backtracking, [1, 2], whose
    cost is 0, right after it. *)
Lemma one_spin_cost_not_monotone :
  let w := mk_wfn genci_wfn 4 2 0 [] in
  let nodes := [0; 0; 0; 1]%float in
  let run := _odometer_one_spin 20 w nodes 0%float 2%float in
  snd run = Returned /\
  accepted (fst run)
  = [[0; 1]; [0; 2]] ++ [0; 3] :: [1; 2] :: [[1; 3]; [2; 3]] /\
  cost nodes 0%float [0; 3] = Ok 1%float /\
  cost nodes 0%float [1; 2] = Ok 0%float /\
  PrimFloat.leb 1 0 = false.
Proof.
  cbv zeta. repeat split; vm_compute; reflexivity.
Qed.

(** Rounding alone makes the cost fall as well: with the non-decreasing
    table [0.1, 0.1, 0.4], [t = -1] and [p = 2] the selector accepts [0, 1]
    and then, with no rejection in between, [0, 2], whose computed cost
    0.09999999999999998 is below the 0.1 of [0, 1]. *)
Example one_spin_cost_rounding :
  let run := _odometer_one_spin 20 wfn_three nodes_tie (-1)%float 2%float in
  snd run = Returned /\
  accepted (fst run) = [[0; 1]; [0; 2]; [1; 2]] /\
  cost nodes_tie (-1)%float [0; 1] = Ok 0.1%float /\
  cost nodes_tie (-1)%float [0; 2] = Ok 0.09999999999999998%float /\
  PrimFloat.ltb 0.09999999999999998 0.1 = true.
Proof.
  cbv zeta. repeat split; vm_compute; reflexivity.
Qed.

(** The arithmetic decides what is selected: on the table [0.1, 0.4, 1.0]
    with [t = -0.5] and [p = 1.5] the run in double precision stores three
    determinants, the run on the same decimal numbers in exact rationals
    two. *)
Example rounding_decides_acceptance :
  accepted (fst (_odometer_one_spin 20 wfn_three nodes_three
                                    (-0.5)%float 1.5%float))
  = [[0; 1]; [0; 2]; [1; 2]] /\
  accepted (fst (_odometer_one_spin 20 wfn_three
                                    [1 # 10; 4 # 10; 1]%Q (- (1 # 2))%Q
                                    (3 # 2)%Q))
  = [[0; 1]; [0; 2]].
Proof. split; vm_compute; reflexivity. Qed.

(** Seniority 3 is illegal for [wfn_odd], whose legal seniority is 1. *)
Lemma add_seniorities_validates_first_witness :
  exists e,
    add_seniorities (fun _ => 0) wfn_odd [1; 3]%Z = (wfn_odd, Raised e) /\
    e = ValueError "invalid seniority number specified" /\
    InvalidArgument e.
Proof.
  apply (add_seniorities_validates_first (fun _ => 0) wfn_odd [1; 3]%Z).
  - reflexivity.
  - exists 3%Z. split; [simpl; auto|]. right. left. vm_compute. reflexivity.
Defined.

(** Seniority 2 on [wfn_two]. *)
Lemma add_seniorities_seniority_witness :
  (forall s, In s [2%Z] ->
             (smin wfn_two <= s <= smax wfn_two)%Z /\
             (s mod 2 = smin wfn_two mod 2)%Z) /\
  (forall pre s post,
      [2%Z] = pre ++ s :: post ->
      let before := fold_left seniority_request pre
                              (np_empty (fun _ => 0) (nocc_up wfn_two),
                               wfn_two) in
      forall d, In d (dets (snd (seniority_request before s))) ->
                In d (dets (snd before)) \/
                Z.of_nat (singly_occupied (nbasis wfn_two) d) = s) /\
  fst (add_seniorities (fun _ => 0) wfn_two [2%Z])
  = snd (fold_left seniority_request [2%Z]
                   (np_empty (fun _ => 0) (nocc_up wfn_two), wfn_two)).
Proof.
  apply (add_seniorities_seniority (fun _ => 0) wfn_two).
  - simpl. lia.
  - vm_compute. reflexivity.
Defined.

(** [solve_cepa0] on [op_two] with the minimum-residual solver and the
    guess [1, 2]: the initial guess is [2, 2], the right-hand side and (the
    stand-in solver handing it back) the solution are [1, 3]. *)
Lemma solve_cepa0_result_witness :
  exists op g rhs x info row k xk gk,
    handle_inputs no_sparse_op [AOp op_two] = Ok op /\
    initial_guess op None (Some [1; 2]%Q) 0 = Ok g /\
    cepa0_rhs op g 0 = Ok rhs /\
    false = false /\
    lgmres_run scipy_stub
      (mk_linop (fun y => matvec_cepa0 op y 0)
                (Some (fun y => rmatvec_cepa0 op y 0))
                (shape op),
       rhs)
      [("maxiter", PInt 5000); ("tol", PFloat (1 # 1000));
       ("atol", PFloat (1 # 1000))]
    = Ok (x, info) /\
    Z.of_nat k = position (length x) 0 /\
    nth_error x k = Some xk /\
    broadcast_entry (length x) g k = Some gk /\
    [4%Q] = [fadd (fadd xk gk) (ecore op)] /\
    [[1; 5]%Q] = [row] /\
    length row = length x /\
    nth_error row k = Some fone /\
    Py.get row 0 = Ok fone /\
    forall i xi, i <> k -> nth_error x i = Some xi ->
                 exists gi, broadcast_entry (length x) g i = Some gi /\
                            nth_error row i = Some (fadd xi gi).
Proof.
  apply (solve_cepa0_result no_sparse_op scipy_stub [AOp op_two] None
           (Some [1; 2]%Q) 0 5000 (1 # 1000) false [4%Q] [[1; 5]%Q]).
  vm_compute. reflexivity.
Defined.

(** [solve] on [op_one], with an eigensolver that is not available. *)
Lemma solve_length_one_witness :
  solve no_sparse_op scipy_stub [AOp op_one] 1 None None 5000 (1 # 1000)
  = Ok ([fadd (get_element op_one 0 0) (ecore op_one)], [[fone]]).
Proof.
  apply (solve_length_one no_sparse_op scipy_stub [AOp op_one] op_one
           1 None None 5000 (1 # 1000)); reflexivity.
Defined.

(** C2 at a failing input: the least-squares call on [op_two]. *)
Example solve_cepa0_lstsq_on_op_two :
  solve_cepa0 no_sparse_op scipy_stub [AOp op_two] None None 0 5000
              (1 # 1000) true
  = Err (TypeError "got an unexpected keyword argument 'iter_lime'").
Proof. reflexivity. Qed.

(** Mode ["cntsp"] for seven orbitals: shell 1, shell 2, and two entries of
    shell 3. *)
Example cntsp_seven_orbitals :
  option_map (firstn 7) (cntsp_nodes Q 7)
  = Some (map (fun k => inject_Z k - 1)%Q [1; 2; 2; 2; 2; 3; 3]%Z) /\
  option_map (firstn 7) (cntsp_nodes float 7)
  = Some [0; 1; 1; 1; 1; 2; 2]%float.
Proof. split; vm_compute; reflexivity. Qed.

(** In double precision the table of mode ["cntsp"] for fourteen orbitals
    (the shells 1, 2 and 3) is non-decreasing. *)
Example cntsp_fourteen_orbitals_float :
  exists table,
    option_map (firstn 14) (cntsp_nodes float 14) = Some table /\
    StronglySorted (fun x y => PrimFloat.leb x y = true) table.
Proof.
  eexists. split; [vm_compute; reflexivity|].
  repeat constructor.
Qed.

(** [0, 3], accepted on [wfn_one], is a determinant of it. *)
Lemma odometer_accepts_determinants_witness :
  length [0; 3] = electrons one_spin wfn_one /\
  Forall (StronglySorted lt) (channels one_spin wfn_one [0; 3]) /\
  Forall (fun i => i < nbasis wfn_one) [0; 3].
Proof.
  apply (odometer_accepts_determinants one_spin 20 wfn_one nodes_four 0%Q 2%Q).
  vm_compute. do 2 right. left. reflexivity.
Defined.

(** Three electrons: the two-spin selector inserts nothing into [wfn_odd]. *)
Lemma two_spin_needs_even_pairs_witness :
  accepted (fst (_odometer_two_spin 20 wfn_odd [0; 0; 0; 0; 1]%Q 0%Q 2%Q))
  = [] /\
  wfn (fst (_odometer_two_spin 20 wfn_odd [0; 0; 0; 0; 1]%Q 0%Q 2%Q))
  = wfn_odd.
Proof.
  apply (two_spin_needs_even_pairs 20 wfn_odd [0; 0; 0; 0; 1]%Q 0%Q 2%Q).
  left. reflexivity.
Defined.

(** An empty node table. *)
Lemma odometer_short_table_witness :
  odometer one_spin 20 wfn_one [] 0%Q 2%Q
  = (init_of one_spin wfn_one, Raised IndexError) /\
  wfn (init_of one_spin wfn_one) = wfn_one.
Proof.
  apply (odometer_short_table one_spin 20 wfn_one [] 0%Q 2%Q).
  left. reflexivity.
Defined.

(** Mode ["gamma"] without [node_dim]. *)
Lemma add_gkci_named_modes_witness :
  exists e,
    add_gkci 20 wfn_one 0%Q 2%Q (ModeStr "gamma") None
    = (wfn_one, Raised e) /\
    (e = NotImplementedError <->
     ("gamma" = "gamma" /\ @None Z <> None) \/
     ("gamma" = "cubic" /\ @None Z = None)) /\
    (e <> NotImplementedError -> is_ValueError e = true).
Proof.
  apply (add_gkci_named_modes 20 wfn_one 0%Q 2%Q "gamma" None).
  left. discriminate.
Defined.

(** Every determinant of seniority 2 of [wfn_two] is found, here
    [([0, 1], [0, 2])]. *)
Lemma add_seniorities_complete_witness :
  stored (fst (add_seniorities (fun _ => 0) wfn_two [2%Z])) ([0; 1], [0; 2]).
Proof.
  apply (add_seniorities_complete (fun _ => 0) wfn_two _ [2%Z] 2%Z).
  - simpl. lia.
  - vm_compute. reflexivity.
  - left. reflexivity.
  - repeat constructor.
  - repeat constructor.
  - reflexivity.
  - reflexivity.
  - repeat constructor.
  - repeat constructor.
  - reflexivity.
Defined.

(** The initial guess on [op_two] without guesses: zeros, the diagonal
    element at the reference. *)
Lemma initial_guess_seeded_witness :
  exists base,
    base = repeat fzero (snd (shape op_two)) /\
    length [2; 0]%Q = length base /\
    Py.get [2; 0]%Q 0 = Ok (get_element op_two 0 0) /\
    forall k, k <> Z.to_nat (position (length base) 0) ->
              nth_error [2; 0]%Q k = nth_error base k.
Proof.
  apply (initial_guess_seeded op_two None None 0 [2; 0]%Q). reflexivity.
Defined.

(** Reference index 2 on the two-dimensional [op_two]. *)
Lemma solve_cepa0_bad_refind_witness :
  solve_cepa0 no_sparse_op scipy_stub [AOp op_two] None None 2 5000
              (1 # 1000) false
  = Err IndexError.
Proof.
  apply (solve_cepa0_bad_refind no_sparse_op scipy_stub [AOp op_two] op_two
           None None 2 5000 (1 # 1000) false).
  - reflexivity.
  - right. simpl. lia.
Defined.

(** A solver that reports convergence and one that does not. *)
Lemma solve_cepa0_ignores_diagnostics_witness :
  solve_cepa0 no_sparse_op scipy_stub [AOp op_two] None None 0 5000
              (1 # 1000) false
  = solve_cepa0 no_sparse_op scipy_unconverged [AOp op_two] None None 0 5000
                (1 # 1000) false.
Proof.
  apply (solve_cepa0_ignores_diagnostics no_sparse_op scipy_stub
           scipy_unconverged).
  intros a kw. reflexivity.
Defined.

(** [solve] on [op_two] with the eigensolver [scipy_eig]. *)
Lemma solve_general_witness :
  exists v0 es0 cs0,
    length v0 = snd (shape op_two) /\
    v0 = fone :: repeat fzero (snd (shape op_two) - 1) /\
    eigsh_run scipy_eig (mk_linop (matvec op_two) None (shape op_two))
      [("k", PInt 1); ("v0", PVec v0); ("ncv", PNone);
       ("maxiter", PInt 5000); ("tol", PFloat (1 # 1000));
       ("which", PStr "SA")]
    = Ok (es0, cs0) /\
    [3 + 1]%Q = map (fun e => fadd e (ecore op_two)) es0 /\
    length [3 + 1]%Q = length es0 /\
    [[1; 0]%Q] = transpose (length es0) cs0 /\
    length [[1; 0]%Q] = length [3 + 1]%Q.
Proof.
  apply (solve_general no_sparse_op scipy_eig [AOp op_two] op_two 1 None None
           5000 (1 # 1000) [3 + 1]%Q [[1; 0]%Q]).
  - reflexivity.
  - discriminate.
  - reflexivity.
Defined.

(** A guess of three entries for the two-dimensional [op_two]. *)
Lemma solve_bad_guess_witness :
  solve no_sparse_op scipy_eig [AOp op_two] 1 (Some [1; 2; 3]%Q) None 5000
        (1 # 1000)
  = Err (ValueError "negative dimensions are not allowed").
Proof.
  apply (solve_bad_guess no_sparse_op scipy_eig [AOp op_two] op_two 1
           (Some [1; 2; 3]%Q) None 5000 (1 # 1000)).
  - reflexivity.
  - split; [simpl; lia | discriminate].
Defined.

(** Levels 1, then -1, then 2 with [excite_stub]: level 1 is applied, level
    -1 raises, level 2 is never tried. *)
Example add_excitations_stops :
  Excitations.add_excitations unit excite_stub wfn_one [1; -1; 2]%Z None
  = (mk_wfn genci_wfn 4 2 0 [([1], [])],
     Raised (ValueError "invalid excitation order e")).
Proof. reflexivity. Qed.

End Instances.
